(** * SQLAir: a shallow embedding of [SQLAir.cpp]

    The development follows the source file function by function:
    [display], [selectQuery], [updateQuery], [insertQuery], [deleteQuery],
    [clientThread], [runServer], [setupDownload], [loadAndGet] and
    [saveQuery].  Sequential code is written in a small state-and-error
    monad; the two places where the source relies on threads (the table's
    condition variable and the accept loop's worker counter) are given as
    interleaving machines whose atomic steps are the critical sections of
    the source. *)

From stdpp Require Import gmap strings list pretty.
From Stdlib Require Import ZArith Lia.

Open Scope string_scope.

(** ** Characters the source writes with escape sequences *)

Definition TAB : string := String (Ascii.ascii_of_nat 9) "".
Definition LF : string := String (Ascii.ascii_of_nat 10) "".
Definition CR : string := String (Ascii.ascii_of_nat 13) "".
Definition CRLF : string := CR +:+ LF.

(** ** Data model *)

Abbreviation StrVec := (list string).
Abbreviation CSVRow := (list string).

(** Modelled from the spec: class [CSV] is declared in a header that is not
    part of the sources.  The spec gives a table as an ordered column name
    list and an ordered sequence of rows; [getColumnNames] keeps the name
    of the accessor the source calls. *)
Record CSV := mkCSV { getColumnNames : StrVec; csvRows : list CSVRow }.

(** Exceptions.  [Exp] is the project's exception class carrying a message,
    [out_of_range] is what the standard containers' [at] raises, and
    [LookupError] is the failure of a column lookup, named as in the spec. *)
Inductive exn :=
| Exp (msg : string)
| out_of_range
| LookupError (name : string).

(** Places where the source indexes a vector with the unchecked
    [operator[]]; an index past the end there has no defined behaviour.
    Nor has locking a [std::mutex] that the calling thread owns. *)
Inductive ub :=
| ColNamesIndex (i : nat)
| ValuesIndex (i : nat)
| RowIndex (i : nat)
| MutexRelock.

Inductive result (A : Type) :=
| Ok (a : A)
| Throw (e : exn)
| Undefined (u : ub).
Arguments Ok {A} a.
Arguments Throw {A} e.
Arguments Undefined {A} u.

(** ** A state-and-error monad

    A computation receives the mutable state, and returns the state as it
    is when the computation ends: normally, by a throw, or at an undefined
    access.  Effects made before a throw stay made, as in C++. *)

Definition M (S A : Type) : Type := S -> result A * S.

Definition ret {S A} (a : A) : M S A := fun s => (Ok a, s).

Definition bind {S A B} (c : M S A) (k : A -> M S B) : M S B :=
  fun s =>
    match c s with
    | (Ok a, s') => k a s'
    | (Throw e, s') => (Throw e, s')
    | (Undefined u, s') => (Undefined u, s')
    end.

Definition throw {S A} (e : exn) : M S A := fun s => (Throw e, s).
Definition undefined {S A} (u : ub) : M S A := fun s => (Undefined u, s).
Definition lift {S A} (r : result A) : M S A := fun s => (r, s).
Definition get {S} : M S S := fun s => (Ok s, s).
Definition modify {S} (f : S -> S) : M S unit := fun s => (Ok tt, f s).

(** [try c catch h]: the handler runs in the state the throw left. *)
Definition try_catch {S A} (c : M S A) (h : exn -> M S A) : M S A :=
  fun s =>
    match c s with
    | (Throw e, s') => h e s'
    | r => r
    end.

Declare Scope m_scope.
Delimit Scope m_scope with M.
Notation "'let*' x := c 'in' k" := (bind c (fun x => k))
  (at level 10, x name, c at level 100, k at level 200) : m_scope.
Notation "c ;;; k" := (bind c (fun _ => k))
  (at level 100, k at level 200, right associativity) : m_scope.
Open Scope m_scope.

(** ** Vector accesses *)

(** [v.at(i)] with an [int] or [size_t] index: a negative [int] converts to
    a huge [size_t], so every index outside [0, size) raises. *)
Definition at_ {A} (v : list A) (i : Z) : result A :=
  if (i <? 0)%Z then Throw out_of_range
  else match v !! Z.to_nat i with
       | Some x => Ok x
       | None => Throw out_of_range
       end.

(** [v[i]] read, unchecked. *)
Definition index {A} (site : nat -> ub) (v : list A) (i : nat) : result A :=
  match v !! i with
  | Some x => Ok x
  | None => Undefined (site i)
  end.

(** Position of the first element equal to [x]. *)
Fixpoint find_index (x : string) (l : list string) : option nat :=
  match l with
  | [] => None
  | y :: l' => if String.eqb y x then Some 0 else S <$> find_index x l'
  end.

(** Modelled from the spec: [CSV::getColumnIndex] is not part of the
    sources.  The spec: column name lookup is by exact case-sensitive string
    match against the table's column list; an unknown column name is a
    LookupError. *)
Definition getColumnIndex (csv : CSV) (colName : string) : result nat :=
  match find_index colName (getColumnNames csv) with
  | Some i => Ok i
  | None => Throw (LookupError colName)
  end.

(** ** The state of one query execution: the table the [CSV&] parameter
    refers to, and the output stream [os]. *)
Record qstate := mkQ { tbl : CSV; os : string }.

Definition put (s : string) : M qstate unit :=
  modify (fun q => mkQ (tbl q) (os q +:+ s)).

Definition endl : M qstate unit := put LF.

(** A query call, as data: what a blocked query re-issues once woken. *)
Inductive call :=
| CSelect (mustWait : bool) (colNames : StrVec) (whereColIdx : Z)
          (cond value : string)
| CUpdate (mustWait : bool) (colNames values : StrVec) (whereColIdx : Z)
          (cond value : string).

(** How a query function leaves: it returns (having called [notify_all] on
    the table's condition variable or not), or it blocks in
    [csvCondVar.wait] and re-issues [retry] when it is woken. *)
Inductive status :=
| Returned (notified : bool)
| Waiting (retry : call).

(** [SQLAirBase::matches] and the [operator<<] that prints a [StrVec] are
    declared outside the sources; they are parameters of the engine. *)
Record engine_env := mkEngineEnv {
  matches : string -> string -> string -> bool;
  showStrVec : StrVec -> string
}.

Section Engine.

Variable E : engine_env.

(** *** [display] *)

(** The loop of [display]: the delimiter is written before the value is
    looked up (the operands of [<<] are evaluated left to right). *)
Fixpoint displayCols (row : CSVRow) (colNames : StrVec) (delim : string)
  : M qstate unit :=
  match colNames with
  | [] => ret tt
  | colName :: rest =>
      put delim ;;;
      let* q := get in
      let* idx := lift (getColumnIndex (tbl q) colName) in
      let* v := lift (at_ row (Z.of_nat idx)) in
      put v ;;;
      displayCols row rest TAB
  end.

Definition display (row : CSVRow) (colNames : StrVec) (numRows : nat)
  : M qstate unit :=
  (if Nat.eqb numRows 1 then put (showStrVec E colNames) ;;; endl else ret tt) ;;;
  displayCols row colNames "" ;;;
  endl.

(** *** [selectQuery] *)

(** The [where] test both queries make under the row's mutex. *)
Definition rowMatches (row : CSVRow) (whereColIdx : Z) (cond value : string)
  : result bool :=
  if (whereColIdx =? -1)%Z then Ok true
  else match at_ row whereColIdx with
       | Ok v => Ok (matches E v cond value)
       | Throw e => Throw e
       | Undefined u => Undefined u
       end.

(** The row the range-for iterator is at.  The loop keeps [i] below the
    number of rows, which no operation of the engine changes. *)
Definition currentRow (i : nat) : M qstate CSVRow :=
  let* q := get in
  lift (index RowIndex (csvRows (tbl q)) i).

(** One iteration of the loop of [selectQuery]: the critical section on the
    row's mutex, then the output outside it.  Returns the new [numRows]. *)
Definition selectRow (colNames : StrVec) (whereColIdx : Z)
  (cond value : string) (i : nat) (numRows : nat) : M qstate nat :=
  let* row := currentRow i in
  let* rowChosen := lift (rowMatches row whereColIdx cond value) in
  let selRow := row in
  if rowChosen : bool
  then display selRow colNames (S numRows) ;;; ret (S numRows)
  else ret numRows.

(** A loop over the row positions [i, i + todo). *)
Fixpoint forRows (body : nat -> nat -> M qstate nat) (todo : nat) (i : nat)
  (numRows : nat) : M qstate nat :=
  match todo with
  | O => ret numRows
  | S todo' =>
      let* n := body i numRows in
      forRows body todo' (S i) n
  end.

(** The first statement of [selectQuery]: [colNames[0]] is read unchecked. *)
Definition expandStar (colNames : StrVec) : M qstate StrVec :=
  let* c0 := lift (index ColNamesIndex colNames 0) in
  let* q := get in
  ret (if String.eqb c0 "*" then getColumnNames (tbl q) else colNames).

(** What follows the loop of [selectQuery]. *)
Definition selectFinish (mustWait : bool) (colNames : StrVec)
  (whereColIdx : Z) (cond value : string) (numRows : nat)
  : M qstate status :=
  if mustWait && Nat.eqb numRows 0
  then ret (Waiting (CSelect mustWait colNames whereColIdx cond value))
  else put (pretty numRows +:+ " row(s) selected.") ;;; endl ;;;
       ret (Returned false).

Definition selectQuery (mustWait : bool) (colNames : StrVec)
  (whereColIdx : Z) (cond value : string) : M qstate status :=
  let* colNames := expandStar colNames in
  let* q := get in
  let* numRows :=
    forRows (selectRow colNames whereColIdx cond value)
            (length (csvRows (tbl q))) 0 0 in
  selectFinish mustWait colNames whereColIdx cond value numRows.

(** *** [updateQuery] *)

(** [row[idx] = v] on the row at position [i] of the table. *)
Definition assignField (i idx : nat) (v : string) : M qstate unit :=
  let* row := currentRow i in
  if decide (idx < length row)
  then modify (fun q =>
         mkQ (mkCSV (getColumnNames (tbl q))
                    (<[i := <[idx := v]> row]> (csvRows (tbl q))))
             (os q))
  else undefined (RowIndex idx).

(** The inner loop of [updateQuery], from position [j] of [colNames] on.
    In [row[csv.getColumnIndex(colNames[j])] = values[j]] the right side of
    the assignment is evaluated first. *)
Fixpoint assignCols (i : nat) (colNames : StrVec) (values : StrVec) (j : nat)
  : M qstate unit :=
  match colNames with
  | [] => ret tt
  | colName :: rest =>
      let* v := lift (index ValuesIndex values j) in
      let* q := get in
      let* idx := lift (getColumnIndex (tbl q) colName) in
      assignField i idx v ;;;
      assignCols i rest values (S j)
  end.

(** One iteration of the loop of [updateQuery]: test and mutation under one
    acquisition of the row's mutex. *)
Definition updateRow (colNames values : StrVec) (whereColIdx : Z)
  (cond value : string) (i : nat) (numRows : nat) : M qstate nat :=
  let* row := currentRow i in
  let* m := lift (rowMatches row whereColIdx cond value) in
  if m : bool
  then assignCols i colNames values 0 ;;; ret (S numRows)
  else ret numRows.

(** What follows the loop of [updateQuery]. *)
Definition updateFinish (mustWait : bool) (colNames values : StrVec)
  (whereColIdx : Z) (cond value : string) (numRows : nat)
  : M qstate status :=
  if mustWait && Nat.eqb numRows 0
  then ret (Waiting (CUpdate mustWait colNames values whereColIdx cond value))
  else put (pretty numRows +:+ " row(s) updated.") ;;; endl ;;;
       ret (Returned (negb (Nat.eqb numRows 0))).

Definition updateQuery (mustWait : bool) (colNames values : StrVec)
  (whereColIdx : Z) (cond value : string) : M qstate status :=
  let* q := get in
  let* numRows :=
    forRows (updateRow colNames values whereColIdx cond value)
            (length (csvRows (tbl q))) 0 0 in
  updateFinish mustWait colNames values whereColIdx cond value numRows.

(** *** [insertQuery] and [deleteQuery] *)

Definition insertQuery (mustWait : bool) (colNames values : StrVec)
  : M qstate status :=
  throw (Exp "insert is not yet implemented.").

Definition deleteQuery (mustWait : bool) (whereColIdx : Z)
  (cond value : string) : M qstate status :=
  throw (Exp "delete is not yet implemented.").

End Engine.

(** ** Streams

    An input stream is the text still to be read and the two state bits
    the source tests.  A stream over a file that could not be opened, or a
    connection that could not be made, starts with [failbit] set. *)

Record istream := mkStream { buf : string; eofbit : bool; failbit : bool }.

Definition good (s : istream) : bool := negb (eofbit s) && negb (failbit s).
Definition fail (s : istream) : bool := failbit s.
Definition failed_stream : istream := mkStream "" false true.
Definition stream_of (text : string) : istream := mkStream text false false.

Definition isspace (c : Ascii.ascii) : bool :=
  let n := Ascii.nat_of_ascii c in
  Nat.eqb n 32 || (Nat.leb 9 n && Nat.leb n 13).

Fixpoint skipws (s : string) : string :=
  match s with
  | String c s' => if isspace c then skipws s' else s
  | EmptyString => s
  end.

(** The longest prefix without white space, and what follows it. *)
Fixpoint spanWord (s : string) : string * string :=
  match s with
  | String c s' =>
      if isspace c then ("", s)
      else let '(w, r) := spanWord s' in (String c w, r)
  | EmptyString => ("", "")
  end.

(** The text up to the first line feed, and what follows the line feed;
    [None] as second component when the text has no line feed. *)
Fixpoint spanLine (s : string) : string * option string :=
  match s with
  | String c s' =>
      if Nat.eqb (Ascii.nat_of_ascii c) 10 then ("", Some s')
      else let '(l, r) := spanLine s' in (String c l, r)
  | EmptyString => ("", None)
  end.

(** [data >> str]: [str] keeps its value when nothing can be extracted. *)
Definition extract (data : istream) (str : string) : istream * string :=
  if good data then
    match skipws (buf data) with
    | EmptyString => (mkStream "" true true, str)
    | b => let '(w, r) := spanWord b in
           (mkStream r (if String.eqb r "" then true else false) false, w)
    end
  else (mkStream (buf data) (eofbit data) true, str).

(** [getline(data, str)]; the boolean is the stream's value as a condition. *)
Definition getline (data : istream) (str : string) : istream * string * bool :=
  if good data then
    match buf data with
    | EmptyString => (mkStream "" true true, "", false)
    | b => match spanLine b with
           | (l, Some r) => (mkStream r false false, l, true)
           | (l, None) => (mkStream "" true false, l, true)
           end
    end
  else (mkStream (buf data) (eofbit data) true, str, false).

(** The loops [while (getline(data, hdr) && !hdr.empty() && hdr != CR) {}] of
    [clientThread] and [setupDownload]; [fuel] bounds the lines read and is
    taken as the length of the text. *)
Fixpoint skipHeaders (fuel : nat) (data : istream) : istream :=
  match fuel with
  | O => data
  | S fuel' =>
      let '(data', hdr, ok) := getline data "" in
      if ok && negb (String.eqb hdr "") && negb (String.eqb hdr CR)
      then skipHeaders fuel' data'
      else data'
  end.

(** [hay.find(needle) != npos]. *)
Fixpoint contains (needle hay : string) : bool :=
  String.prefix needle hay ||
  match hay with
  | String _ hay' => contains needle hay'
  | EmptyString => false
  end.

(** [s.substr(n)] for [n] at most the length of [s]. *)
Fixpoint substr (n : nat) (s : string) : string :=
  match n, s with
  | S n', String _ s' => substr n' s'
  | _, _ => s
  end.

(** ** The server object and its surroundings *)

(** The members of class [SQLAir] the source uses, and the local files. *)
Record world := mkWorld {
  inMemoryCSV : gmap string CSV;
  recentCSV : string;
  numThreads : Z;
  thrCond : list nat;  (* the threads blocked in [thrCond.wait] *)
  files : gmap string string
}.

Definition set_recentCSV (r : string) (w : world) : world :=
  mkWorld (inMemoryCSV w) r (numThreads w) (thrCond w) (files w).
Definition set_inMemoryCSV (m : gmap string CSV) (w : world) : world :=
  mkWorld m (recentCSV w) (numThreads w) (thrCond w) (files w).
Definition set_numThreads (n : Z) (w : world) : world :=
  mkWorld (inMemoryCSV w) (recentCSV w) n (thrCond w) (files w).
Definition set_thrCond (c : list nat) (w : world) : world :=
  mkWorld (inMemoryCSV w) (recentCSV w) (numThreads w) c (files w).
Definition set_files (f : gmap string string) (w : world) : world :=
  mkWorld (inMemoryCSV w) (recentCSV w) (numThreads w) (thrCond w) f.

(** [notify_one] wakes one of the waiting threads: the first. *)
Definition notify_one (waiting : list nat) : list nat := tail waiting.

(** [numThreads--] and [thrCond.notify_one()]. *)
Definition decrementThreads (w : world) : world :=
  set_numThreads (numThreads w - 1) w.
Definition notifyThread (w : world) : world :=
  set_thrCond (notify_one (thrCond w)) w.

(** [std::ifstream data(name)]: no file has the empty name. *)
Definition ifstream (fs : gmap string string) (name : string) : istream :=
  if String.eqb name "" then failed_stream
  else match fs !! name with
       | Some text => stream_of text
       | None => failed_stream
       end.

Definition HTTPRespHeader : string :=
  "HTTP/1.1 200 OK" +:+ CRLF +:+
  "Server: localhost" +:+ CRLF +:+
  "Connection: Close" +:+ CRLF +:+
  "Content-Type: text/plain" +:+ CRLF +:+
  "Content-Length: ".

(** What the source calls but does not define: [CSV::load] and [CSV::save],
    [Helper::breakDownURL], [Helper::trim], [Helper::url_decode],
    [SQLAirBase::process], [http::file], the text [what()] gives for the
    standard library's exceptions, and the network, which maps a host and
    a port to nothing (no connection) or to the reply the server makes to a
    request for a path.  [CSV::save] is given the state of the stream it
    writes to (open or not) and the table, and gives the text it inserts
    or the exception it throws.  [can_open] tells which files
    [std::ofstream] can open for writing. *)
Record server_env := mkServerEnv {
  csv_load : istream -> result CSV;
  csv_save : bool -> CSV -> result string;
  breakDownURL : string -> string * string * string;
  trim : string -> string;
  url_decode : string -> string;
  process : string -> M (world * string) unit;
  http_file : string -> string;
  std_what : exn -> string;
  network : string -> string -> option (string -> string);
  can_open : string -> bool
}.

Section Server.

Variable X : server_env.

Definition what (e : exn) : string :=
  match e with
  | Exp msg => msg
  | _ => std_what X e
  end.

(** *** [setupDownload] *)

Definition setupDownload (hostName path port : string) : result istream :=
  match network X hostName port with
  | None =>
      Throw (Exp ("Unable to connect to " +:+ hostName +:+ " at port " +:+ port))
  | Some server =>
      let data := stream_of (server path) in
      let '(data, status, _) := getline data "" in
      if negb (contains "200 OK" status)
      then Throw (Exp ("Error (" +:+ trim X status +:+ ") getting " +:+ path +:+
                       " from " +:+ hostName +:+ " at port " +:+ port))
      else Ok (skipHeaders (S (String.length (buf data))) data)
  end.

(** *** [loadAndGet] *)

(** The part of [loadAndGet] outside the critical sections: the table is
    built from a download or from a local file. *)
Definition loadCSV (fs : gmap string string) (fileOrURL : string)
  : result CSV :=
  if String.prefix "http://" fileOrURL then
    let '(host, port, path) := breakDownURL X fileOrURL in
    match setupDownload host path port with
    | Ok data => csv_load X data
    | Throw e => Throw e
    | Undefined u => Undefined u
    end
  else csv_load X (ifstream fs fileOrURL).

(** The returned [CSV&] is given as the key under which the table is in
    [inMemoryCSV]. *)
Definition loadAndGet (fileOrURL : string) : M world string :=
  let* w := get in
  let fileOrURL := if String.eqb fileOrURL "" then recentCSV w else fileOrURL in
  modify (set_recentCSV fileOrURL) ;;;
  let* w := get in
  match inMemoryCSV w !! fileOrURL with
  | Some _ => ret fileOrURL
  | None =>
      let* csv := lift (loadCSV (files w) fileOrURL) in
      modify (fun w => set_inMemoryCSV (<[fileOrURL := csv]> (inMemoryCSV w)) w) ;;;
      ret fileOrURL
  end.

(** *** [saveQuery] *)

(** [inMemoryCSV.at(key)]. *)
Definition map_at (m : gmap string CSV) (key : string) : result CSV :=
  match m !! key with
  | Some csv => Ok csv
  | None => Throw out_of_range
  end.

Definition on_world (f : world -> world) : M (world * string) unit :=
  modify (fun s => (f s.1, s.2)).
Definition emit (text : string) : M (world * string) unit :=
  modify (fun s => (s.1, s.2 +:+ text)).

(** [std::ofstream csvData(name)] and what is inserted into it: a file
    that can be opened is emptied when the stream is constructed and holds
    what is inserted; nothing happens to a file that cannot be opened, and
    the source never tests the stream. *)
Definition open_file (opened : bool) (name : string) (w : world) : world :=
  if opened then set_files (<[name := ""]> (files w)) w else w.
Definition write_file (opened : bool) (name text : string) (w : world)
  : world :=
  if opened then set_files (<[name := text]> (files w)) w else w.

(** The output file is opened, and so emptied, before the table is looked
    up. *)
Definition saveQuery : M (world * string) unit :=
  let* s := get in
  let recent := recentCSV s.1 in
  if String.eqb recent "" || String.prefix "http://" recent
  then throw (Exp "Saving CSV to an URL using POST is not implemented")
  else
    let opened := can_open X recent in
    on_world (open_file opened recent) ;;;
    let* csv := lift (map_at (inMemoryCSV s.1) recent) in
    let* text := lift (csv_save X opened csv) in
    on_world (write_file opened recent text) ;;;
    emit (recent +:+ " saved." +:+ LF).

(** *** [clientThread] *)

(** The [try] block of [clientThread] on its own [ostringstream]: returns
    the text of the stream. *)
Definition runQuery (request : string) : M world string :=
  fun w =>
    match try_catch (process X request)
                    (fun e => emit "Error: " ;;; emit (what e) ;;; emit LF)
                    (w, "") with
    | (Ok _, (w', os)) => (Ok os, w')
    | (Throw e, (w', _)) => (Throw e, w')
    | (Undefined u, (w', _)) => (Undefined u, w')
    end.

(** The last two statements of [clientThread]. *)
Definition releaseSlot : M world unit :=
  modify decrementThreads ;;;
  modify notifyThread.

(** [*client << text]: the answer goes to the stream the request was read
    from, and nothing is inserted into a stream that is not good. *)
Definition send (client : istream) (text : string) : string :=
  if good client then text else "".

(** Returns what the thread writes to the client.  The text of [client] is
    what the client sends before it closes its side of the connection. *)
Definition clientThread (client : istream) : M world string :=
  let '(client, request) := extract client "" in
  let '(client, request) := extract client request in
  let client := skipHeaders (S (String.length (buf client))) client in
  let* response :=
    if String.prefix "/sql-air?query=" request then
      let request := substr 15 request in
      let request := url_decode X request in
      let* os := runQuery request in
      ret (HTTPRespHeader +:+ pretty (String.length os) +:+ CRLF +:+ CRLF +:+ os)
    else if negb (String.eqb request "") then
      let request := substr 1 request in
      ret (http_file X request)
    else ret "" in
  let written := send client response in
  releaseSlot ;;;
  ret written.

End Server.

(** ** Threads on one table

    Each thread executes one query call on the shared table.  An atomic
    step is what the source does without another thread being able to act
    on the same data in between: entering the function, one iteration of
    the row loop (the critical section on the row's mutex, and for a select
    the output to the thread's own stream), and what follows the loop
    (waiting on the table's condition variable, or printing the count and
    notifying).  [updateQuery] never holds [csvMutex] when it notifies after
    a first pass, so nothing orders its [notify_all] with respect to a
    select that has left its loop and not yet called [wait].

    The call made again after [wait] is a recursive call inside the scope
    of the [std::unique_lock] on [csvMutex]: [wait] has locked the mutex
    again when it returns, and the thread owns it until the recursive call
    is over.  A thread that was woken therefore first has to get the mutex
    ([Woken]), runs its query as its owner, and gives it up when the call
    returns or throws.  When the new pass ends without a row, the thread
    constructs a second [unique_lock] on the mutex it owns. *)

Inductive pc :=
| Enter (c : call)
| InSelect (mustWait : bool) (colNames : StrVec) (whereColIdx : Z)
           (cond value : string) (i numRows : nat)
| InUpdate (mustWait : bool) (colNames values : StrVec) (whereColIdx : Z)
           (cond value : string) (i numRows : nat)
| InWait (retry : call)
| Woken (retry : call)
| Finished
| Crashed (r : exn + ub).

Record thread := mkThread { at_pc : pc; out : string }.

(** [csvMutex] is the thread that owns the table's mutex, if one does. *)
Record table_sys := mkSys {
  shared : CSV;
  threads : list thread;
  csvMutex : option nat
}.

(** Where a thread is after a query function left with status [s], and
    whether it notified. *)
Definition after (s : status) : pc * bool :=
  match s with
  | Returned n => (Finished, n)
  | Waiting c => (InWait c, false)
  end.

(** A thread blocked in [csvCondVar.wait] is notified, or wakes by itself:
    [wait] has to lock [csvMutex] again before it returns. *)
Definition wake (t : thread) : thread :=
  match at_pc t with
  | InWait c => mkThread (Woken c) (out t)
  | _ => t
  end.

(** The destructor of the [unique_lock], for the thread that owns the
    mutex. *)
Definition release (k : nat) (m : option nat) : option nat :=
  match m with
  | Some h => if decide (h = k) then None else m
  | None => None
  end.

Section TableThreads.

Variable E : engine_env.

(** Run a piece of a query function for thread [t] on the shared table. *)
Definition advance {A} (csv : CSV) (t : thread) (c : M qstate A)
  (k : A -> pc * bool) : CSV * thread * bool :=
  match c (mkQ csv (out t)) with
  | (Ok a, q) => let '(p, n) := k a in (tbl q, mkThread p (os q), n)
  | (Throw e, q) => (tbl q, mkThread (Crashed (inl e)) (os q), false)
  | (Undefined u, q) => (tbl q, mkThread (Crashed (inr u)) (os q), false)
  end.

(** The next piece of the query function of a thread that executes one;
    what the step means for [csvMutex] is in [table_step]. *)
Definition thread_step (csv : CSV) (t : thread) : CSV * thread * bool :=
  match at_pc t with
  | Enter (CSelect mw cols w c v) =>
      advance csv t (expandStar cols)
              (fun cols' => (InSelect mw cols' w c v 0 0, false))
  | Enter (CUpdate mw cols vals w c v) =>
      (csv, mkThread (InUpdate mw cols vals w c v 0 0) (out t), false)
  | InSelect mw cols w c v i n =>
      if decide (i < length (csvRows csv))
      then advance csv t (selectRow E cols w c v i n)
                   (fun n' => (InSelect mw cols w c v (S i) n', false))
      else advance csv t (selectFinish mw cols w c v n) after
  | InUpdate mw cols vals w c v i n =>
      if decide (i < length (csvRows csv))
      then advance csv t (updateRow E cols vals w c v i n)
                   (fun n' => (InUpdate mw cols vals w c v (S i) n', false))
      else advance csv t (updateFinish mw cols vals w c v n) after
  | InWait _ | Woken _ | Finished | Crashed _ => (csv, t, false)
  end.

(** Thread [k] makes its next step, if it has one.

    A thread blocked in [wait], and one that is over, has none.  A woken
    thread locks [csvMutex] if no thread owns it, and is then at the start
    of its call.  A thread that executes its query makes the next piece of
    it.  When that piece ends in the wait, the thread first constructs the
    [unique_lock]: it goes on to wait, which unlocks the mutex, if the
    mutex was free; it stays where it is while another thread owns the
    mutex; and if it owns the mutex itself the behaviour is undefined.
    When the piece ends the call by a return or a throw, the scope of the
    [unique_lock] of a call made again is left, and the mutex is free. *)
Definition table_step (s : table_sys) (k : nat) : table_sys :=
  match threads s !! k with
  | None => s
  | Some t =>
      match at_pc t with
      | InWait _ | Finished | Crashed _ => s
      | Woken c =>
          match csvMutex s with
          | None =>
              mkSys (shared s)
                    (<[k := mkThread (Enter c) (out t)]> (threads s)) (Some k)
          | Some _ => s
          end
      | Enter _ | InSelect _ _ _ _ _ _ _ | InUpdate _ _ _ _ _ _ _ _ =>
          let '(csv', t', notified) := thread_step (shared s) t in
          let ts := <[k := t']> (threads s) in
          match at_pc t' with
          | InWait _ =>
              match csvMutex s with
              | None => mkSys csv' ts None
              | Some h =>
                  if decide (h = k)
                  then mkSys csv'
                         (<[k := mkThread (Crashed (inr MutexRelock)) (out t')]>
                            (threads s))
                         (csvMutex s)
                  else s
              end
          | Finished | Crashed (inl _) =>
              mkSys csv' (if notified : bool then wake <$> ts else ts)
                    (release k (csvMutex s))
          | _ => mkSys csv' ts (csvMutex s)
          end
      end
  end.

Definition table_run (sched : list nat) (s : table_sys) : table_sys :=
  foldl table_step s sched.

(** [csvCondVar.wait(lock)] is called without a predicate, and a condition
    variable may wake a waiting thread by itself. *)
Definition spurious_wake (s : table_sys) (k : nat) : table_sys :=
  mkSys (shared s) (alter wake k (threads s)) (csvMutex s).

(** What can happen next on a table: a thread makes a step, or a waiting
    thread wakes by itself. *)
Inductive move := Run (k : nat) | WakeUp (k : nat).

Definition table_move (s : table_sys) (m : move) : table_sys :=
  match m with
  | Run k => table_step s k
  | WakeUp k => spurious_wake s k
  end.

Definition table_exec (sched : list move) (s : table_sys) : table_sys :=
  foldl table_move s sched.

End TableThreads.

(** ** The accept loop and its workers

    [runServer] is the only thread that waits on [thrCond]; it is thread
    [0] there.  Its steps are the statements of the loop body; a worker is
    a [clientThread], of which the machine sees the request handling, the
    decrement of [numThreads] and the [notify_one]. *)

Inductive apc := ALock | AEnterWait | AWait | AAccept | ASpawned | ADetach.
Inductive wpc := WHandling | WDecremented | WExited.

#[global] Instance wpc_eq_dec : EqDecision wpc.
Proof. solve_decision. Defined.

Record server := mkServer {
  sql : world;
  acceptor : apc;
  workers : list wpc
}.

Inductive label := Acceptor | Worker (k : nat) | Spurious.

Definition acceptorId : nat := 0.

(** [thrCond.wait(lock, pred)] when the predicate is evaluated: the loop
    goes on, or is about to call [wait(lock)].  The workers do not take
    [thrMutex], so they can act between the test and the wait. *)
Definition checkCapacity (maxThr : Z) (s : server) : server :=
  if (numThreads (sql s) <? maxThr)%Z
  then mkServer (sql s) AAccept (workers s)
  else mkServer (sql s) AEnterWait (workers s).

Definition acceptor_step (maxThr : Z) (s : server) : server :=
  match acceptor s with
  | ALock => checkCapacity maxThr s
  | AEnterWait =>
      mkServer (set_thrCond (thrCond (sql s) ++ [acceptorId]) (sql s))
               AWait (workers s)
  | AWait =>
      if decide (acceptorId ∈ thrCond (sql s)) then s
      else checkCapacity maxThr s
  | AAccept => mkServer (sql s) ASpawned (workers s ++ [WHandling])
  | ASpawned =>
      mkServer (set_numThreads (numThreads (sql s) + 1) (sql s))
               ADetach (workers s)
  | ADetach => mkServer (sql s) ALock (workers s)
  end.

Definition worker_step (k : nat) (s : server) : server :=
  match workers s !! k with
  | Some WHandling =>
      mkServer (decrementThreads (sql s)) (acceptor s)
               (<[k := WDecremented]> (workers s))
  | Some WDecremented =>
      mkServer (notifyThread (sql s)) (acceptor s)
               (<[k := WExited]> (workers s))
  | _ => s
  end.

(** A condition variable may also wake a waiting thread by itself. *)
Definition spurious_step (s : server) : server :=
  mkServer (set_thrCond (filter (fun t => t ≠ acceptorId) (thrCond (sql s)))
                        (sql s))
           (acceptor s) (workers s).

Definition server_step (maxThr : Z) (s : server) (l : label) : server :=
  match l with
  | Acceptor => acceptor_step maxThr s
  | Worker k => worker_step k s
  | Spurious => spurious_step s
  end.

Definition server_run (maxThr : Z) (sched : list label) (s : server)
  : server :=
  foldl (server_step maxThr) s sched.

(** The workers that are handling a request. *)
Definition handling (s : server) : Z :=
  Z.of_nat (length (filter (fun p => p = WHandling) (workers s))).

(** The server when [runServer] is called: no worker yet. *)
Definition server_init (w : world) : server :=
  mkServer (set_thrCond [] (set_numThreads 0 w)) ALock [].

(** ** Concrete surroundings used to run the model

    [eq_matches] compares for equality whatever the comparator, the column
    names are shown separated by tabs, and [load_strict] refuses a stream
    that is not readable, as the spec has it for [load]. *)

Definition eq_matches (v cond value : string) : bool := String.eqb v value.
Definition tab_separated (colNames : StrVec) : string :=
  String.concat TAB colNames.

Definition one_column (data : istream) : CSV :=
  mkCSV [(spanLine (buf data)).1] [].
Definition load_strict (data : istream) : result CSV :=
  if fail data then Throw (Exp "Unable to read the CSV data")
  else Ok (one_column data).
Definition save_columns (opened : bool) (csv : CSV) : result string :=
  Ok (tab_separated (getColumnNames csv) +:+ LF).

Definition eq_engine : engine_env := mkEngineEnv eq_matches tab_separated.

Definition world0 : world := mkWorld ∅ "" 0 [] ∅.

(** A [process] that answers every request by selecting the columns [a]
    and [zz] of a table that has the columns [a] and [b]. *)
Definition ab_table : CSV := mkCSV ["a"; "b"] [["1"; "2"]].
Definition select_unknown_column (request : string) : M (world * string) unit :=
  fun s =>
    match selectQuery eq_engine false ["a"; "zz"] (-1) "" ""
                      (mkQ ab_table s.2) with
    | (Ok _, q) => (Ok tt, (s.1, os q))
    | (Throw e, q) => (Throw e, (s.1, os q))
    | (Undefined u, q) => (Undefined u, (s.1, os q))
    end.

(** Surroundings without a network, with the given [CSV::load]. *)
Definition offline (load : istream -> result CSV) : server_env :=
  mkServerEnv load save_columns
              (fun url => (url, "80", "/")) (fun s => s) (fun s => s)
              select_unknown_column (fun name => "")
              (fun e => "exception") (fun host port => None)
              (fun name => true).


(** ** Vocabulary of the statements *)

(** The identifier [loadAndGet] works with. *)
Definition effective (fileOrURL : string) (w : world) : string :=
  if String.eqb fileOrURL "" then recentCSV w else fileOrURL.

(** The path of the request line: the second word the client sends. *)
Definition requestOf (client : istream) : string :=
  (extract (extract client "").1 (extract client "").2).2.

(** The client's stream when [clientThread] has read the request: after
    the two extractions and the loop over the header lines. *)
Definition afterHeaders (client : istream) : istream :=
  let c1 := (extract client "").1 in
  let c2 := (extract c1 (extract client "").2).1 in
  skipHeaders (S (String.length (buf c2))) c2.


(** One row [pending], a blocking select for [status = done] and the
    update that sets [done]. *)
Definition status_table : CSV := mkCSV ["status"] [["pending"]].
Definition wait_done : call := CSelect true ["*"] 0 "=" "done".
Definition set_done : call := CUpdate false ["status"] ["done"] (-1) "" "".
Definition two_threads : table_sys :=
  mkSys status_table
        [mkThread (Enter wait_done) ""; mkThread (Enter set_done) ""] None.

Definition isHandling (p : wpc) : nat :=
  match p with WHandling => 1 | _ => 0 end.

(** The text of a list of texts. *)
Definition cat (l : list string) : string := foldr String.append "" l.

(** The values of [row] in the columns [colNames] of [csv]. *)
Definition project (csv : CSV) (row : CSVRow) (colNames : StrVec)
  : list string :=
  (fun c => match find_index c (getColumnNames csv) with
            | Some i => default "" (row !! i)
            | None => ""
            end) <$> colNames.

(** The line [display] prints for a row. *)
Definition rowText (csv : CSV) (colNames : StrVec) (row : CSVRow) : string :=
  String.concat TAB (project csv row colNames) +:+ LF.

(** The rows the [where] clause chooses. *)
Definition chosen (E : engine_env) (whereColIdx : Z) (cond value : string)
  (row : CSVRow) : bool :=
  match rowMatches E row whereColIdx cond value with
  | Ok b => b
  | _ => false
  end.

(** Every row has as many fields as the table has columns. *)
Definition well_formed (csv : CSV) : Prop :=
  Forall (fun row => length row = length (getColumnNames csv)) (csvRows csv).

(** The columns named exist, and so does the column of the [where]
    clause. *)
Definition valid_columns (csv : CSV) (colNames : StrVec) : Prop :=
  Forall (fun c => c ∈ getColumnNames csv) colNames.
Definition valid_where (csv : CSV) (whereColIdx : Z) : Prop :=
  whereColIdx = (-1)%Z
  \/ (0 <= whereColIdx < Z.of_nat (length (getColumnNames csv)))%Z.

(** The column names [selectQuery] works with after its first statement. *)
Definition expanded (csv : CSV) (colNames : StrVec) : StrVec :=
  match colNames with
  | c0 :: _ => if String.eqb c0 "*" then getColumnNames csv else colNames
  | [] => colNames
  end.

(** What the loop of [selectQuery] prints for the chosen rows [rows] when
    it has counted [numRows] rows before them. *)
Fixpoint selectedText (E : engine_env) (csv : CSV) (colNames : StrVec)
  (numRows : nat) (rows : list CSVRow) : string :=
  match rows with
  | [] => ""
  | row :: rest =>
      (if Nat.eqb numRows 0 then showStrVec E colNames +:+ LF else "") +:+
      rowText csv colNames row +:+
      selectedText E csv colNames (S numRows) rest
  end.

(** The row after the assignments [columns[colNames[j]] = values[j]] made
    in the order of [colNames]. *)
Definition written (columns : StrVec) (colNames values : StrVec)
  (row : CSVRow) : CSVRow :=
  foldl (fun r cv => match find_index cv.1 columns with
                     | Some idx => <[idx := cv.2]> r
                     | None => r
                     end)
        row (zip colNames values).

(** What [updateQuery] makes of a row. *)
Definition updated (E : engine_env) (columns colNames values : StrVec)
  (whereColIdx : Z) (cond value : string) (row : CSVRow) : CSVRow :=
  if chosen E whereColIdx cond value row
  then written columns colNames values row
  else row.

(** Some call of [updateQuery] with these lists reads [values] past its
    end. *)
Definition reads_past_values (E : engine_env) (colNames values : StrVec)
  : Prop :=
  exists (mustWait : bool) (whereColIdx : Z) (cond value : string)
         (q : qstate) (i : nat),
    (updateQuery E mustWait colNames values whereColIdx cond value q).1
    = Undefined (ValuesIndex i).

(** The text the loop of [display] adds, started with delimiter [d]. *)
Fixpoint joined (d : string) (l : list string) : string :=
  match l with
  | [] => ""
  | x :: l' => d +:+ x +:+ joined TAB l'
  end.

(** What the counter says about the workers, at each point of the loop. *)
Definition counter_inv (maxThr : Z) (s : server) : Prop :=
  (numThreads (sql s) <= maxThr)%Z /\
  match acceptor s with
  | ALock | AEnterWait | AWait | ADetach => numThreads (sql s) = handling s
  | AAccept =>
      numThreads (sql s) = handling s /\ (numThreads (sql s) < maxThr)%Z
  | ASpawned =>
      (numThreads (sql s) + 1)%Z = handling s
      /\ (numThreads (sql s) < maxThr)%Z
  end.

(** Tables to run the queries on. *)
Definition abc_table : CSV :=
  mkCSV ["a"; "b"] [["1"; "x"]; ["2"; "y"]; ["3"; "x"]].

(** The computation [c] leaves the observation [f] of the state as it is,
    however it ends. *)
Definition preserves {S X A} (f : S -> X) (c : M S A) : Prop :=
  forall s, f (c s).2 = f s.

(** ** Vocabulary of the further statements *)

(** What a table keeps through every update: its column names and the
    number of fields of each of its rows, in order. *)
Definition shape (csv : CSV) : StrVec * list nat :=
  (getColumnNames csv, length <$> csvRows csv).

(** The computation only adds text at the end of the output stream. *)
Definition appends {A} (c : M qstate A) : Prop :=
  forall q, exists text, os (c q).2 = os q +:+ text.

(** A thread that executes, or waits to execute again, a select. *)
Definition selecting (t : thread) : Prop :=
  match at_pc t with
  | Enter (CSelect _ _ _ _ _) | InSelect _ _ _ _ _ _ _
  | InWait (CSelect _ _ _ _ _) | Woken (CSelect _ _ _ _ _)
  | Finished | Crashed _ => True
  | _ => False
  end.

(** Schedules of the accept loop: [n] connections accepted one after the
    other, the [n] workers ending one after the other, and the schedule in
    which all the workers end between the loop's test and its wait. *)
Definition accept_round : list label := [Acceptor; Acceptor; Acceptor; Acceptor].

Fixpoint fill (n : nat) : list label :=
  match n with
  | O => []
  | S n' => fill n' ++ accept_round
  end.

Fixpoint drain (n : nat) : list label :=
  match n with
  | O => []
  | S n' => drain n' ++ [Worker n'; Worker n']
  end.

Definition hang_schedule (n : nat) : list label :=
  fill n ++ [Acceptor] ++ drain n ++ [Acceptor].

(** A world with one local file, and one with a cached one-column table
    that [save_columns] and [load_strict] write and read back. *)
Definition world_with_file : world :=
  mkWorld ∅ "" 0 [] {["t.csv" := "a" +:+ LF]}.
Definition a_table : CSV := mkCSV ["a"] [].
Definition world_with_table : world :=
  mkWorld {["t.csv" := a_table]} "t.csv" 0 [] ∅.

(** Texts without a character of code [n], and without white space. *)
Fixpoint no_char (n : nat) (s : string) : bool :=
  match s with
  | EmptyString => true
  | String c s' => negb (Nat.eqb (Ascii.nat_of_ascii c) n) && no_char n s'
  end.

Fixpoint no_space (s : string) : bool :=
  match s with
  | EmptyString => true
  | String c s' => negb (isspace c) && no_space s'
  end.

(** Header lines, each ended by a line feed; a header line is not empty,
    is not a lone carriage return and contains no line feed. *)
Definition header_block (headers : list string) : string :=
  cat ((fun h => h +:+ LF) <$> headers).

Definition header_line (h : string) : Prop :=
  no_char 10 h = true /\ h <> "" /\ h <> CR.

(** Surroundings with one web server, which answers every path with
    [reply]. *)
Definition online (reply : string) : server_env :=
  mkServerEnv load_strict save_columns
              (fun url => ("host", "80", "/t.csv")) (fun s => s) (fun s => s)
              select_unknown_column (fun name => "file " +:+ name)
              (fun e => "exception")
              (fun host port => Some (fun path => reply))
              (fun name => true).

(** Surroundings whose [process] prints the query it is given. *)
Definition echo_env : server_env :=
  mkServerEnv load_strict save_columns
              (fun url => (url, "80", "/")) (fun s => s) (fun s => s)
              (fun request => emit request) (fun name => "file " +:+ name)
              (fun e => "exception") (fun host port => None)
              (fun name => true).

(** The system of [two_threads] when the select waits and the update has
    changed the row and is about to end. *)
Definition ready_to_notify : table_sys :=
  mkSys (mkCSV ["status"] [["done"]])
        [mkThread (InWait (CSelect true ["status"] 0 "=" "done")) "";
         mkThread (InUpdate false ["status"] ["done"] (-1) "" "" 1 1) ""]
        None.

(** The same when the update has set another value than the one the
    select waits for. *)
Definition stale_notify : table_sys :=
  mkSys (mkCSV ["status"] [["other"]])
        [mkThread (InWait (CSelect true ["status"] 0 "=" "done")) "";
         mkThread (InUpdate false ["status"] ["other"] (-1) "" "" 1 1) ""]
        None.

(** Two selects on one table. *)
Definition two_selects : table_sys :=
  mkSys abc_table
        [mkThread (Enter (CSelect false ["*"] (-1) "" "")) "";
         mkThread (Enter (CSelect true ["a"] 1 "=" "q")) ""]
        None.

(** The thread a query call ends as, when the call has the outcome [r]. *)
Definition thread_end (r : result status * qstate) : thread :=
  mkThread (match r.1 with
            | Ok st => (after st).1
            | Throw e => Crashed (inl e)
            | Undefined u => Crashed (inr u)
            end) (os r.2).

(** The thread a call made again after a wait ends as, when the call has
    the outcome [r]: to wait again the thread would lock [csvMutex], which
    it owns. *)
Definition thread_retried (r : result status * qstate) : thread :=
  match r.1 with
  | Ok (Waiting _) => mkThread (Crashed (inr MutexRelock)) (os r.2)
  | _ => thread_end r
  end.

(** The owner of [csvMutex] after the call that thread [j] made again as
    its owner: the mutex is free when the call returned or threw. *)
Definition mutex_after (j : nat) (r : result status * qstate) : option nat :=
  match r.1 with
  | Ok (Returned _) | Throw _ => None
  | _ => Some j
  end.

(** The steps in which thread [j] makes a whole pass over [csv]: it
    enters, handles every row, and leaves the loop. *)
Definition pass_of (j : nat) (csv : CSV) : list nat :=
  j :: replicate (length (csvRows csv)) j ++ [j].

(** The lines an unconditional select of [colNames] prints for the rows of
    [csv] after [updateQuery] has assigned [values] to these columns in
    the rows its [where] clause chose. *)
Definition linesAfterUpdate (E : engine_env) (csv : CSV)
  (colNames values : StrVec) (whereColIdx : Z) (cond value : string)
  : list string :=
  (fun row => if chosen E whereColIdx cond value row
              then String.concat TAB (take (length colNames) values) +:+ LF
              else rowText csv colNames row) <$> csvRows csv.

(** Thread [k] is an update that is over its loop and has changed a row:
    its next step prints the count and calls [notify_all]. *)
Definition update_ends (s : table_sys) (k : nat) : Prop :=
  exists mw cols vals w c v i n o,
    threads s !! k = Some (mkThread (InUpdate mw cols vals w c v i n) o)
    /\ length (csvRows (shared s)) <= i /\ 0 < n.

(** The move takes thread [j] out of a wait on the condition variable. *)
Definition wakes (s : table_sys) (m : move) (j : nat) : Prop :=
  m = WakeUp j \/ exists k, m = Run k /\ update_ends s k.

(** * Properties *)

(** ** Strings *)

Lemma append_cons (x : Ascii.ascii) (a b : string) :
  String x a +:+ b = String x (a +:+ b).
Proof. reflexivity. Qed.

Lemma append_assoc (a b c : string) : (a +:+ b) +:+ c = a +:+ (b +:+ c).
Proof.
  induction a as [|x a IH]; [reflexivity|].
  rewrite !append_cons. now f_equal.
Qed.

Lemma append_nil_r (a : string) : a +:+ "" = a.
Proof.
  induction a as [|x a IH]; [reflexivity|].
  rewrite append_cons. now f_equal.
Qed.

Lemma length_append (a b : string) :
  String.length (a +:+ b) = String.length a + String.length b.
Proof.
  induction a as [|x a IH]; [reflexivity|].
  rewrite append_cons. simpl. now f_equal.
Qed.

(** ** [insertQuery] and [deleteQuery] *)

(** C6: for every table, output stream and argument list, [insertQuery] and
    [deleteQuery] throw the exception with their fixed message; the table
    and the output stream are as before the call, and the call does not
    end in a wait. *)
Theorem insert_delete_unsupported :
  forall (q : qstate) (mustWait : bool) (colNames values : StrVec)
         (whereColIdx : Z) (cond value : string),
    insertQuery mustWait colNames values q
      = (Throw (Exp "insert is not yet implemented."), q)
    /\ deleteQuery mustWait whereColIdx cond value q
      = (Throw (Exp "delete is not yet implemented."), q)
    /\ (forall c, (insertQuery mustWait colNames values q).1 <> Ok (Waiting c))
    /\ (forall c, (deleteQuery mustWait whereColIdx cond value q).1
                  <> Ok (Waiting c)).
Proof.
  intros. unfold insertQuery, deleteQuery, throw. simpl.
  repeat split; intros; discriminate.
Qed.

(** ** [loadAndGet] and [saveQuery] *)

Section CacheFacts.

Variable X : server_env.

Lemma set_recentCSV_same (w : world) : set_recentCSV (recentCSV w) w = w.
Proof. now destruct w. Qed.

Lemma loadAndGet_unfold (fileOrURL : string) (w : world) :
  loadAndGet X fileOrURL w =
    let key := effective fileOrURL w in
    match inMemoryCSV w !! key with
    | Some _ => (Ok key, set_recentCSV key w)
    | None =>
        match loadCSV X (files w) key with
        | Ok csv =>
            (Ok key, set_inMemoryCSV (<[key := csv]> (inMemoryCSV w))
                                     (set_recentCSV key w))
        | Throw e => (Throw e, set_recentCSV key w)
        | Undefined u => (Undefined u, set_recentCSV key w)
        end
    end.
Proof.
  unfold loadAndGet, effective, bind, get, modify, lift, ret. simpl.
  destruct (inMemoryCSV w !! _) as [csv|]; [reflexivity|].
  destruct (loadCSV _ _ _) as [csv|e|u]; reflexivity.
Qed.

(** C1, as the code has it: when the identifier is not cached and the load
    throws, the exception reaches the caller and the mapping is the one
    before the call; the most-recently-used identifier is the identifier
    of the call (the previous one if the call gave the empty identifier),
    set before the load was tried. *)
Theorem loadAndGet_load_failure :
  forall (w : world) (fileOrURL : string) (e : exn),
    inMemoryCSV w !! effective fileOrURL w = None ->
    loadCSV X (files w) (effective fileOrURL w) = Throw e ->
    loadAndGet X fileOrURL w = (Throw e, set_recentCSV (effective fileOrURL w) w)
    /\ inMemoryCSV (loadAndGet X fileOrURL w).2 = inMemoryCSV w
    /\ recentCSV (loadAndGet X fileOrURL w).2 = effective fileOrURL w.
Proof.
  intros w f e Hnone Hload. rewrite loadAndGet_unfold. simpl.
  rewrite Hnone, Hload. auto.
Qed.



Lemma set_files_twice (f g : gmap string string) (w : world) :
  set_files f (set_files g w) = set_files f w.
Proof. reflexivity. Qed.


(** What [saveQuery] does for a cached local table whose file can be
    opened. *)
Lemma saveQuery_saves (w : world) (os : string) (csv : CSV) (text : string) :
  recentCSV w <> "" ->
  String.prefix "http://" (recentCSV w) = false ->
  inMemoryCSV w !! recentCSV w = Some csv ->
  can_open X (recentCSV w) = true ->
  csv_save X true csv = Ok text ->
  saveQuery X (w, os)
  = (Ok tt, (set_files (<[recentCSV w := text]> (files w)) w,
             os +:+ recentCSV w +:+ " saved." +:+ LF)).
Proof.
  intros Hne Hhttp Hin Hopen Hsave. apply String.eqb_neq in Hne.
  unfold saveQuery, bind, get, throw, on_world, modify, lift, map_at, emit.
  simpl. rewrite Hne, Hhttp. simpl.
  rewrite Hin, Hopen, Hsave. simpl.
  rewrite set_files_twice, insert_insert_eq. reflexivity.
Qed.

End CacheFacts.

(** Witness of [loadAndGet_load_failure]: a file that does not exist, with a
    [CSV::load] that refuses an unreadable stream. *)
Lemma loadAndGet_load_failure_witness :
  loadAndGet (offline load_strict) "missing.csv" world0
    = (Throw (Exp "Unable to read the CSV data"),
       set_recentCSV "missing.csv" world0)
  /\ inMemoryCSV (loadAndGet (offline load_strict) "missing.csv" world0).2
     = inMemoryCSV world0
  /\ recentCSV (loadAndGet (offline load_strict) "missing.csv" world0).2
     = "missing.csv".
Proof.
  apply (loadAndGet_load_failure (offline load_strict) world0 "missing.csv");
    reflexivity.
Defined.

(** C1 as stated fails: after the failed load of a file that is not cached,
    the mapping is unchanged but the most-recently-used identifier is the
    one of the failed call, not the one before the call. *)
Lemma loadAndGet_failure_moves_recent :
  inMemoryCSV world0 !! "missing.csv" = None
  /\ exists (e : exn) (w' : world),
       loadAndGet (offline load_strict) "missing.csv" world0 = (Throw e, w')
       /\ inMemoryCSV w' = inMemoryCSV world0
       /\ recentCSV w' <> recentCSV world0.
Proof.
  split; [reflexivity|].
  exists (Exp "Unable to read the CSV data"),
         (set_recentCSV "missing.csv" world0).
  split; [reflexivity|]. split; [reflexivity|]. discriminate.
Qed.




(** ** Streams *)

Lemma spanLine_line (l r : string) :
  no_char 10 l = true -> spanLine (l +:+ LF +:+ r) = (l, Some r).
Proof.
  induction l as [|c l IH]; intros Hl; [reflexivity|].
  simpl in Hl. apply andb_prop in Hl as [Hc Hl].
  apply negb_true_iff in Hc.
  rewrite append_cons. simpl. rewrite Hc, (IH Hl). reflexivity.
Qed.

Lemma spanLine_whole (l : string) :
  no_char 10 l = true -> spanLine l = (l, None).
Proof.
  induction l as [|c l IH]; intros Hl; [reflexivity|].
  simpl in Hl. apply andb_prop in Hl as [Hc Hl].
  apply negb_true_iff in Hc. simpl. rewrite Hc, (IH Hl). reflexivity.
Qed.

Lemma line_nonempty (l r : string) :
  exists c s, l +:+ LF +:+ r = String c s.
Proof. destruct l as [|c l]; [now eexists _, _ | now exists c, (l +:+ LF +:+ r)]. Qed.

Lemma getline_nonempty (c : Ascii.ascii) (s str : string) :
  getline (stream_of (String c s)) str
  = match spanLine (String c s) with
    | (l, Some r) => (stream_of r, l, true)
    | (l, None) => (mkStream "" true false, l, true)
    end.
Proof. reflexivity. Qed.

Lemma getline_line (l r str : string) :
  no_char 10 l = true ->
  getline (stream_of (l +:+ LF +:+ r)) str = (stream_of r, l, true).
Proof.
  intros Hl. destruct (line_nonempty l r) as (c & s & Heq).
  rewrite Heq, getline_nonempty, <- Heq.
  now rewrite (spanLine_line l r Hl).
Qed.

Lemma header_block_cons (h : string) (hs : list string) (rest : string) :
  header_block (h :: hs) +:+ rest = h +:+ LF +:+ header_block hs +:+ rest.
Proof. unfold header_block. simpl. now rewrite !append_assoc. Qed.

Lemma header_block_length (hs : list string) (rest : string) :
  length hs <= String.length (header_block hs +:+ rest).
Proof.
  induction hs as [|h hs IH]; [simpl; lia|].
  rewrite header_block_cons. rewrite !length_append in *. simpl length.
  change (String.length LF) with 1. lia.
Qed.

(** The header loop reads up to and including the first line that is
    empty or a lone carriage return, and leaves what follows it. *)
Lemma skipHeaders_block (hs : list string) (term body : string) :
  Forall header_line hs ->
  term = "" \/ term = CR ->
  forall fuel,
    length hs < fuel ->
    skipHeaders fuel (stream_of (header_block hs +:+ term +:+ LF +:+ body))
    = stream_of body.
Proof.
  intros Hhs Hterm. induction Hhs as [|h hs Hh Hhs IH]; intros fuel Hfuel.
  - destruct fuel as [|fuel]; [simpl in Hfuel; lia|].
    change (header_block [] +:+ term +:+ LF +:+ body)
      with (term +:+ LF +:+ body).
    simpl skipHeaders. rewrite getline_line by (destruct Hterm; now subst).
    destruct Hterm; subst; reflexivity.
  - destruct fuel as [|fuel]; [simpl in Hfuel; lia|].
    rewrite header_block_cons. destruct Hh as (Hlf & Hne & Hcr).
    simpl skipHeaders. rewrite (getline_line _ _ _ Hlf).
    apply String.eqb_neq in Hne, Hcr. rewrite Hne, Hcr. simpl.
    apply IH. simpl in Hfuel. lia.
Qed.

Lemma prefix_append (n b : string) : String.prefix n (n +:+ b) = true.
Proof.
  induction n as [|c n IH]; [now destruct b|].
  rewrite append_cons. simpl. now destruct (Ascii.ascii_dec c c).
Qed.

Lemma contains_cons (needle : string) (c : Ascii.ascii) (hay : string) :
  contains needle hay = true -> contains needle (String c hay) = true.
Proof. intros H. simpl. rewrite H. apply orb_true_r. Qed.

(** [contains] finds every occurrence. *)
Lemma contains_append (needle a b : string) :
  contains needle (a +:+ needle +:+ b) = true.
Proof.
  induction a as [|c a IH].
  - change ("" +:+ needle +:+ b) with (needle +:+ b).
    assert (Hunfold : forall h,
      contains needle h
      = String.prefix needle h
        || match h with String _ h' => contains needle h' | "" => false end)
      by (now destruct h).
    now rewrite Hunfold, prefix_append.
  - rewrite append_cons. now apply contains_cons.
Qed.

Lemma spanWord_word (p : string) (sp : Ascii.ascii) (r : string) :
  no_space p = true -> isspace sp = true ->
  spanWord (p +:+ String sp r) = (p, String sp r).
Proof.
  intros Hp Hsp. induction p as [|c p IH].
  - change ("" +:+ String sp r) with (String sp r). simpl. now rewrite Hsp.
  - simpl in Hp. apply andb_prop in Hp as [Hc Hp].
    apply negb_true_iff in Hc.
    rewrite append_cons. simpl. now rewrite Hc, (IH Hp).
Qed.

Lemma spanWord_whole (p : string) :
  no_space p = true -> spanWord p = (p, "").
Proof.
  induction p as [|c p IH]; intros Hp; [reflexivity|].
  simpl in Hp. apply andb_prop in Hp as [Hc Hp].
  apply negb_true_iff in Hc. simpl. now rewrite Hc, (IH Hp).
Qed.

Lemma skipws_word (p r : string) :
  p <> "" -> no_space p = true -> skipws (p +:+ r) = p +:+ r.
Proof.
  intros Hne Hp. destruct p as [|c p]; [congruence|].
  simpl in Hp. apply andb_prop in Hp as [Hc Hp].
  apply negb_true_iff in Hc. rewrite append_cons. simpl. now rewrite Hc.
Qed.

(** [data >> str] on a readable stream whose text has a word. *)
Lemma extract_good (b : string) (c : Ascii.ascii) (s str : string) :
  skipws b = String c s ->
  extract (stream_of b) str
  = (mkStream (spanWord (String c s)).2
              (if String.eqb (spanWord (String c s)).2 "" then true else false)
              false,
     (spanWord (String c s)).1).
Proof.
  intros H. unfold extract, stream_of. simpl good. cbv iota. simpl buf.
  rewrite H. now destruct (spanWord (String c s)).
Qed.

Lemma extract_word (p : string) (sp : Ascii.ascii) (r str : string) :
  p <> "" -> no_space p = true -> isspace sp = true ->
  extract (stream_of (p +:+ String sp r)) str = (stream_of (String sp r), p).
Proof.
  intros Hne Hp Hsp. pose proof (skipws_word p (String sp r) Hne Hp) as Hskip.
  destruct p as [|c p]; [congruence|]. rewrite append_cons in Hskip |- *.
  rewrite (extract_good _ c _ str Hskip).
  rewrite <- append_cons, (spanWord_word _ _ _ Hp Hsp). reflexivity.
Qed.

Lemma skipws_space (sp : Ascii.ascii) (r : string) :
  isspace sp = true -> skipws (String sp r) = skipws r.
Proof. intros H. simpl. now rewrite H. Qed.

(** The request of a line [method path rest] is its second word. *)
Lemma requestOf_line (method path rest : string) :
  method <> "" -> no_space method = true ->
  path <> "" -> no_space path = true ->
  requestOf (stream_of (method +:+ " " +:+ path +:+ " " +:+ rest)) = path.
Proof.
  intros Hm1 Hm2 Hp1 Hp2. unfold requestOf.
  set (sp := Ascii.ascii_of_nat 32).
  change (" " +:+ path +:+ " " +:+ rest)
    with (String sp (path +:+ String sp rest)).
  rewrite (extract_word method sp _ "" Hm1 Hm2 eq_refl). simpl fst. simpl snd.
  assert (Hskip : skipws (String sp (path +:+ String sp rest))
                  = path +:+ String sp rest).
  { rewrite (skipws_space sp _ eq_refl). now apply skipws_word. }
  destruct path as [|c path]; [congruence|]. rewrite append_cons in Hskip |- *.
  rewrite (extract_good _ c _ method Hskip).
  rewrite <- append_cons, (spanWord_word _ sp rest Hp2 eq_refl). reflexivity.
Qed.

Lemma skipws_blank_cons (sp : Ascii.ascii) (t : string) :
  skipws (String sp t) = "" -> isspace sp = true /\ skipws t = "".
Proof.
  simpl. destruct (isspace sp); [now split|discriminate].
Qed.

(** The request of a text that holds one word only is that word. *)
Lemma requestOf_single_word (word blank : string) :
  word <> "" -> no_space word = true -> skipws blank = "" ->
  requestOf (stream_of (word +:+ blank)) = word.
Proof.
  intros Hw1 Hw2 Hblank. unfold requestOf.
  destruct blank as [|sp t].
  - rewrite append_nil_r.
    assert (Hskip : skipws word = word).
    { rewrite <- (append_nil_r word). now apply skipws_word. }
    destruct word as [|c word]; [congruence|].
    rewrite (extract_good _ c _ "" Hskip), (spanWord_whole _ Hw2).
    reflexivity.
  - apply skipws_blank_cons in Hblank as Hsp. destruct Hsp as [Hsp Ht].
    rewrite (extract_word word sp t "" Hw1 Hw2 Hsp). simpl fst. simpl snd.
    unfold extract, stream_of. simpl good. cbv iota. simpl buf.
    now rewrite Hblank.
Qed.

(** Nothing can be extracted from a text of white space only. *)
Lemma requestOf_blank (blank : string) :
  skipws blank = "" -> requestOf (stream_of blank) = "".
Proof.
  intros Hblank. unfold requestOf, extract, stream_of. simpl.
  now rewrite Hblank.
Qed.

Lemma no_space_append (a b : string) :
  no_space a = true -> no_space b = true -> no_space (a +:+ b) = true.
Proof.
  intros Ha Hb. induction a as [|c a IH]; [exact Hb|].
  simpl in Ha. apply andb_prop in Ha as [Hc Ha].
  rewrite append_cons. simpl. now rewrite Hc, IH.
Qed.

(** A request line and header lines up to an empty line leave the stream
    good, at the start of what follows the empty line. *)
Lemma afterHeaders_request (method path line : string)
  (headers : list string) (term body : string) :
  method <> "" -> no_space method = true ->
  path <> "" -> no_space path = true ->
  no_char 10 line = true ->
  Forall header_line headers ->
  term = "" \/ term = CR ->
  afterHeaders
    (stream_of (method +:+ " " +:+ path +:+ " " +:+ line +:+ LF +:+
                header_block headers +:+ term +:+ LF +:+ body))
  = stream_of body.
Proof.
  intros Hm1 Hm2 Hp1 Hp2 Hline Hhs Hterm. unfold afterHeaders.
  set (sp := Ascii.ascii_of_nat 32).
  set (rest := line +:+ LF +:+ header_block headers +:+ term +:+ LF +:+ body).
  change (" " +:+ path +:+ " " +:+ rest)
    with (String sp (path +:+ String sp rest)).
  rewrite (extract_word method sp _ "" Hm1 Hm2 eq_refl). simpl fst. simpl snd.
  assert (Hskip : skipws (String sp (path +:+ String sp rest))
                  = path +:+ String sp rest).
  { rewrite (skipws_space sp _ eq_refl). now apply skipws_word. }
  assert (Hsecond : extract (stream_of (String sp (path +:+ String sp rest)))
                            method
                    = (stream_of (String sp rest), path)).
  { destruct path as [|c path]; [congruence|].
    rewrite append_cons in Hskip |- *.
    rewrite (extract_good _ c _ method Hskip).
    rewrite <- append_cons, (spanWord_word _ sp rest Hp2 eq_refl).
    reflexivity. }
  rewrite Hsecond. simpl fst.
  assert (Hform : String sp rest
                  = header_block (String sp line :: headers) +:+
                    term +:+ LF +:+ body).
  { rewrite header_block_cons. subst rest. now rewrite append_cons. }
  rewrite Hform. apply skipHeaders_block; [|exact Hterm|].
  - constructor; [|exact Hhs]. split; [exact Hline|]. split; discriminate.
  - pose proof (header_block_length (String sp line :: headers)
                  (term +:+ LF +:+ body)).
    unfold stream_of. simpl buf. lia.
Qed.

(** The header loop does not make a stream good. *)
Lemma skipHeaders_not_good (fuel : nat) (data : istream) :
  good data = false -> good (skipHeaders (S fuel) data) = false.
Proof.
  intros Hbad. simpl. unfold getline. rewrite Hbad. simpl.
  unfold good. simpl. apply andb_false_r.
Qed.

(** After a text of one word, or of none, the stream is not good. *)
Lemma afterHeaders_short (word blank : string) :
  no_space word = true -> skipws blank = "" ->
  good (afterHeaders (stream_of (word +:+ blank))) = false.
Proof.
  intros Hw Hblank. unfold afterHeaders. apply skipHeaders_not_good.
  destruct word as [|c word].
  - change ("" +:+ blank) with blank.
    unfold extract at 2 3. unfold stream_of at 1 2. simpl good. cbv iota.
    simpl buf. rewrite Hblank. simpl fst. simpl snd.
    unfold extract. reflexivity.
  - assert (Hne : String c word <> "") by discriminate.
    destruct blank as [|sp t].
    + rewrite append_nil_r.
      assert (Hskip : skipws (String c word) = String c word).
      { rewrite <- (append_nil_r (String c word)). now apply skipws_word. }
      rewrite (extract_good _ c _ "" Hskip), (spanWord_whole _ Hw).
      reflexivity.
    + apply skipws_blank_cons in Hblank as Hsp. destruct Hsp as [Hsp Ht].
      rewrite (extract_word (String c word) sp t "" Hne Hw Hsp).
      simpl fst. simpl snd.
      unfold extract, stream_of. simpl good. cbv iota. simpl buf.
      now rewrite Hsp, Ht.
Qed.

(** ** [clientThread] *)

Section WorkerFacts.

Variable X : server_env.

Lemma query_prefix (q : string) :
  String.prefix "/sql-air?query=" ("/sql-air?query=" +:+ q) = true
  /\ substr 15 ("/sql-air?query=" +:+ q) = q.
Proof. split; [destruct q|]; reflexivity. Qed.

(** [clientThread] in terms of the request it extracts and of the state
    it leaves the client's stream in. *)
Lemma clientThread_request (client : istream) (w : world) :
  clientThread X client w
  = bind (if String.prefix "/sql-air?query=" (requestOf client)
          then (let* os := runQuery X (url_decode X (substr 15 (requestOf client)))
                in ret (HTTPRespHeader +:+ pretty (String.length os) +:+
                        CRLF +:+ CRLF +:+ os))
          else if negb (String.eqb (requestOf client) "")
               then ret (http_file X (substr 1 (requestOf client)))
               else ret "")
         (fun response =>
            releaseSlot ;;; ret (send (afterHeaders client) response)) w.
Proof.
  unfold clientThread, requestOf, afterHeaders.
  destruct (extract client "") as [c1 r1]. simpl.
  destruct (extract c1 r1) as [c2 r2]. reflexivity.
Qed.


End WorkerFacts.



(** ** [runServer] *)

Section AcceptLoop.

Variable maxThr : Z.

Lemma handling_cons (sq : world) (a : apc) (p : wpc) (ws : list wpc) :
  handling (mkServer sq a (p :: ws))
  = (Z.of_nat (isHandling p) + handling (mkServer sq a ws))%Z.
Proof.
  unfold handling. simpl. rewrite filter_cons.
  destruct p; simpl; lia.
Qed.

Lemma handling_app (sq : world) (a : apc) (ws vs : list wpc) :
  handling (mkServer sq a (ws ++ vs))
  = (handling (mkServer sq a ws) + handling (mkServer sq a vs))%Z.
Proof.
  unfold handling. simpl. rewrite filter_app, length_app. lia.
Qed.

Lemma handling_insert (sq : world) (a : apc) (ws : list wpc) (k : nat)
  (p p' : wpc) :
  ws !! k = Some p ->
  (handling (mkServer sq a (<[k := p']> ws)) + Z.of_nat (isHandling p)
   = handling (mkServer sq a ws) + Z.of_nat (isHandling p'))%Z.
Proof.
  revert k. induction ws as [|x ws IH]; intros k Hk; [discriminate|].
  destruct k as [|k]; simpl in *.
  - injection Hk as ->. rewrite !handling_cons. lia.
  - rewrite !handling_cons. specialize (IH k Hk). lia.
Qed.

Lemma handling_workers (sq : world) (a : apc) (s : server) :
  handling (mkServer sq a (workers s)) = handling s.
Proof. reflexivity. Qed.

Lemma handling_sql (sq sq' : world) (a a' : apc) (ws : list wpc) :
  handling (mkServer sq a ws) = handling (mkServer sq' a' ws).
Proof. reflexivity. Qed.

Lemma checkCapacity_inv (s : server) :
  (numThreads (sql s) <= maxThr)%Z ->
  numThreads (sql s) = handling s ->
  counter_inv maxThr (checkCapacity maxThr s).
Proof.
  intros Hle Heq. unfold checkCapacity, counter_inv.
  destruct (Z.ltb_spec (numThreads (sql s)) maxThr); simpl; auto.
Qed.

Lemma acceptor_step_inv (s : server) :
  counter_inv maxThr s -> counter_inv maxThr (acceptor_step maxThr s).
Proof.
  intros [Hle Hpc]. unfold acceptor_step.
  destruct (acceptor s) eqn:Ha.
  - now apply checkCapacity_inv.
  - split; simpl; [exact Hle|]. now rewrite handling_workers.
  - case_decide; [now split; [|rewrite Ha] | now apply checkCapacity_inv].
  - destruct Hpc as [Heq Hlt]. split; simpl; [lia|].
    rewrite handling_app, handling_workers. unfold handling at 2. simpl. lia.
  - destruct Hpc as [Heq Hlt]. split; simpl; [lia|].
    now rewrite handling_workers.
  - split; simpl; [lia|]. now rewrite handling_workers.
Qed.

Lemma worker_step_inv (k : nat) (s : server) :
  counter_inv maxThr s -> counter_inv maxThr (worker_step k s).
Proof.
  intros [Hle Hpc]. unfold worker_step.
  destruct (workers s !! k) as [[| |]|] eqn:Hk; try (now split).
  - pose proof (handling_insert (sql s) (acceptor s) _ _ _ WDecremented Hk)
      as Hins.
    rewrite handling_workers in Hins.
    simpl in Hins. unfold counter_inv. simpl.
    rewrite (handling_sql (decrementThreads (sql s)) (sql s) _ (acceptor s)).
    split; [lia|]. destruct (acceptor s); lia.
  - pose proof (handling_insert (sql s) (acceptor s) _ _ _ WExited Hk)
      as Hins.
    rewrite handling_workers in Hins.
    simpl in Hins. unfold counter_inv. simpl.
    rewrite (handling_sql (notifyThread (sql s)) (sql s) _ (acceptor s)).
    split; [lia|]. destruct (acceptor s); lia.
Qed.

Lemma server_step_inv (l : label) (s : server) :
  counter_inv maxThr s -> counter_inv maxThr (server_step maxThr s l).
Proof.
  destruct l; simpl.
  - apply acceptor_step_inv.
  - apply worker_step_inv.
  - intros H. exact H.
Qed.

Lemma server_run_inv (sched : list label) (s : server) :
  counter_inv maxThr s -> counter_inv maxThr (server_run maxThr sched s).
Proof.
  revert s. induction sched as [|l sched IH]; intros s H; [exact H|].
  simpl. apply IH, server_step_inv, H.
Qed.

(** The two steps of a worker that ends are the end of [clientThread]. *)
Lemma worker_steps_release (k : nat) (s : server) :
  workers s !! k = Some WHandling ->
  releaseSlot (sql s)
  = (Ok tt, sql (worker_step k (worker_step k s))).
Proof.
  intros Hk. unfold worker_step at 2. rewrite Hk.
  unfold worker_step. simpl.
  rewrite list_lookup_insert_eq by (eapply lookup_lt_Some, Hk).
  reflexivity.
Qed.




End AcceptLoop.



(** ** The table's condition variable *)

(** C3 fails on the code.  One row [pending]; thread 0 is a select with
    [mustWait] for [status = done], thread 1 the update that sets [done].
    The select enters and finds no row; the update then runs to its end:
    it changes the row and calls [notify_all] while nobody waits; only then
    does the select call [wait].  The row matches, the update is over, and
    no schedule of the two threads makes the select return: it stays
    blocked until some other update notifies, or the condition variable
    wakes it by itself. *)
Theorem select_misses_wakeup :
  forall (E : engine_env),
    matches E "pending" "=" "done" = false ->
    matches E "done" "=" "done" = true ->
    let s := table_run E [0; 0; 1; 1; 1; 0] two_threads in
    shared s = mkCSV ["status"] [["done"]]
    /\ threads s
       = [mkThread (InWait (CSelect true ["status"] 0 "=" "done")) "";
          mkThread Finished ("1 row(s) updated." +:+ LF)]
    /\ rowMatches E ["done"] 0 "=" "done" = Ok true
    /\ forall sched, table_run E sched s = s.
Proof.
  intros E Hpending Hdone.
  assert (Hrow : selectRow E ["status"] 0 "=" "done" 0 0 (mkQ status_table "")
                 = (Ok 0, mkQ status_table "")).
  { unfold selectRow, currentRow, bind, get, lift, index, rowMatches, at_.
    simpl. rewrite Hpending. reflexivity. }
  assert (Henter : table_step E two_threads 0
    = mkSys status_table
        [mkThread (InSelect true ["status"] 0 "=" "done" 0 0) "";
         mkThread (Enter set_done) ""] None).
  { vm_compute. reflexivity. }
  assert (Hscan : table_step E (table_step E two_threads 0) 0
    = mkSys status_table
        [mkThread (InSelect true ["status"] 0 "=" "done" 1 0) "";
         mkThread (Enter set_done) ""] None).
  { rewrite Henter. unfold table_step, thread_step, advance.
    cbn -[selectRow status_table].
    change (csvRows status_table) with [["pending"]].
    cbn -[selectRow status_table]. rewrite Hrow. reflexivity. }
  assert (Hrun : table_run E [0; 0; 1; 1; 1; 0] two_threads
    = mkSys (mkCSV ["status"] [["done"]])
        [mkThread (InWait (CSelect true ["status"] 0 "=" "done")) "";
         mkThread Finished ("1 row(s) updated." +:+ LF)] None).
  { unfold table_run. simpl foldl. rewrite Hscan. vm_compute. reflexivity. }
  intros s. subst s. rewrite Hrun. repeat split.
  - unfold rowMatches, at_. simpl. now rewrite Hdone.
  - induction sched as [|k sched IH]; [reflexivity|].
    simpl. destruct k as [|[|k]]; exact IH.
Qed.

(** Witness of [select_misses_wakeup], with a comparator that tests for
    equality. *)
Lemma select_misses_wakeup_witness :
  let s := table_run eq_engine [0; 0; 1; 1; 1; 0] two_threads in
  shared s = mkCSV ["status"] [["done"]]
  /\ threads s
     = [mkThread (InWait (CSelect true ["status"] 0 "=" "done")) "";
        mkThread Finished ("1 row(s) updated." +:+ LF)]
  /\ rowMatches eq_engine ["done"] 0 "=" "done" = Ok true
  /\ forall sched, table_run eq_engine sched s = s.
Proof. apply (select_misses_wakeup eq_engine); reflexivity. Defined.

(** When the select is already waiting at the time of the update, the
    [notify_all] wakes it: it locks [csvMutex] again, runs again from the
    start, returns the row and leaves the mutex free. *)
Lemma select_woken_when_waiting :
  table_run eq_engine [0; 0; 0; 1; 1; 1; 0; 0; 0; 0] two_threads
  = mkSys (mkCSV ["status"] [["done"]])
      [mkThread Finished ("status" +:+ LF +:+ "done" +:+ LF +:+
                          "1 row(s) selected." +:+ LF);
       mkThread Finished ("1 row(s) updated." +:+ LF)] None.
Proof. vm_compute. reflexivity. Qed.

(** ** [display] and [selectQuery] *)

Lemma find_index_Some (c : string) (l : list string) (i : nat) :
  find_index c l = Some i -> l !! i = Some c.
Proof.
  revert i. induction l as [|y l IH]; intros i H; simpl in H; [discriminate|].
  destruct (String.eqb_spec y c) as [->|Hne].
  - now injection H as <-.
  - destruct (find_index c l) as [j|]; [|discriminate].
    injection H as <-. now apply IH.
Qed.

Lemma find_index_elem (c : string) (l : list string) :
  c ∈ l -> exists i, find_index c l = Some i.
Proof.
  induction l as [|y l IH]; intros H; [now apply elem_of_nil in H|].
  simpl. destruct (String.eqb_spec y c) as [->|Hne]; [now exists 0|].
  apply elem_of_cons in H as [->|H]; [congruence|].
  destruct (IH H) as [i ->]. now exists (S i).
Qed.

Lemma find_index_NoDup (c : string) (l : list string) (i : nat) :
  NoDup l -> l !! i = Some c -> find_index c l = Some i.
Proof.
  intros Hnd. revert i. induction Hnd as [|y l Hy Hnd IH]; intros i H;
    [discriminate|].
  simpl. destruct i as [|i]; simpl in H.
  - injection H as ->. now rewrite String.eqb_refl.
  - destruct (String.eqb_spec y c) as [->|Hne].
    + exfalso. apply Hy. eapply list_elem_of_lookup_2, H.
    + now rewrite (IH i H).
Qed.

Lemma at_lookup {A} (v : list A) (i : nat) (x : A) :
  v !! i = Some x -> at_ v (Z.of_nat i) = Ok x.
Proof.
  intros H. unfold at_.
  destruct (Z.ltb_spec (Z.of_nat i) 0); [lia|].
  now rewrite Nat2Z.id, H.
Qed.

(** With all the selected columns present, the full row is projected on
    itself. *)
Lemma project_all (csv : CSV) (row : CSVRow) :
  NoDup (getColumnNames csv) ->
  length row = length (getColumnNames csv) ->
  project csv row (getColumnNames csv) = row.
Proof.
  intros Hnd Hlen. apply list_eq. intros i. unfold project.
  rewrite list_lookup_fmap.
  destruct (getColumnNames csv !! i) as [c|] eqn:Hc; simpl.
  - rewrite (find_index_NoDup _ _ _ Hnd Hc).
    destruct (row !! i) as [x|] eqn:Hx; [reflexivity|].
    apply lookup_ge_None in Hx. apply lookup_lt_Some in Hc. lia.
  - apply lookup_ge_None in Hc. symmetry. apply lookup_ge_None. lia.
Qed.

Section SelectFacts.

Variable E : engine_env.

Lemma joined_concat (l : list string) : joined "" l = String.concat TAB l.
Proof.
  destruct l as [|x l]; [reflexivity|]. simpl joined.
  change ("" +:+ x +:+ joined TAB l) with (x +:+ joined TAB l).
  revert x. induction l as [|y l IH]; intros x.
  - simpl. apply append_nil_r.
  - change (String.concat TAB (x :: y :: l))
      with (x +:+ TAB +:+ String.concat TAB (y :: l)).
    rewrite <- IH. reflexivity.
Qed.

Lemma displayCols_ok (csv : CSV) (row : CSVRow) (colNames : StrVec)
  (d o : string) :
  valid_columns csv colNames ->
  length row = length (getColumnNames csv) ->
  displayCols row colNames d (mkQ csv o)
  = (Ok tt, mkQ csv (o +:+ joined d (project csv row colNames))).
Proof.
  intros Hcols Hlen. revert d o.
  induction Hcols as [|c cols Hc Hcols IH]; intros d o.
  - simpl. unfold ret. now rewrite append_nil_r.
  - destruct (find_index_elem _ _ Hc) as [i Hi].
    pose proof (find_index_Some _ _ _ Hi) as Hlook.
    destruct (row !! i) as [x|] eqn:Hx.
    2:{ apply lookup_ge_None in Hx. apply lookup_lt_Some in Hlook. lia. }
    unfold project. rewrite fmap_cons, Hi, Hx. fold (project csv row cols).
    simpl displayCols.
    unfold bind, put, modify, get, lift, getColumnIndex. simpl.
    rewrite Hi, (at_lookup _ _ _ Hx). rewrite IH.
    simpl. now rewrite !append_assoc.
Qed.

Lemma display_ok (csv : CSV) (row : CSVRow) (colNames : StrVec)
  (numRows : nat) (o : string) :
  valid_columns csv colNames ->
  length row = length (getColumnNames csv) ->
  display E row colNames numRows (mkQ csv o)
  = (Ok tt,
     mkQ csv (o +:+ (if Nat.eqb numRows 1
                     then showStrVec E colNames +:+ LF else "") +:+
              rowText csv colNames row)).
Proof.
  intros Hcols Hlen. unfold display, rowText.
  destruct (Nat.eqb numRows 1).
  - unfold bind, put, endl, put, modify. simpl.
    rewrite (displayCols_ok _ _ _ _ _ Hcols Hlen). simpl.
    now rewrite joined_concat, !append_assoc.
  - unfold bind, ret. simpl.
    rewrite (displayCols_ok _ _ _ _ _ Hcols Hlen). simpl.
    unfold endl, put, modify. simpl.
    now rewrite joined_concat, !append_assoc.
Qed.

Lemma rowMatches_ok (csv : CSV) (row : CSVRow) (w : Z) (c v : string) :
  valid_where csv w ->
  length row = length (getColumnNames csv) ->
  rowMatches E row w c v = Ok (chosen E w c v row).
Proof.
  intros Hw Hlen. unfold chosen, rowMatches.
  destruct (Z.eqb_spec w (-1)) as [->|Hne]; [reflexivity|].
  destruct Hw as [->|Hw]; [congruence|].
  unfold at_. destruct (Z.ltb_spec w 0); [lia|].
  destruct (row !! Z.to_nat w) as [x|] eqn:Hx; [reflexivity|].
  apply lookup_ge_None in Hx. lia.
Qed.

Lemma selectRow_ok (csv : CSV) (colNames : StrVec) (w : Z) (c v : string)
  (i numRows : nat) (row : CSVRow) (o : string) :
  valid_columns csv colNames ->
  valid_where csv w ->
  length row = length (getColumnNames csv) ->
  csvRows csv !! i = Some row ->
  selectRow E colNames w c v i numRows (mkQ csv o)
  = if chosen E w c v row
    then (Ok (S numRows),
          mkQ csv (o +:+ (if Nat.eqb numRows 0
                          then showStrVec E colNames +:+ LF else "") +:+
                   rowText csv colNames row))
    else (Ok numRows, mkQ csv o).
Proof.
  intros Hcols Hw Hlen Hrow.
  unfold selectRow, currentRow, index, bind, get, lift. simpl.
  rewrite Hrow, (rowMatches_ok csv _ _ _ _ Hw Hlen).
  destruct (chosen E w c v row); [|reflexivity].
  rewrite (display_ok _ _ _ _ _ Hcols Hlen). reflexivity.
Qed.

Lemma drop_cons_inv {A} (l : list A) (i : nat) (x : A) (r : list A) :
  drop i l = x :: r -> l !! i = Some x /\ drop (S i) l = r.
Proof.
  intros H. split.
  - rewrite <- (Nat.add_0_r i), <- lookup_drop, H. reflexivity.
  - replace (S i) with (i + 1) by lia. rewrite <- drop_drop, H. reflexivity.
Qed.

Lemma forRows_select (csv : CSV) (colNames : StrVec) (w : Z) (c v : string)
  (rs : list CSVRow) :
  valid_columns csv colNames ->
  valid_where csv w ->
  well_formed csv ->
  forall (i numRows : nat) (o : string),
    drop i (csvRows csv) = rs ->
    forRows (selectRow E colNames w c v) (length rs) i numRows (mkQ csv o)
    = (Ok (numRows + length (List.filter (chosen E w c v) rs)),
       mkQ csv (o +:+ selectedText E csv colNames numRows
                        (List.filter (chosen E w c v) rs))).
Proof.
  intros Hcols Hw Hwf.
  induction rs as [|r rs IH]; intros i n o Hdrop.
  - simpl. unfold ret. now rewrite append_nil_r, Nat.add_0_r.
  - apply drop_cons_inv in Hdrop as [Hrow Hdrop].
    assert (Hlen : length r = length (getColumnNames csv)).
    { unfold well_formed in Hwf. rewrite Forall_forall in Hwf.
      apply Hwf. eapply list_elem_of_lookup_2, Hrow. }
    simpl forRows. unfold bind at 1.
    rewrite (selectRow_ok _ _ _ _ _ _ _ _ _ Hcols Hw Hlen Hrow).
    simpl List.filter. destruct (chosen E w c v r).
    + rewrite (IH _ _ _ Hdrop). simpl length. simpl selectedText.
      rewrite !append_assoc. f_equal. f_equal. lia.
    + apply (IH _ _ _ Hdrop).
Qed.

Lemma selectedText_later (csv : CSV) (colNames : StrVec) (n : nat)
  (rows : list CSVRow) :
  selectedText E csv colNames (S n) rows = cat (rowText csv colNames <$> rows).
Proof.
  revert n. induction rows as [|r rows IH]; intros n; [reflexivity|].
  simpl. now rewrite IH.
Qed.

Lemma expandStar_ok (csv : CSV) (colNames : StrVec) (o : string) :
  colNames <> [] ->
  expandStar colNames (mkQ csv o) = (Ok (expanded csv colNames), mkQ csv o).
Proof. intros H. destruct colNames as [|c0 cols]; [congruence|reflexivity]. Qed.

(** The whole of [selectQuery] on a well-formed table and a query that
    names existing columns. *)
Lemma selectQuery_ok (csv : CSV) (mustWait : bool) (colNames : StrVec)
  (w : Z) (c v : string) (o : string) :
  colNames <> [] ->
  well_formed csv ->
  valid_columns csv (expanded csv colNames) ->
  valid_where csv w ->
  let ms := List.filter (chosen E w c v) (csvRows csv) in
  selectQuery E mustWait colNames w c v (mkQ csv o)
  = if mustWait && Nat.eqb (length ms) 0
    then (Ok (Waiting (CSelect mustWait (expanded csv colNames) w c v)),
          mkQ csv (o +:+ selectedText E csv (expanded csv colNames) 0 ms))
    else (Ok (Returned false),
          mkQ csv (o +:+ selectedText E csv (expanded csv colNames) 0 ms +:+
                   pretty (length ms) +:+ " row(s) selected." +:+ LF)).
Proof.
  intros Hne Hwf Hcols Hw ms. unfold selectQuery.
  unfold bind at 1. rewrite (expandStar_ok _ _ _ Hne).
  unfold bind at 1. unfold get at 1.
  unfold bind at 1. simpl tbl.
  rewrite (forRows_select csv _ w c v (csvRows csv) Hcols Hw Hwf 0 0 o eq_refl).
  fold ms. simpl Nat.add. unfold selectFinish.
  destruct (mustWait && Nat.eqb (length ms) 0); [reflexivity|].
  unfold bind, put, endl, put, modify, ret. simpl.
  now rewrite !append_assoc.
Qed.

(** C9: the header line is printed once, immediately before the line of
    the first chosen row, the later chosen rows follow without a header,
    and no header is printed when no row is chosen: then a select with
    [mustWait] prints nothing at all before it waits, and one without
    prints only the count. *)
Theorem header_printed_once :
  forall (csv : CSV) (mustWait : bool) (colNames : StrVec) (w : Z)
         (c v : string) (o : string),
    colNames <> [] ->
    well_formed csv ->
    valid_columns csv (expanded csv colNames) ->
    valid_where csv w ->
    selectQuery E mustWait colNames w c v (mkQ csv o)
    = match List.filter (chosen E w c v) (csvRows csv) with
      | [] =>
          if mustWait
          then (Ok (Waiting (CSelect mustWait (expanded csv colNames) w c v)),
                mkQ csv o)
          else (Ok (Returned false),
                mkQ csv (o +:+ "0 row(s) selected." +:+ LF))
      | first :: rest =>
          (Ok (Returned false),
           mkQ csv (o +:+ showStrVec E (expanded csv colNames) +:+ LF +:+
                    rowText csv (expanded csv colNames) first +:+
                    cat (rowText csv (expanded csv colNames) <$> rest) +:+
                    pretty (S (length rest)) +:+ " row(s) selected." +:+ LF))
      end.
Proof.
  intros csv mw cols w c v o Hne Hwf Hcols Hw.
  rewrite (selectQuery_ok _ _ _ _ _ _ _ Hne Hwf Hcols Hw). simpl.
  destruct (List.filter (chosen E w c v) (csvRows csv)) as [|r rest].
  - simpl. destruct mw; simpl; [now rewrite append_nil_r | reflexivity].
  - simpl length. simpl Nat.eqb. rewrite andb_false_r.
    simpl selectedText. rewrite selectedText_later.
    now rewrite !append_assoc.
Qed.

Lemma filter_all_chosen (c v : string) (rows : list CSVRow) :
  List.filter (chosen E (-1) c v) rows = rows.
Proof.
  induction rows as [|r rows IH]; [reflexivity|].
  assert (H : chosen E (-1) c v r = true) by reflexivity.
  cbn [List.filter]. now rewrite H, IH.
Qed.

Lemma find_index_first (c : string) (l : list string) (i : nat) :
  l !! i = Some c -> exists k, find_index c l = Some k /\ k <= i.
Proof.
  revert i. induction l as [|y l IH]; intros i H; [discriminate|].
  simpl. destruct (String.eqb_spec y c) as [->|Hne].
  - exists 0. split; [reflexivity|lia].
  - destruct i as [|i]; simpl in H; [congruence|].
    destruct (IH i H) as (k & -> & Hk). exists (S k). split; [reflexivity|lia].
Qed.

(** C7: on a table whose rows have one field per column, a select without
    [mustWait], without condition and with the column list [*] returns
    normally, leaves the table as it is and prints, after the header if
    there is a row, one line for every row, in the order of the table,
    then the number of rows; for no row it prints the count [0].  The line
    of a row has one field for every column: the field of the row at the
    first position that has the column's name.  With distinct column
    names the line is the row itself. *)
Theorem select_star_prints_all_rows :
  forall (csv : CSV) (c v : string) (o : string),
    well_formed csv ->
    selectQuery E false ["*"] (-1) c v (mkQ csv o)
    = (Ok (Returned false),
       mkQ csv (o +:+
                match csvRows csv with
                | [] => ""
                | _ => showStrVec E (getColumnNames csv) +:+ LF
                end +:+
                cat (rowText csv (getColumnNames csv) <$> csvRows csv)
                +:+ pretty (length (csvRows csv)) +:+ " row(s) selected."
                +:+ LF))
    /\ (forall (row : CSVRow) (i : nat) (name : string),
          row ∈ csvRows csv ->
          getColumnNames csv !! i = Some name ->
          exists (k : nat) (x : string),
            find_index name (getColumnNames csv) = Some k /\ k <= i
            /\ row !! k = Some x
            /\ project csv row (getColumnNames csv) !! i = Some x)
    /\ (NoDup (getColumnNames csv) ->
        rowText csv (getColumnNames csv) <$> csvRows csv
        = (fun row => String.concat TAB row +:+ LF) <$> csvRows csv).
Proof.
  intros csv c v o Hwf.
  assert (Hcols : valid_columns csv (expanded csv ["*"])).
  { unfold valid_columns. simpl. now apply Forall_forall. }
  split; [|split].
  - rewrite (selectQuery_ok csv false ["*"] (-1) c v o
               ltac:(discriminate) Hwf Hcols ltac:(now left)).
    simpl. rewrite filter_all_chosen.
    destruct (csvRows csv) as [|r rows] eqn:Hrows; [reflexivity|].
    simpl selectedText. rewrite selectedText_later.
    rewrite fmap_cons. simpl cat. now rewrite !append_assoc.
  - intros row i name Hrow Hname.
    destruct (find_index_first _ _ _ Hname) as (k & Hk & Hle).
    assert (Hlen : length row = length (getColumnNames csv)).
    { unfold well_formed in Hwf. rewrite Forall_forall in Hwf.
      now apply Hwf. }
    destruct (lookup_lt_is_Some_2 row k) as [x Hx].
    { rewrite Hlen. eapply lookup_lt_Some, find_index_Some, Hk. }
    exists k, x. repeat split; auto.
    unfold project. rewrite list_lookup_fmap, Hname. simpl.
    now rewrite Hk, Hx.
  - intros Hnd. unfold well_formed in Hwf.
    induction Hwf as [|r rows Hr Hrows IH]; [reflexivity|].
    rewrite !fmap_cons, IH. unfold rowText at 1.
    now rewrite (project_all _ _ Hnd Hr).
Qed.

End SelectFacts.

Lemma abc_table_well_formed : well_formed abc_table.
Proof. repeat constructor. Qed.

Lemma abc_table_NoDup : NoDup (getColumnNames abc_table).
Proof.
  apply NoDup_cons. split; [|apply NoDup_singleton].
  intros H. apply list_elem_of_singleton in H. discriminate.
Qed.

(** Witness of [header_printed_once]: two of three rows are chosen. *)
Lemma header_printed_once_witness :
  selectQuery eq_engine true ["a"] 1 "=" "x" (mkQ abc_table "")
  = (Ok (Returned false),
     mkQ abc_table ("a" +:+ LF +:+ "1" +:+ LF +:+ "3" +:+ LF +:+
                    "2 row(s) selected." +:+ LF)).
Proof.
  apply (header_printed_once eq_engine abc_table true ["a"] 1 "=" "x" "").
  - discriminate.
  - exact abc_table_well_formed.
  - repeat constructor.
  - right. simpl. lia.
Defined.

(** Witness of [select_star_prints_all_rows]. *)
Lemma select_star_prints_all_rows_witness :
  selectQuery eq_engine false ["*"] (-1) "" "" (mkQ abc_table "")
  = (Ok (Returned false),
     mkQ abc_table ("a" +:+ TAB +:+ "b" +:+ LF +:+
                    "1" +:+ TAB +:+ "x" +:+ LF +:+
                    "2" +:+ TAB +:+ "y" +:+ LF +:+
                    "3" +:+ TAB +:+ "x" +:+ LF +:+
                    "3 row(s) selected." +:+ LF)).
Proof.
  exact (proj1 (select_star_prints_all_rows eq_engine abc_table "" "" ""
                  abc_table_well_formed)).
Defined.

(** C7 as stated fails on a table in which a column name occurs twice:
    the row [1, 2] is not printed; the line shows the field of the first
    column of that name in both places. *)
Lemma select_star_repeated_name :
  let csv := mkCSV ["a"; "a"] [["1"; "2"]] in
  well_formed csv
  /\ selectQuery eq_engine false ["*"] (-1) "" "" (mkQ csv "")
     = (Ok (Returned false),
        mkQ csv ("a" +:+ TAB +:+ "a" +:+ LF +:+
                 "1" +:+ TAB +:+ "1" +:+ LF +:+
                 "1 row(s) selected." +:+ LF))
  /\ "1" +:+ TAB +:+ "1" +:+ LF <> String.concat TAB ["1"; "2"] +:+ LF.
Proof.
  intros csv. split; [repeat constructor|]. split; [reflexivity|discriminate].
Qed.

(** ** [updateQuery] *)

Lemma find_index_lt (c : string) (l : list string) (i : nat) :
  find_index c l = Some i -> i < length l.
Proof. intros H. eapply lookup_lt_Some, find_index_Some, H. Qed.

Lemma written_cons (columns : StrVec) (c : string) (cols : StrVec)
  (v : string) (vals : StrVec) (row : CSVRow) (idx : nat) :
  find_index c columns = Some idx ->
  written columns (c :: cols) (v :: vals) row
  = written columns cols vals (<[idx := v]> row).
Proof. intros H. unfold written. simpl. now rewrite H. Qed.

Lemma written_length (columns colNames values : StrVec) (row : CSVRow) :
  length (written columns colNames values row) = length row.
Proof.
  unfold written. revert row.
  induction (zip colNames values) as [|[c v] l IH]; intros row; [reflexivity|].
  simpl. rewrite IH. destruct (find_index c columns); [|reflexivity].
  apply length_insert.
Qed.

Lemma written_step (columns : StrVec) (c : string) (cols : StrVec)
  (v : string) (vals : StrVec) (row : CSVRow) :
  written columns (c :: cols) (v :: vals) row
  = written columns cols vals
      (match find_index c columns with
       | Some idx => <[idx := v]> row
       | None => row
       end).
Proof. reflexivity. Qed.

Lemma written_untouched (columns : StrVec) (colNames : StrVec) :
  forall (values : StrVec) (row : CSVRow) (idx : nat),
    (forall c, c ∈ colNames -> find_index c columns <> Some idx) ->
    written columns colNames values row !! idx = row !! idx.
Proof.
  induction colNames as [|c cols IH]; intros vals row idx Hother;
    [reflexivity|].
  destruct vals as [|v vs]; [reflexivity|].
  assert (Hrest : forall c', c' ∈ cols -> find_index c' columns <> Some idx)
    by (intros c' Hc'; apply Hother; now right).
  rewrite written_step.
  destruct (find_index c columns) as [i'|] eqn:Hc.
  - rewrite (IH _ _ _ Hrest). apply list_lookup_insert_ne.
    intros ->. apply (Hother c); [now left | exact Hc].
  - apply (IH _ _ _ Hrest).
Qed.

(** The last assignment to a column is the one that stays. *)
Lemma written_lookup (columns : StrVec) (colNames : StrVec) :
  forall (values : StrVec) (row : CSVRow) (k : nat) (cname val : string)
         (idx : nat),
    colNames !! k = Some cname ->
    values !! k = Some val ->
    cname ∉ drop (S k) colNames ->
    find_index cname columns = Some idx ->
    idx < length row ->
    written columns colNames values row !! idx = Some val.
Proof.
  induction colNames as [|c cols IH];
    intros vals row k cname val idx Hk Hv Hlast Hidx Hlt; [discriminate|].
  destruct vals as [|v vs]; [discriminate|].
  destruct k as [|k]; simpl in Hk, Hv, Hlast.
  - injection Hk as ->. injection Hv as ->.
    rewrite (written_cons _ _ _ _ _ _ _ Hidx).
    rewrite written_untouched.
    + now apply list_lookup_insert_eq.
    + intros c' Hc' Hfind. apply Hlast.
      apply find_index_Some in Hfind. apply find_index_Some in Hidx.
      rewrite drop_0. congruence.
  - rewrite written_step.
    destruct (find_index c columns) as [i'|].
    + apply (IH _ _ k cname); auto. now rewrite length_insert.
    + apply (IH _ _ k cname); auto.
Qed.

(** Failures pass through [bind]. *)
Lemma bind_undefined {S A B} (c : M S A) (k : A -> M S B) (s : S) (u : ub) :
  (c s).1 = Undefined u -> (bind c k s).1 = Undefined u.
Proof.
  unfold bind. destruct (c s) as [[a|e|u'] s']; simpl; congruence.
Qed.

Lemma bind_avoids {S A B} (c : M S A) (k : A -> M S B) (s : S) (u : ub) :
  (c s).1 <> Undefined u ->
  (forall a s', (k a s').1 <> Undefined u) ->
  (bind c k s).1 <> Undefined u.
Proof.
  intros Hc Hk. unfold bind.
  destruct (c s) as [[a|e|u'] s']; simpl in *; [apply Hk | discriminate |].
  intros H. apply Hc. congruence.
Qed.

Section UpdateFacts.

Variable E : engine_env.

Lemma assignField_ok (csv : CSV) (o : string) (i idx : nat) (v : string)
  (row : CSVRow) :
  csvRows csv !! i = Some row ->
  idx < length row ->
  assignField i idx v (mkQ csv o)
  = (Ok tt, mkQ (mkCSV (getColumnNames csv)
                       (<[i := <[idx := v]> row]> (csvRows csv))) o).
Proof.
  intros Hrow Hidx.
  unfold assignField, currentRow, index, bind, get, lift, modify. simpl.
  rewrite Hrow. case_decide; [reflexivity|lia].
Qed.

Lemma assignCols_ok (i : nat) (values : StrVec) (colNames : StrVec) :
  forall (j : nat) (csv : CSV) (o : string) (row : CSVRow),
    valid_columns csv colNames ->
    csvRows csv !! i = Some row ->
    length row = length (getColumnNames csv) ->
    j + length colNames <= length values ->
    assignCols i colNames values j (mkQ csv o)
    = (Ok tt,
       mkQ (mkCSV (getColumnNames csv)
              (<[i := written (getColumnNames csv) colNames (drop j values) row]>
                 (csvRows csv))) o).
Proof.
  induction colNames as [|c cols IH]; intros j csv o row Hcols Hrow Hlen Hj.
  - simpl. unfold ret, written. rewrite zip_with_nil_l. simpl.
    rewrite list_insert_id by exact Hrow. now destruct csv.
  - simpl in Hj. apply Forall_cons in Hcols as [Hc Hcols].
    destruct (values !! j) as [v|] eqn:Hv.
    2:{ apply lookup_ge_None in Hv. lia. }
    destruct (find_index_elem _ _ Hc) as [idx Hidx].
    pose proof (find_index_lt _ _ _ Hidx) as Hlt.
    simpl assignCols. unfold bind at 1. unfold lift at 1, index. rewrite Hv.
    unfold bind at 1. unfold get at 1.
    unfold bind at 1. unfold lift at 1, getColumnIndex. simpl tbl.
    rewrite Hidx. unfold bind at 1.
    rewrite (assignField_ok _ _ _ _ _ _ Hrow) by lia.
    assert (Hrow' : <[i := <[idx := v]> row]> (csvRows csv) !! i
                    = Some (<[idx := v]> row)).
    { apply list_lookup_insert_eq. eapply lookup_lt_Some, Hrow. }
    assert (Hlen' : length (<[idx := v]> row) = length (getColumnNames csv))
      by now rewrite length_insert.
    rewrite (IH (S j) (mkCSV (getColumnNames csv) _) o _ Hcols Hrow' Hlen')
      by lia.
    simpl. rewrite list_insert_insert_eq. rewrite (drop_S _ _ _ Hv).
    now rewrite (written_cons _ _ _ _ _ _ _ Hidx).
Qed.

Lemma assignCols_past_values (i : nat) (values : StrVec) (colNames : StrVec) :
  forall (j : nat) (csv : CSV) (o : string) (row : CSVRow),
    valid_columns csv colNames ->
    csvRows csv !! i = Some row ->
    length row = length (getColumnNames csv) ->
    j <= length values ->
    length values < j + length colNames ->
    (assignCols i colNames values j (mkQ csv o)).1
    = Undefined (ValuesIndex (length values)).
Proof.
  induction colNames as [|c cols IH]; intros j csv o row Hcols Hrow Hlen Hj Hlt.
  - simpl in Hlt. lia.
  - simpl in Hlt. apply Forall_cons in Hcols as [Hc Hcols].
    simpl assignCols. unfold bind at 1. unfold lift at 1, index.
    destruct (values !! j) as [v|] eqn:Hv.
    2:{ apply lookup_ge_None in Hv. simpl. do 2 f_equal. lia. }
    apply lookup_lt_Some in Hv as Hjlt.
    destruct (find_index_elem _ _ Hc) as [idx Hidx].
    pose proof (find_index_lt _ _ _ Hidx) as Hidxlt.
    unfold bind at 1. unfold get at 1.
    unfold bind at 1. unfold lift at 1, getColumnIndex. simpl tbl.
    rewrite Hidx. unfold bind at 1.
    rewrite (assignField_ok _ _ _ _ _ _ Hrow) by lia.
    assert (Hrow' : <[i := <[idx := v]> row]> (csvRows csv) !! i
                    = Some (<[idx := v]> row)).
    { apply list_lookup_insert_eq. eapply lookup_lt_Some, Hrow. }
    assert (Hlen' : length (<[idx := v]> row) = length (getColumnNames csv))
      by now rewrite length_insert.
    apply (IH (S j) (mkCSV (getColumnNames csv) _) o _ Hcols Hrow' Hlen'); lia.
Qed.

(** Within the bounds of [values], no step reads past its end. *)
Lemma assignCols_within_values (i : nat) (values : StrVec) (colNames : StrVec) :
  forall (j : nat) (q : qstate) (k : nat),
    j + length colNames <= length values ->
    (assignCols i colNames values j q).1 <> Undefined (ValuesIndex k).
Proof.
  induction colNames as [|c cols IH]; intros j q k Hj; [discriminate|].
  simpl in Hj. simpl assignCols.
  destruct (values !! j) as [v|] eqn:Hv.
  2:{ apply lookup_ge_None in Hv. lia. }
  unfold bind at 1. unfold lift at 1, index. rewrite Hv.
  unfold bind at 1. unfold get at 1.
  unfold bind at 1. unfold lift at 1.
  destruct (getColumnIndex (tbl q) c) as [idx|e|u] eqn:Hidx; try discriminate.
  - unfold bind at 1.
    destruct (assignField i idx v q) as [[[]|e|u] q'] eqn:Hassign.
    + apply IH. lia.
    + discriminate.
    + simpl. unfold assignField, currentRow, index, bind, get, lift, modify,
        undefined in Hassign.
      destruct (csvRows (tbl q) !! i) as [row|]; simpl in Hassign.
      * case_decide; simpl in Hassign; congruence.
      * congruence.
  - unfold getColumnIndex in Hidx.
    destruct (find_index c (getColumnNames (tbl q))); discriminate.
Qed.

Lemma updateRow_ok (csv : CSV) (colNames values : StrVec) (w : Z)
  (c v : string) (i numRows : nat) (row : CSVRow) (o : string) :
  valid_columns csv colNames ->
  valid_where csv w ->
  length row = length (getColumnNames csv) ->
  csvRows csv !! i = Some row ->
  length colNames <= length values ->
  updateRow E colNames values w c v i numRows (mkQ csv o)
  = (Ok (if chosen E w c v row then S numRows else numRows),
     mkQ (mkCSV (getColumnNames csv)
            (<[i := updated E (getColumnNames csv) colNames values w c v row]>
               (csvRows csv))) o).
Proof.
  intros Hcols Hw Hlen Hrow Hvals.
  unfold updateRow, currentRow, index, updated. unfold bind at 1 2.
  unfold get at 1, lift at 1. simpl. rewrite Hrow.
  unfold bind at 1. unfold lift at 1.
  rewrite (rowMatches_ok E csv _ _ _ _ Hw Hlen).
  destruct (chosen E w c v row).
  - unfold bind at 1.
    rewrite (assignCols_ok _ _ _ 0 _ _ _ Hcols Hrow Hlen) by (simpl; lia).
    rewrite drop_0. reflexivity.
  - unfold ret. rewrite list_insert_id by exact Hrow. now destruct csv.
Qed.

Lemma updated_length (columns colNames values : StrVec) (w : Z)
  (c v : string) (row : CSVRow) :
  length (updated E columns colNames values w c v row) = length row.
Proof.
  unfold updated. destruct (chosen E w c v row); [|reflexivity].
  apply written_length.
Qed.

Lemma forRows_update (colNames values : StrVec) (w : Z) (c v : string)
  (o : string) (rs : list CSVRow) :
  length colNames <= length values ->
  forall (i numRows : nat) (csv : CSV),
    valid_columns csv colNames ->
    valid_where csv w ->
    well_formed csv ->
    drop i (csvRows csv) = rs ->
    forRows (updateRow E colNames values w c v) (length rs) i numRows
            (mkQ csv o)
    = (Ok (numRows + length (List.filter (chosen E w c v) rs)),
       mkQ (mkCSV (getColumnNames csv)
              (take i (csvRows csv) ++
               (updated E (getColumnNames csv) colNames values w c v <$> rs)))
           o).
Proof.
  intros Hvals.
  induction rs as [|r rs IH]; intros i n csv Hcols Hw Hwf Hdrop.
  - simpl. unfold ret. rewrite app_nil_r, Nat.add_0_r.
    rewrite take_ge; [now destruct csv|].
    destruct (decide (length (csvRows csv) <= i)) as [Hle|Hgt]; [exact Hle|].
    exfalso. apply (f_equal length) in Hdrop. rewrite length_drop in Hdrop.
    simpl in Hdrop. lia.
  - apply drop_cons_inv in Hdrop as [Hrow Hdrop].
    assert (Hlen : length r = length (getColumnNames csv)).
    { unfold well_formed in Hwf. rewrite Forall_forall in Hwf.
      apply Hwf. eapply list_elem_of_lookup_2, Hrow. }
    simpl forRows. unfold bind at 1.
    rewrite (updateRow_ok _ _ _ _ _ _ _ _ _ _ Hcols Hw Hlen Hrow Hvals).
    set (r' := updated E (getColumnNames csv) colNames values w c v r).
    set (csv' := mkCSV (getColumnNames csv) (<[i := r']> (csvRows csv))).
    assert (Hwf' : well_formed csv').
    { unfold well_formed, csv'. simpl. apply Forall_insert; [exact Hwf|].
      unfold r'. now rewrite updated_length. }
    assert (Hdrop' : drop (S i) (csvRows csv') = rs).
    { unfold csv'. simpl. rewrite drop_insert_lt by lia. exact Hdrop. }
    rewrite (IH (S i) _ csv' Hcols Hw Hwf' Hdrop').
    apply lookup_lt_Some in Hrow as Hi.
    f_equal.
    + f_equal. cbn [List.filter]. destruct (chosen E w c v r); simpl; lia.
    + unfold csv'. simpl. f_equal. f_equal.
      rewrite (take_S_r _ _ r') by now apply list_lookup_insert_eq.
      rewrite take_insert_ge by lia.
      now rewrite <- app_assoc.
Qed.

(** The whole of [updateQuery] on a well-formed table, for existing
    columns and enough values. *)
Lemma updateQuery_ok (csv : CSV) (mustWait : bool) (colNames values : StrVec)
  (w : Z) (c v : string) (o : string) :
  length colNames <= length values ->
  well_formed csv ->
  valid_columns csv colNames ->
  valid_where csv w ->
  let n := length (List.filter (chosen E w c v) (csvRows csv)) in
  let csv' := mkCSV (getColumnNames csv)
                (updated E (getColumnNames csv) colNames values w c v <$>
                   csvRows csv) in
  updateQuery E mustWait colNames values w c v (mkQ csv o)
  = if mustWait && Nat.eqb n 0
    then (Ok (Waiting (CUpdate mustWait colNames values w c v)), mkQ csv' o)
    else (Ok (Returned (negb (Nat.eqb n 0))),
          mkQ csv' (o +:+ pretty n +:+ " row(s) updated." +:+ LF)).
Proof.
  intros Hvals Hwf Hcols Hw n csv'. unfold updateQuery.
  unfold bind at 1. unfold get at 1. unfold bind at 1. simpl tbl.
  rewrite (forRows_update colNames values w c v o (csvRows csv) Hvals 0 0 csv
             Hcols Hw Hwf eq_refl).
  simpl. fold n. fold csv'. unfold updateFinish.
  destruct (mustWait && Nat.eqb n 0); [reflexivity|].
  unfold bind, put, endl, put, modify, ret. simpl.
  now rewrite !append_assoc.
Qed.

Lemma updateRow_within_values (colNames values : StrVec) (w : Z)
  (c v : string) (i numRows : nat) (q : qstate) (k : nat) :
  length colNames <= length values ->
  (updateRow E colNames values w c v i numRows q).1
  <> Undefined (ValuesIndex k).
Proof.
  intros Hvals. unfold updateRow.
  apply bind_avoids.
  { unfold currentRow, bind, get, lift, index. simpl.
    destruct (csvRows (tbl q) !! i); discriminate. }
  intros row q1. apply bind_avoids.
  { unfold lift, rowMatches. simpl.
    destruct (w =? -1)%Z; [discriminate|].
    unfold at_. destruct (w <? 0)%Z; [discriminate|].
    destruct (row !! Z.to_nat w); discriminate. }
  intros [|] q2; [|discriminate].
  apply bind_avoids; [|discriminate].
  apply assignCols_within_values. simpl. lia.
Qed.

Lemma forRows_within_values (body : nat -> nat -> M qstate nat) (k : nat) :
  (forall i n q, (body i n q).1 <> Undefined (ValuesIndex k)) ->
  forall todo i n q, (forRows body todo i n q).1 <> Undefined (ValuesIndex k).
Proof.
  intros Hbody. induction todo as [|todo IH]; intros i n q; [discriminate|].
  simpl. apply bind_avoids; [apply Hbody|]. intros n' q'. apply IH.
Qed.

Lemma updateQuery_within_values (mustWait : bool) (colNames values : StrVec)
  (w : Z) (c v : string) (q : qstate) (k : nat) :
  length colNames <= length values ->
  (updateQuery E mustWait colNames values w c v q).1
  <> Undefined (ValuesIndex k).
Proof.
  intros Hvals. unfold updateQuery.
  apply bind_avoids; [discriminate|]. intros q0 q1.
  apply bind_avoids.
  { apply forRows_within_values. intros i n q2.
    now apply updateRow_within_values. }
  intros n q2. unfold updateFinish.
  destruct (mustWait && Nat.eqb n 0); discriminate.
Qed.

(** With fewer values than column names, the update of a table whose one
    row is chosen reads [values] at its length. *)
Lemma updateQuery_past_values (colNames values : StrVec) :
  length values < length colNames ->
  (updateQuery E false colNames values (-1) "" ""
               (mkQ (mkCSV colNames [colNames]) "")).1
  = Undefined (ValuesIndex (length values)).
Proof.
  intros Hlt. unfold updateQuery.
  unfold bind at 1. unfold get at 1. simpl tbl. simpl length.
  apply bind_undefined. simpl forRows. apply bind_undefined.
  unfold updateRow. unfold bind at 1. unfold currentRow.
  unfold bind at 1. unfold get at 1. unfold lift at 1. simpl.
  unfold bind at 1. unfold lift at 1, rowMatches. simpl.
  apply bind_undefined.
  apply (assignCols_past_values 0 values colNames 0
           (mkCSV colNames [colNames]) "" colNames); simpl; try lia; auto.
  unfold valid_columns. simpl. now apply Forall_forall.
Qed.

(** C10: [values[j]] is read for every position [j] of [colNames]; no call
    reads past the end of [values] exactly when [values] is at least as
    long as [colNames].  Then, on a well-formed table and for existing
    columns, the update returns normally, every chosen row is the row
    after the assignments made in the order of [colNames] and every other
    row is as before; in a chosen row the column named [colNames[k]] holds
    [values[k]], for every [k] whose column is not assigned again later in
    the list. *)
Theorem updateQuery_values_bound :
  forall (colNames values : StrVec),
    (~ reads_past_values E colNames values
     <-> length colNames <= length values)
    /\ (length colNames <= length values ->
        forall (csv : CSV) (mustWait : bool) (w : Z) (c v : string)
               (o : string),
          well_formed csv ->
          valid_columns csv colNames ->
          valid_where csv w ->
          let n := length (List.filter (chosen E w c v) (csvRows csv)) in
          let r := updateQuery E mustWait colNames values w c v (mkQ csv o) in
          r.1 = Ok (if mustWait && Nat.eqb n 0
                    then Waiting (CUpdate mustWait colNames values w c v)
                    else Returned (negb (Nat.eqb n 0)))
          /\ tbl r.2
             = mkCSV (getColumnNames csv)
                 (updated E (getColumnNames csv) colNames values w c v <$>
                    csvRows csv)
          /\ (forall (row : CSVRow) (k : nat) (cname val : string) (idx : nat),
                row ∈ csvRows csv ->
                chosen E w c v row = true ->
                colNames !! k = Some cname ->
                values !! k = Some val ->
                cname ∉ drop (S k) colNames ->
                find_index cname (getColumnNames csv) = Some idx ->
                updated E (getColumnNames csv) colNames values w c v row !! idx
                = Some val)
          /\ (forall (row : CSVRow),
                chosen E w c v row = false ->
                updated E (getColumnNames csv) colNames values w c v row
                = row)).
Proof.
  intros colNames values. split.
  - split.
    + intros Hno.
      destruct (le_lt_dec (length colNames) (length values)) as [Hle|Hlt];
        [exact Hle|].
      exfalso. apply Hno.
      exists false, (-1)%Z, "", "", (mkQ (mkCSV colNames [colNames]) "").
      exists (length values). now apply updateQuery_past_values.
    + intros Hle (mw & w & c & v & q & i & Hub).
      now apply (updateQuery_within_values mw colNames values w c v q i Hle).
  - intros Hle csv mw w c v o Hwf Hcols Hw n r. subst r.
    rewrite (updateQuery_ok csv mw colNames values w c v o Hle Hwf Hcols Hw).
    fold n. repeat split.
    + destruct (mw && Nat.eqb n 0); reflexivity.
    + destruct (mw && Nat.eqb n 0); reflexivity.
    + intros row k cname val idx Hrow Hchosen Hk Hv Hlast Hidx.
      unfold updated. rewrite Hchosen.
      apply (written_lookup _ _ _ _ k cname); auto.
      unfold well_formed in Hwf. rewrite Forall_forall in Hwf.
      rewrite (Hwf row Hrow). eapply find_index_lt, Hidx.
    + intros row Hchosen. unfold updated. now rewrite Hchosen.
Qed.

End UpdateFacts.

(** Witness of [updateQuery_values_bound]: one value for one column, set
    in the row where [a] is [1]. *)
Lemma updateQuery_values_bound_witness :
  let r := updateQuery eq_engine false ["b"] ["z"] 0 "=" "1"
                       (mkQ abc_table "") in
  r.1 = Ok (Returned true)
  /\ tbl r.2 = mkCSV ["a"; "b"] [["1"; "z"]; ["2"; "y"]; ["3"; "x"]].
Proof.
  intros r.
  destruct (proj2 (updateQuery_values_bound eq_engine ["b"] ["z"])
              ltac:(simpl; lia) abc_table false 0%Z "=" "1" ""
              abc_table_well_formed
              ltac:(repeat constructor)
              ltac:(right; simpl; lia))
    as (Hstatus & Htable & _).
  split; [exact Hstatus | exact Htable].
Defined.

(** ** The pieces of the queries

    The steps of the table machine are the pieces of [selectQuery] and
    [updateQuery]; what each piece keeps of the table is kept by every
    step. *)

Section QueryPieces.

Variable E : engine_env.

Lemma table_run_cons (k : nat) (sched : list nat) (s : table_sys) :
  table_run E (k :: sched) s = table_run E sched (table_step E s k).
Proof. reflexivity. Qed.

Lemma table_run_app (sched1 sched2 : list nat) (s : table_sys) :
  table_run E (sched1 ++ sched2) s
  = table_run E sched2 (table_run E sched1 s).
Proof. apply foldl_app. Qed.

(** The pieces of [selectQuery] keep the table, those of [updateQuery]
    its number of rows. *)
Lemma preserves_bind {S X A B} (f : S -> X) (c : M S A) (k : A -> M S B) :
  preserves f c -> (forall a, preserves f (k a)) -> preserves f (bind c k).
Proof.
  intros Hc Hk s. unfold bind. specialize (Hc s).
  destruct (c s) as [[a|e|u] s']; simpl in *; try exact Hc.
  now rewrite Hk.
Qed.

Lemma preserves_pure {S X A} (f : S -> X) (r : result A) :
  preserves f (lift r).
Proof. intros s. reflexivity. Qed.

Lemma preserves_get {S X} (f : S -> X) : preserves f get.
Proof. intros s. reflexivity. Qed.

Lemma preserves_put {X} (f : CSV -> X) (text : string) :
  preserves (fun q => f (tbl q)) (put text).
Proof. intros s. reflexivity. Qed.

Lemma displayCols_tbl {X} (f : CSV -> X) (row : CSVRow) (cols : StrVec) :
  forall d, preserves (fun q => f (tbl q)) (displayCols row cols d).
Proof.
  induction cols as [|c cols IH]; intros d; [intros s; reflexivity|].
  simpl. apply preserves_bind; [apply preserves_put|]. intros _.
  apply preserves_bind; [apply preserves_get|]. intros q.
  apply preserves_bind; [apply preserves_pure|]. intros idx.
  apply preserves_bind; [apply preserves_pure|]. intros x.
  apply preserves_bind; [apply preserves_put|]. intros _. apply IH.
Qed.

Lemma selectRow_tbl (cols : StrVec) (w : Z) (c v : string) (i n : nat) :
  preserves tbl (selectRow E cols w c v i n).
Proof.
  unfold selectRow, currentRow.
  apply preserves_bind.
  { apply preserves_bind; [apply preserves_get|]. intros q.
    apply preserves_pure. }
  intros row. apply preserves_bind; [apply preserves_pure|].
  intros [|]; [|intros s; reflexivity].
  apply preserves_bind; [|intros _ s; reflexivity].
  unfold display. apply preserves_bind.
  { destruct (Nat.eqb (S n) 1); [|intros s; reflexivity].
    apply preserves_bind; [apply (preserves_put id)|]. intros _.
    apply (preserves_put id). }
  intros _. apply preserves_bind; [apply (displayCols_tbl id)|].
  intros _. apply (preserves_put id).
Qed.

Lemma assignField_rows (i idx : nat) (x : string) :
  preserves (fun q => length (csvRows (tbl q))) (assignField i idx x).
Proof.
  intros q.
  unfold assignField, currentRow, index, bind, get, lift, modify, undefined.
  simpl. destruct (csvRows (tbl q) !! i) as [row|]; [|reflexivity].
  simpl. case_decide; simpl; [apply length_insert | reflexivity].
Qed.

Lemma assignCols_rows (i : nat) (cols vals : StrVec) :
  forall j,
    preserves (fun q => length (csvRows (tbl q))) (assignCols i cols vals j).
Proof.
  induction cols as [|c cols IH]; intros j; [intros s; reflexivity|].
  simpl. apply preserves_bind; [apply preserves_pure|]. intros x.
  apply preserves_bind; [apply preserves_get|]. intros q.
  apply preserves_bind; [apply preserves_pure|]. intros idx.
  apply preserves_bind; [apply assignField_rows|]. intros _. apply IH.
Qed.

Lemma updateRow_rows (cols vals : StrVec) (w : Z) (c v : string) (i n : nat) :
  preserves (fun q => length (csvRows (tbl q)))
            (updateRow E cols vals w c v i n).
Proof.
  unfold updateRow, currentRow.
  apply preserves_bind.
  { apply preserves_bind; [apply preserves_get|]. intros q.
    apply preserves_pure. }
  intros row. apply preserves_bind; [apply preserves_pure|].
  intros [|]; [|intros s; reflexivity].
  apply preserves_bind; [apply assignCols_rows|]. intros _ s. reflexivity.
Qed.

Lemma forRows_preserves {X} (f : qstate -> X)
  (body : nat -> nat -> M qstate nat) :
  (forall i n, preserves f (body i n)) ->
  forall todo i n, preserves f (forRows body todo i n).
Proof.
  intros Hbody. induction todo as [|todo IH]; intros i n;
    [intros s; reflexivity|].
  simpl. apply preserves_bind; [apply Hbody|]. intros n'. apply IH.
Qed.

End QueryPieces.

(** * Further properties of the engine *)

Lemma appends_bind {A B} (c : M qstate A) (k : A -> M qstate B) :
  appends c -> (forall a, appends (k a)) -> appends (bind c k).
Proof.
  intros Hc Hk q. unfold bind. destruct (Hc q) as [t1 H1].
  destruct (c q) as [[a|e|u] q1]; simpl in *; try now exists t1.
  destruct (Hk a q1) as [t2 H2]. exists (t1 +:+ t2).
  now rewrite H2, H1, append_assoc.
Qed.

Lemma appends_still {A} (c : M qstate A) :
  (forall q, (c q).2 = q) -> appends c.
Proof. intros H q. exists "". now rewrite H, append_nil_r. Qed.

Ltac still := intros; apply appends_still; intros; reflexivity.

Lemma appends_put (text : string) : appends (put text).
Proof. intros q. now exists text. Qed.

Lemma displayCols_appends (row : CSVRow) (cols : StrVec) :
  forall d, appends (displayCols row cols d).
Proof.
  induction cols as [|c cols IH]; intros d; [still|].
  simpl. apply appends_bind; [apply appends_put|]. intros _.
  apply appends_bind; [still|]. intros q.
  apply appends_bind; [still|]. intros idx.
  apply appends_bind; [still|]. intros x.
  apply appends_bind; [apply appends_put|]. intros _. apply IH.
Qed.

Lemma forRows_appends (body : nat -> nat -> M qstate nat) :
  (forall i n, appends (body i n)) ->
  forall todo i n, appends (forRows body todo i n).
Proof.
  intros Hbody. induction todo as [|todo IH]; intros i n;
    [still|].
  simpl. apply appends_bind; [apply Hbody|]. intros n'. apply IH.
Qed.

Section EngineEdges.

Variable E : engine_env.

Lemma selectRow_appends (cols : StrVec) (w : Z) (c v : string) (i n : nat) :
  appends (selectRow E cols w c v i n).
Proof.
  unfold selectRow, currentRow.
  apply appends_bind.
  { apply appends_bind; still. }
  intros row. apply appends_bind; [still|].
  intros [|]; [|still].
  apply appends_bind; [|still].
  unfold display. apply appends_bind.
  { destruct (Nat.eqb (S n) 1); [|still].
    apply appends_bind; [apply appends_put|]. intros _. apply appends_put. }
  intros _. apply appends_bind; [apply displayCols_appends|].
  intros _. apply appends_put.
Qed.

(** However a select ends (it returns, waits, throws or reads past the
    end of its column list), the table is the one it was called on and the
    output stream has only been added to at its end. *)
Theorem selectQuery_reads_only :
  forall (mustWait : bool) (colNames : StrVec) (w : Z) (c v : string)
         (q : qstate),
    tbl (selectQuery E mustWait colNames w c v q).2 = tbl q
    /\ exists text,
         os (selectQuery E mustWait colNames w c v q).2 = os q +:+ text.
Proof.
  intros mw cols w c v q. split.
  - revert q. change (preserves tbl (selectQuery E mw cols w c v)).
    unfold selectQuery. apply preserves_bind.
    { unfold expandStar. apply preserves_bind; [apply preserves_pure|].
      intros c0. apply preserves_bind; [apply preserves_get|].
      intros q s. reflexivity. }
    intros cols'. apply preserves_bind; [apply preserves_get|]. intros q.
    apply preserves_bind.
    { apply forRows_preserves. intros i n. apply selectRow_tbl. }
    intros n. unfold selectFinish.
    destruct (mw && Nat.eqb n 0); [intros s; reflexivity|].
    apply preserves_bind; [apply (preserves_put id)|]. intros _.
    apply preserves_bind; [apply (preserves_put id)|]. intros _ s.
    reflexivity.
  - revert q. change (appends (selectQuery E mw cols w c v)).
    unfold selectQuery. apply appends_bind.
    { unfold expandStar. apply appends_bind; [still|].
      intros c0. apply appends_bind; still. }
    intros cols'. apply appends_bind; [still|]. intros q.
    apply appends_bind.
    { apply forRows_appends. intros i n. apply selectRow_appends. }
    intros n. unfold selectFinish.
    destruct (mw && Nat.eqb n 0); [still|].
    apply appends_bind; [apply appends_put|]. intros _.
    apply appends_bind; [apply appends_put|]. still.
Qed.

Lemma assignField_shape (i idx : nat) (x : string) :
  preserves (fun q => shape (tbl q)) (assignField i idx x).
Proof.
  intros q.
  unfold assignField, currentRow, index, bind, get, lift, modify, undefined.
  simpl. destruct (csvRows (tbl q) !! i) as [row|] eqn:Hrow; [|reflexivity].
  simpl. case_decide; simpl; [|reflexivity].
  unfold shape. simpl. f_equal.
  rewrite list_fmap_insert, length_insert.
  apply list_insert_id. now rewrite list_lookup_fmap, Hrow.
Qed.

Lemma assignCols_shape (i : nat) (cols vals : StrVec) :
  forall j, preserves (fun q => shape (tbl q)) (assignCols i cols vals j).
Proof.
  induction cols as [|c cols IH]; intros j; [intros s; reflexivity|].
  simpl. apply preserves_bind; [apply preserves_pure|]. intros x.
  apply preserves_bind; [apply preserves_get|]. intros q.
  apply preserves_bind; [apply preserves_pure|]. intros idx.
  apply preserves_bind; [apply assignField_shape|]. intros _. apply IH.
Qed.

Lemma updateRow_shape (cols vals : StrVec) (w : Z) (c v : string) (i n : nat) :
  preserves (fun q => shape (tbl q)) (updateRow E cols vals w c v i n).
Proof.
  unfold updateRow, currentRow.
  apply preserves_bind.
  { apply preserves_bind; [apply preserves_get|]. intros q.
    apply preserves_pure. }
  intros row. apply preserves_bind; [apply preserves_pure|].
  intros [|]; [|intros s; reflexivity].
  apply preserves_bind; [apply assignCols_shape|]. intros _ s. reflexivity.
Qed.

Lemma well_formed_shape (csv csv' : CSV) :
  shape csv' = shape csv -> well_formed csv -> well_formed csv'.
Proof.
  unfold shape, well_formed. intros H Hwf. injection H as Hcols Hrows.
  rewrite Hcols.
  apply (Forall_fmap length (fun n => n = length (getColumnNames csv))).
  rewrite Hrows.
  apply (Forall_fmap length (fun n => n = length (getColumnNames csv))).
  exact Hwf.
Qed.

(** However an update ends, also by an exception in the middle of a row,
    the table has the column names it had, as many rows, and in every row
    as many fields as before: a table with one field per column stays
    one. *)
Theorem updateQuery_keeps_shape :
  forall (mustWait : bool) (colNames values : StrVec) (w : Z) (c v : string)
         (q : qstate),
    shape (tbl (updateQuery E mustWait colNames values w c v q).2)
    = shape (tbl q)
    /\ (well_formed (tbl q) ->
        well_formed (tbl (updateQuery E mustWait colNames values w c v q).2)).
Proof.
  intros mw cols vals w c v q.
  assert (H : shape (tbl (updateQuery E mw cols vals w c v q).2) = shape (tbl q)).
  { revert q.
    change (preserves (fun q => shape (tbl q)) (updateQuery E mw cols vals w c v)).
    unfold updateQuery. apply preserves_bind; [apply preserves_get|].
    intros q. apply preserves_bind.
    { apply forRows_preserves. intros i n. apply updateRow_shape. }
    intros n. unfold updateFinish.
    destruct (mw && Nat.eqb n 0); [intros s; reflexivity|].
    apply preserves_bind; [apply (preserves_put shape)|]. intros _.
    apply preserves_bind; [apply (preserves_put shape)|]. intros _ s.
    reflexivity. }
  split; [exact H|]. now apply well_formed_shape.
Qed.

End EngineEdges.

Section EngineErrors.

Variable E : engine_env.

Lemma selectRow_unchosen (cols : StrVec) (w : Z) (c v : string) (i n : nat)
  (q : qstate) (row : CSVRow) :
  csvRows (tbl q) !! i = Some row ->
  rowMatches E row w c v = Ok false ->
  selectRow E cols w c v i n q = (Ok n, q).
Proof.
  intros Hrow Hm. unfold selectRow, currentRow, index, bind, get, lift.
  now rewrite Hrow, Hm.
Qed.

Lemma updateRow_unchosen (cols vals : StrVec) (w : Z) (c v : string)
  (i n : nat) (q : qstate) (row : CSVRow) :
  csvRows (tbl q) !! i = Some row ->
  rowMatches E row w c v = Ok false ->
  updateRow E cols vals w c v i n q = (Ok n, q).
Proof.
  intros Hrow Hm. unfold updateRow, currentRow, index, bind, get, lift.
  now rewrite Hrow, Hm.
Qed.

(** The loop passes over rows its body leaves alone. *)
Lemma forRows_skip (body : nat -> nat -> M qstate nat) (w : Z) (c v : string)
  (q : qstate) (n m : nat) (rest : list CSVRow) :
  (forall i row, csvRows (tbl q) !! i = Some row ->
                 rowMatches E row w c v = Ok false ->
                 body i n q = (Ok n, q)) ->
  forall (before : list CSVRow) (i : nat),
    drop i (csvRows (tbl q)) = (before ++ rest)%list ->
    Forall (fun row => rowMatches E row w c v = Ok false) before ->
    forRows body (length before + m) i n q
    = forRows body m (i + length before) n q.
Proof.
  intros Hbody. induction before as [|x before IH]; intros i Hdrop Hun.
  - simpl. now rewrite Nat.add_0_r.
  - simpl in Hdrop. apply drop_cons_inv in Hdrop as [Hrow Hdrop].
    apply Forall_cons in Hun as [Hx Hun].
    simpl. unfold bind at 1. rewrite (Hbody i x Hrow Hx).
    rewrite (IH (S i) Hdrop Hun). f_equal. lia.
Qed.

(** A select whose [where] test is false on every row, or whose table is
    empty, never looks at its column names: for every non-empty column
    list, also one that names no column of the table, it prints the count
    [0] and returns, or with [mustWait] prints nothing and waits. *)
Theorem selectQuery_no_row_chosen :
  forall (csv : CSV) (mustWait : bool) (colNames : StrVec) (w : Z)
         (c v : string) (o : string),
    colNames <> [] ->
    Forall (fun row => rowMatches E row w c v = Ok false) (csvRows csv) ->
    selectQuery E mustWait colNames w c v (mkQ csv o)
    = if mustWait
      then (Ok (Waiting (CSelect mustWait (expanded csv colNames) w c v)),
            mkQ csv o)
      else (Ok (Returned false), mkQ csv (o +:+ "0 row(s) selected." +:+ LF)).
Proof.
  intros csv mw cols w c v o Hne Hun. unfold selectQuery.
  unfold bind at 1. rewrite (expandStar_ok _ _ _ Hne).
  unfold bind at 1. unfold get at 1. unfold bind at 1. simpl tbl.
  rewrite <- (Nat.add_0_r (length (csvRows csv))).
  rewrite (forRows_skip _ w c v (mkQ csv o) 0 0 []); simpl.
  - unfold ret, selectFinish. destruct mw; simpl; [reflexivity|].
    unfold bind, put, endl, put, modify, ret. simpl.
    now rewrite !append_assoc.
  - intros i row Hrow Hm. now apply (selectRow_unchosen _ _ _ _ _ _ _ row).
  - now rewrite app_nil_r.
  - exact Hun.
Qed.

(** An update whose [where] test is false on every row, or whose table is
    empty, reads neither its column names nor its values: for every two
    lists, whatever their lengths and names, the table is unchanged, and
    the update prints the count [0] and returns without notifying, or with
    [mustWait] prints nothing and waits. *)
Theorem updateQuery_no_row_chosen :
  forall (csv : CSV) (mustWait : bool) (colNames values : StrVec) (w : Z)
         (c v : string) (o : string),
    Forall (fun row => rowMatches E row w c v = Ok false) (csvRows csv) ->
    updateQuery E mustWait colNames values w c v (mkQ csv o)
    = if mustWait
      then (Ok (Waiting (CUpdate mustWait colNames values w c v)), mkQ csv o)
      else (Ok (Returned false), mkQ csv (o +:+ "0 row(s) updated." +:+ LF)).
Proof.
  intros csv mw cols vals w c v o Hun. unfold updateQuery.
  unfold bind at 1. unfold get at 1. unfold bind at 1. simpl tbl.
  rewrite <- (Nat.add_0_r (length (csvRows csv))).
  rewrite (forRows_skip _ w c v (mkQ csv o) 0 0 []); simpl.
  - unfold ret, updateFinish. destruct mw; simpl; [reflexivity|].
    unfold bind, put, endl, put, modify, ret. simpl.
    now rewrite !append_assoc.
  - intros i row Hrow Hm. now apply (updateRow_unchosen _ _ _ _ _ _ _ _ row).
  - now rewrite app_nil_r.
  - exact Hun.
Qed.

Lemma rowMatches_out_of_range (row : CSVRow) (w : Z) (c v : string) :
  w <> (-1)%Z ->
  (w < 0 \/ Z.of_nat (length row) <= w)%Z ->
  rowMatches E row w c v = Throw out_of_range.
Proof.
  intros Hne Hout. unfold rowMatches, at_.
  destruct (Z.eqb_spec w (-1)); [contradiction|].
  destruct (Z.ltb_spec w 0); [reflexivity|].
  destruct (row !! Z.to_nat w) as [x|] eqn:Hx; [|reflexivity].
  apply lookup_lt_Some in Hx. lia.
Qed.

(** A [where] column index other than -1 that is not a position of the
    first row makes both queries throw [out_of_range] at that row: nothing
    is printed and the table is unchanged. *)
Theorem where_index_out_of_range :
  forall (csv : CSV) (first : CSVRow) (others : list CSVRow)
         (mustWait : bool) (colNames values : StrVec) (w : Z) (c v : string)
         (o : string),
    csvRows csv = first :: others ->
    w <> (-1)%Z ->
    (w < 0 \/ Z.of_nat (length first) <= w)%Z ->
    (colNames <> [] ->
     selectQuery E mustWait colNames w c v (mkQ csv o)
     = (Throw out_of_range, mkQ csv o))
    /\ updateQuery E mustWait colNames values w c v (mkQ csv o)
       = (Throw out_of_range, mkQ csv o).
Proof.
  intros csv first others mw cols vals w c v o Hrows Hne Hout.
  pose proof (rowMatches_out_of_range first w c v Hne Hout) as Hm.
  split.
  - intros Hcols. unfold selectQuery.
    unfold bind at 1. rewrite (expandStar_ok _ _ _ Hcols).
    unfold bind at 1. unfold get at 1. unfold bind at 1. simpl tbl.
    rewrite Hrows. simpl forRows. unfold bind at 1.
    unfold selectRow, currentRow, index, bind, get, lift. simpl.
    rewrite Hrows. simpl. now rewrite Hm.
  - unfold updateQuery.
    unfold bind at 1. unfold get at 1. unfold bind at 1. simpl tbl.
    rewrite Hrows. simpl forRows. unfold bind at 1.
    unfold updateRow, currentRow, index, bind, get, lift. simpl.
    rewrite Hrows. simpl. now rewrite Hm.
Qed.

End EngineErrors.

Lemma find_index_None (c : string) (l : list string) :
  c ∉ l -> find_index c l = None.
Proof.
  intros Hc. destruct (find_index c l) as [i|] eqn:Hi; [|reflexivity].
  exfalso. apply Hc. eapply list_elem_of_lookup_2, find_index_Some, Hi.
Qed.

Section UnknownColumn.

Variable E : engine_env.

Lemma assignCols_unknown (i : nat) (values : StrVec) (bad : string)
  (post : StrVec) (pre : StrVec) :
  forall (j : nat) (csv : CSV) (o : string) (row : CSVRow),
    valid_columns csv pre ->
    bad ∉ getColumnNames csv ->
    csvRows csv !! i = Some row ->
    length row = length (getColumnNames csv) ->
    j + length pre < length values ->
    assignCols i (pre ++ bad :: post) values j (mkQ csv o)
    = (Throw (LookupError bad),
       mkQ (mkCSV (getColumnNames csv)
              (<[i := written (getColumnNames csv) pre (drop j values) row]>
                 (csvRows csv))) o).
Proof.
  induction pre as [|c cols IH]; intros j csv o row Hcols Hbad Hrow Hlen Hj.
  - simpl in Hj. simpl app. simpl assignCols.
    destruct (values !! j) as [x|] eqn:Hx.
    2:{ apply lookup_ge_None in Hx. lia. }
    unfold bind at 1. unfold lift at 1, index. rewrite Hx.
    unfold bind at 1. unfold get at 1.
    unfold bind at 1. unfold lift at 1, getColumnIndex. simpl tbl.
    rewrite (find_index_None _ _ Hbad). unfold written.
    rewrite zip_with_nil_l. simpl.
    rewrite list_insert_id by exact Hrow. now destruct csv.
  - simpl in Hj. apply Forall_cons in Hcols as [Hc Hcols].
    destruct (values !! j) as [x|] eqn:Hx.
    2:{ apply lookup_ge_None in Hx. lia. }
    destruct (find_index_elem _ _ Hc) as [idx Hidx].
    pose proof (find_index_lt _ _ _ Hidx) as Hlt.
    simpl app. simpl assignCols.
    unfold bind at 1. unfold lift at 1, index. rewrite Hx.
    unfold bind at 1. unfold get at 1.
    unfold bind at 1. unfold lift at 1, getColumnIndex. simpl tbl.
    rewrite Hidx. unfold bind at 1.
    rewrite (assignField_ok _ _ _ _ _ _ Hrow) by lia.
    assert (Hrow' : <[i := <[idx := x]> row]> (csvRows csv) !! i
                    = Some (<[idx := x]> row)).
    { apply list_lookup_insert_eq. eapply lookup_lt_Some, Hrow. }
    assert (Hlen' : length (<[idx := x]> row) = length (getColumnNames csv))
      by now rewrite length_insert.
    rewrite (IH (S j) (mkCSV (getColumnNames csv) _) o _ Hcols Hbad Hrow' Hlen')
      by lia.
    simpl. rewrite list_insert_insert_eq. rewrite (drop_S _ _ _ Hx).
    now rewrite (written_cons _ _ _ _ _ _ _ Hidx).
Qed.

(** An update that names a column the table does not have throws the
    lookup error at the first chosen row, when it reaches that name: the
    assignments to the columns named before it have been made in that
    row and stay made; the rows before and after are untouched, and
    nothing is printed. *)
Theorem updateQuery_unknown_column :
  forall (csv : CSV) (before after : list CSVRow) (r : CSVRow)
         (mustWait : bool) (pre post : StrVec) (bad : string)
         (values : StrVec) (w : Z) (c v : string) (o : string),
    csvRows csv = (before ++ r :: after)%list ->
    Forall (fun row => rowMatches E row w c v = Ok false) before ->
    rowMatches E r w c v = Ok true ->
    length r = length (getColumnNames csv) ->
    valid_columns csv pre ->
    bad ∉ getColumnNames csv ->
    length pre < length values ->
    updateQuery E mustWait (pre ++ bad :: post) values w c v (mkQ csv o)
    = (Throw (LookupError bad),
       mkQ (mkCSV (getColumnNames csv)
              (before ++ written (getColumnNames csv) pre values r :: after))
           o).
Proof.
  intros csv before after r mw pre post bad vals w c v o
         Hrows Hun Hr Hlen Hpre Hbad Hvals.
  unfold updateQuery.
  unfold bind at 1. unfold get at 1. unfold bind at 1. simpl tbl.
  rewrite Hrows at 1. rewrite length_app. simpl length.
  rewrite (forRows_skip E _ w c v (mkQ csv o) 0 _ (r :: after)).
  - simpl forRows. unfold bind at 1.
    assert (Hrow : csvRows csv !! length before = Some r)
      by (rewrite Hrows; now apply list_lookup_middle).
    unfold updateRow, currentRow, index. unfold bind at 1 2.
    unfold get at 1, lift at 1. simpl. rewrite Hrow.
    unfold bind at 1. unfold lift at 1. rewrite Hr.
    unfold bind at 1.
    rewrite (assignCols_unknown _ _ _ _ _ 0 csv o r Hpre Hbad Hrow Hlen)
      by (simpl; lia).
    rewrite drop_0. do 3 f_equal. rewrite Hrows.
    rewrite <- (Nat.add_0_r (length before)) at 1.
    now rewrite insert_app_r.
  - intros i row Hrow Hm. now apply (updateRow_unchosen E _ _ _ _ _ _ _ _ row).
  - simpl. exact Hrows.
  - exact Hun.
Qed.

Lemma displayCols_unknown (csv : CSV) (row : CSVRow) (bad : string)
  (post : StrVec) (pre : StrVec) :
  valid_columns csv pre ->
  bad ∉ getColumnNames csv ->
  length row = length (getColumnNames csv) ->
  forall (d o : string),
    displayCols row (pre ++ bad :: post) d (mkQ csv o)
    = (Throw (LookupError bad),
       mkQ csv (o +:+ joined d (project csv row pre) +:+
                match pre with [] => d | _ => TAB end)).
Proof.
  intros Hpre Hbad Hlen.
  induction Hpre as [|c cols Hc Hcols IH]; intros d o.
  - simpl. unfold bind, put, modify, get, lift, getColumnIndex. simpl.
    now rewrite (find_index_None _ _ Hbad).
  - destruct (find_index_elem _ _ Hc) as [i Hi].
    pose proof (find_index_Some _ _ _ Hi) as Hlook.
    destruct (row !! i) as [x|] eqn:Hx.
    2:{ apply lookup_ge_None in Hx. apply lookup_lt_Some in Hlook. lia. }
    unfold project. rewrite fmap_cons, Hi, Hx. fold (project csv row cols).
    simpl app. simpl displayCols.
    unfold bind, put, modify, get, lift, getColumnIndex. simpl.
    rewrite Hi, (at_lookup _ _ _ Hx). rewrite IH.
    simpl. rewrite !append_assoc. now destruct cols.
Qed.

(** A select that names a column the table does not have throws the
    lookup error at the first chosen row, when it reaches that name: by
    then it has printed the header line, the values of the columns named
    before it, and the delimiter of the one it cannot find.  The table is
    unchanged. *)
Theorem selectQuery_unknown_column :
  forall (csv : CSV) (before after : list CSVRow) (r : CSVRow)
         (mustWait : bool) (pre post : StrVec) (bad : string)
         (w : Z) (c v : string) (o : string),
    csvRows csv = (before ++ r :: after)%list ->
    Forall (fun row => rowMatches E row w c v = Ok false) before ->
    rowMatches E r w c v = Ok true ->
    length r = length (getColumnNames csv) ->
    valid_columns csv pre ->
    bad ∉ getColumnNames csv ->
    hd "" (pre ++ bad :: post) <> "*" ->
    selectQuery E mustWait (pre ++ bad :: post) w c v (mkQ csv o)
    = (Throw (LookupError bad),
       mkQ csv (o +:+ showStrVec E (pre ++ bad :: post) +:+ LF +:+
                String.concat TAB (project csv r pre) +:+
                match pre with [] => "" | _ => TAB end)).
Proof.
  intros csv before after r mw pre post bad w c v o
         Hrows Hun Hr Hlen Hpre Hbad Hstar.
  unfold selectQuery. unfold bind at 1.
  assert (Hexp : expandStar (pre ++ bad :: post) (mkQ csv o)
                 = (Ok (pre ++ bad :: post)%list, mkQ csv o)).
  { rewrite expandStar_ok by now destruct pre.
    unfold expanded. destruct (pre ++ bad :: post)%list as [|c0 l] eqn:Hl;
      [reflexivity|].
    simpl in Hstar. apply String.eqb_neq in Hstar. now rewrite Hstar. }
  rewrite Hexp.
  unfold bind at 1. unfold get at 1. unfold bind at 1. simpl tbl.
  rewrite Hrows at 1. rewrite length_app. simpl length.
  rewrite (forRows_skip E _ w c v (mkQ csv o) 0 _ (r :: after)).
  - simpl forRows. unfold bind at 1.
    assert (Hrow : csvRows csv !! length before = Some r)
      by (rewrite Hrows; now apply list_lookup_middle).
    unfold selectRow, currentRow, index. unfold bind at 1 2.
    unfold get at 1, lift at 1. simpl. rewrite Hrow.
    unfold bind at 1. unfold lift at 1. rewrite Hr.
    unfold bind at 1. unfold display. simpl Nat.eqb.
    unfold bind at 1. unfold bind at 1. unfold bind at 1.
    unfold put at 1, modify. simpl. unfold endl at 1, put at 1, modify. simpl.
    rewrite (displayCols_unknown csv r bad post pre Hpre Hbad Hlen).
    rewrite joined_concat. rewrite !append_assoc. reflexivity.
  - intros i row Hrow Hm. now apply (selectRow_unchosen E _ _ _ _ _ _ _ row).
  - simpl. exact Hrows.
  - exact Hun.
Qed.

End UnknownColumn.

(** * Further properties of the threads on a table *)

Section NotifyFacts.

Variable E : engine_env.

Lemma advance_quiet {A} (csv : CSV) (t : thread) (c : M qstate A)
  (p : A -> pc) :
  (advance csv t c (fun a => (p a, false))).2 = false.
Proof.
  unfold advance. destruct (c (mkQ csv (out t))) as [[a|e|u] q]; reflexivity.
Qed.

(** Only the end of an update that changed a row notifies. *)
Lemma thread_step_notified (csv : CSV) (t : thread) :
  (thread_step E csv t).2 = true ->
  exists mw cols vals w c v i n,
    at_pc t = InUpdate mw cols vals w c v i n
    /\ length (csvRows csv) <= i /\ 0 < n.
Proof.
  unfold thread_step. destruct (at_pc t) as [[]| | | | | |] eqn:Hpc;
    try discriminate.
  - now rewrite advance_quiet.
  - case_decide; [now rewrite advance_quiet|].
    unfold advance, selectFinish.
    destruct (mustWait && Nat.eqb numRows 0); discriminate.
  - case_decide; [now rewrite advance_quiet|].
    unfold advance, updateFinish.
    destruct (mustWait && Nat.eqb numRows 0); [discriminate|].
    simpl. destruct numRows as [|n]; [discriminate|]. intros _.
    exists mustWait, colNames, values, whereColIdx, cond, value, i, (S n).
    repeat split; lia.
Qed.

(** The step of an update that is over its loop with a row changed. *)
Lemma update_end_step (s : table_sys) (k : nat) (mw : bool)
  (cols vals : StrVec) (w : Z) (c v : string) (i n : nat) (o : string) :
  threads s !! k = Some (mkThread (InUpdate mw cols vals w c v i n) o) ->
  length (csvRows (shared s)) <= i ->
  0 < n ->
  table_step E s k
  = mkSys (shared s)
      (wake <$> <[k := mkThread Finished
                         (o +:+ pretty n +:+ " row(s) updated." +:+ LF)]>
                  (threads s))
      (release k (csvMutex s)).
Proof.
  intros Hk Hi Hn. unfold table_step. rewrite Hk. unfold thread_step. simpl.
  case_decide; [lia|]. unfold advance, updateFinish. simpl.
  destruct n as [|n]; [lia|]. rewrite andb_false_r.
  unfold bind, put, endl, put, modify, ret. simpl.
  now rewrite !append_assoc.
Qed.

(** What a step can be: nothing, a woken thread getting the mutex, or a
    piece of a query, after which the thread is where the piece left it or
    has locked the mutex it owns. *)
Lemma table_step_cases (s : table_sys) (k : nat) :
  table_step E s k = s
  \/ (exists t c,
        threads s !! k = Some t /\ at_pc t = Woken c
        /\ table_step E s k
           = mkSys (shared s)
                   (<[k := mkThread (Enter c) (out t)]> (threads s)) (Some k))
  \/ (exists t ts m,
        threads s !! k = Some t
        /\ table_step E s k = mkSys (thread_step E (shared s) t).1.1 ts m
        /\ let t' := (thread_step E (shared s) t).1.2 in
           ts = <[k := t']> (threads s)
           \/ (ts = wake <$> <[k := t']> (threads s)
               /\ (thread_step E (shared s) t).2 = true)
           \/ ts = <[k := mkThread (Crashed (inr MutexRelock)) (out t')]>
                     (threads s)).
Proof.
  unfold table_step. destruct (threads s !! k) as [t|] eqn:Hk; [|now left].
  destruct (at_pc t) as [c| | |c|c| |r] eqn:Hpc; try (now left).
  4:{ destruct (csvMutex s); [now left|].
      right. left. exists t, c. auto. }
  all: destruct (thread_step E (shared s) t) as [[csv' t'] notified] eqn:Hstep;
    simpl;
    destruct (at_pc t') as [c'| | |c'|c'| |[e|u]];
    try destruct (csvMutex s) as [h|];
    try destruct (decide (h = k));
    try destruct notified;
    first [ now left
          | right; right; exists t; rewrite Hstep; simpl; eexists _, _;
            split; [reflexivity|]; split; [reflexivity|]; auto ].
Qed.

Lemma stopped_step (s : table_sys) (k : nat) (t : thread) :
  threads s !! k = Some t ->
  (forall c, at_pc t <> Enter c) ->
  (forall mw cols w c v i n, at_pc t <> InSelect mw cols w c v i n) ->
  (forall mw cols vals w c v i n, at_pc t <> InUpdate mw cols vals w c v i n) ->
  (forall c, at_pc t <> Woken c) ->
  table_step E s k = s.
Proof.
  intros Hk H1 H2 H3 H4. unfold table_step. rewrite Hk.
  destruct (at_pc t) eqn:Hpc; try reflexivity.
  - now destruct (H1 c).
  - now destruct (H2 mustWait colNames whereColIdx cond value i numRows).
  - now destruct (H3 mustWait colNames values whereColIdx cond value i numRows).
  - now destruct (H4 retry).
Qed.

(** A thread blocked in [csvCondVar.wait] leaves the wait in exactly two
    cases: it wakes by itself, or an update that changed at least one row
    comes to its end and notifies.  Every other move of any thread leaves
    it waiting, with the output it had.  A thread that has left the wait
    makes its call again once it has locked [csvMutex] again, which it can
    only while no thread owns the mutex. *)
Theorem waiting_until_update_ends :
  forall (s : table_sys) (j : nat) (c : call) (o : string),
    (threads s !! j = Some (mkThread (InWait c) o) ->
     forall m : move,
       (wakes s m j ->
        threads (table_move E s m) !! j = Some (mkThread (Woken c) o))
       /\ (~ wakes s m j ->
           threads (table_move E s m) !! j = Some (mkThread (InWait c) o)))
    /\ (threads s !! j = Some (mkThread (Woken c) o) ->
        table_step E s j
        = match csvMutex s with
          | None =>
              mkSys (shared s) (<[j := mkThread (Enter c) o]> (threads s))
                    (Some j)
          | Some _ => s
          end).
Proof.
  intros s j c o. split.
  - intros Hj m. split.
    + intros [->|(k & -> & Hends)]; simpl.
      * unfold spurious_wake. simpl.
        rewrite list_lookup_alter_eq, Hj. reflexivity.
      * destruct Hends as (mw & cols & vals & w & c' & v & i & n & o' &
                           Hk & Hi & Hn).
        rewrite (update_end_step s k mw cols vals w c' v i n o' Hk Hi Hn).
        simpl.
        assert (Hkj : k <> j) by (intros ->; congruence).
        rewrite list_lookup_fmap, list_lookup_insert_ne, Hj by exact Hkj.
        reflexivity.
    + intros Hno. destruct m as [k|k]; simpl.
      * destruct (decide (k = j)) as [->|Hkj].
        { rewrite (stopped_step s j _ Hj); [exact Hj|discriminate..]. }
        destruct (table_step_cases s k)
          as [->|[(t & c' & Hk & Hpc & ->)|(t & ts & m & Hk & -> & Hts)]];
          [exact Hj | simpl; now rewrite list_lookup_insert_ne |].
        simpl. destruct Hts as [->|[[-> Hnote]| ->]].
        -- now rewrite list_lookup_insert_ne.
        -- exfalso. apply Hno. right. exists k. split; [reflexivity|].
           destruct (thread_step_notified _ _ Hnote)
             as (mw & cols & vals & w & c' & v & i & n & Hpc & Hi & Hn).
           exists mw, cols, vals, w, c', v, i, n, (out t).
           split; [|now split]. rewrite Hk. f_equal.
           destruct t as [p o']. simpl in Hpc. now subst p.
        -- now rewrite list_lookup_insert_ne.
      * unfold spurious_wake. simpl.
        rewrite list_lookup_alter_ne; [exact Hj|].
        intros ->. apply Hno. now left.
  - intros Hj. unfold table_step. rewrite Hj. reflexivity.
Qed.

(** The end of an update that changed at least one row wakes every
    waiting thread of the table at once and leaves the table as it is;
    the update's thread has printed its count, and does not own
    [csvMutex]. *)
Theorem update_end_wakes_all :
  forall (s : table_sys) (k : nat) (mw : bool) (cols vals : StrVec) (w : Z)
         (c v : string) (i n : nat) (o : string),
    threads s !! k = Some (mkThread (InUpdate mw cols vals w c v i n) o) ->
    length (csvRows (shared s)) <= i ->
    0 < n ->
    shared (table_step E s k) = shared s
    /\ threads (table_step E s k) !! k
       = Some (mkThread Finished
                        (o +:+ pretty n +:+ " row(s) updated." +:+ LF))
    /\ (forall j retry o',
          threads s !! j = Some (mkThread (InWait retry) o') ->
          threads (table_step E s k) !! j = Some (mkThread (Woken retry) o'))
    /\ (forall j t, threads (table_step E s k) !! j = Some t ->
                    forall retry, at_pc t <> InWait retry)
    /\ csvMutex (table_step E s k) = release k (csvMutex s).
Proof.
  intros s k mw cols vals w c v i n o Hk Hi Hn.
  rewrite (update_end_step s k mw cols vals w c v i n o Hk Hi Hn).
  simpl. apply lookup_lt_Some in Hk as Hlt.
  repeat split.
  - rewrite list_lookup_fmap, list_lookup_insert_eq by exact Hlt. reflexivity.
  - intros j retry o' Hj.
    assert (Hjk : k <> j).
    { intros ->. rewrite Hj in Hk. discriminate. }
    rewrite list_lookup_fmap, list_lookup_insert_ne, Hj by exact Hjk.
    reflexivity.
  - intros j t Ht retry. rewrite list_lookup_fmap in Ht.
    destruct (_ !! j) as [t0|]; [|discriminate].
    injection Ht as <-. unfold wake.
    destruct (at_pc t0) eqn:Hpc; simpl; rewrite ?Hpc; discriminate.
Qed.

Lemma advance_shape {A} (csv : CSV) (t : thread) (c : M qstate A)
  (k : A -> pc * bool) :
  preserves (fun q => shape (tbl q)) c ->
  shape (advance csv t c k).1.1 = shape csv.
Proof.
  intros Hc. unfold advance. specialize (Hc (mkQ csv (out t))).
  destruct (c (mkQ csv (out t))) as [[a|e|u] q]; simpl in *;
    [destruct (k a)|..]; exact Hc.
Qed.

Lemma preserves_tbl_shape {A} (c : M qstate A) :
  preserves tbl c -> preserves (fun q => shape (tbl q)) c.
Proof. intros H q. now rewrite H. Qed.

Lemma preserves_still {S X A} (f : S -> X) (c : M S A) :
  (forall s, (c s).2 = s) -> preserves f c.
Proof. intros H s. now rewrite H. Qed.

Lemma expandStar_tbl (cols : StrVec) : preserves tbl (expandStar cols).
Proof.
  unfold expandStar. apply preserves_bind; [apply preserves_pure|].
  intros c0. apply preserves_bind; [apply preserves_get|].
  intros q s. reflexivity.
Qed.

Lemma selectFinish_tbl (mw : bool) (cols : StrVec) (w : Z) (c v : string)
  (n : nat) :
  preserves tbl (selectFinish mw cols w c v n).
Proof.
  unfold selectFinish. destruct (mw && Nat.eqb n 0); [intros s; reflexivity|].
  apply preserves_bind; [apply (preserves_put id)|]. intros _.
  apply preserves_bind; [apply (preserves_put id)|]. intros _ s.
  reflexivity.
Qed.

Lemma updateFinish_tbl (mw : bool) (cols vals : StrVec) (w : Z) (c v : string)
  (n : nat) :
  preserves tbl (updateFinish mw cols vals w c v n).
Proof.
  unfold updateFinish. destruct (mw && Nat.eqb n 0); [intros s; reflexivity|].
  apply preserves_bind; [apply (preserves_put id)|]. intros _.
  apply preserves_bind; [apply (preserves_put id)|]. intros _ s.
  reflexivity.
Qed.

Lemma thread_step_shape (csv : CSV) (t : thread) :
  shape (thread_step E csv t).1.1 = shape csv.
Proof.
  unfold thread_step. destruct (at_pc t) as [[]| | | | | |]; try reflexivity.
  - apply advance_shape, preserves_tbl_shape, expandStar_tbl.
  - case_decide; apply advance_shape, preserves_tbl_shape.
    + apply selectRow_tbl.
    + apply selectFinish_tbl.
  - case_decide; apply advance_shape.
    + apply updateRow_shape.
    + apply preserves_tbl_shape, updateFinish_tbl.
Qed.

Lemma table_move_shape (s : table_sys) (m : move) :
  shape (shared (table_move E s m)) = shape (shared s)
  /\ length (threads (table_move E s m)) = length (threads s).
Proof.
  destruct m as [k|k]; simpl.
  - destruct (table_step_cases s k)
      as [->|[(t & c' & Hk & Hpc & ->)|(t & ts & m & Hk & -> & Hts)]];
      simpl; [now split | now rewrite length_insert |].
    split; [apply thread_step_shape|].
    destruct Hts as [->|[[-> _]| ->]];
      now rewrite ?length_fmap, length_insert.
  - split; [reflexivity|]. apply length_alter.
Qed.

(** Whatever the threads, however they are scheduled and whichever
    waiting threads wake by themselves, the shared table keeps its column
    names, its number of rows and the number of fields of each row, and
    no thread appears or disappears. *)
Theorem table_run_keeps_shape :
  forall (sched : list move) (s : table_sys),
    shape (shared (table_exec E sched s)) = shape (shared s)
    /\ length (threads (table_exec E sched s)) = length (threads s)
    /\ (well_formed (shared s) -> well_formed (shared (table_exec E sched s))).
Proof.
  assert (H : forall sched s,
    shape (shared (table_exec E sched s)) = shape (shared s)
    /\ length (threads (table_exec E sched s)) = length (threads s)).
  { induction sched as [|m sched IH]; intros s; [now split|].
    change (table_exec E (m :: sched) s)
      with (table_exec E sched (table_move E s m)).
    destruct (IH (table_move E s m)) as [H1 H2].
    destruct (table_move_shape s m) as [H3 H4]. split; congruence. }
  intros sched s. destruct (H sched s) as [H1 H2].
  repeat split; auto. now apply well_formed_shape.
Qed.

Lemma advance_selecting {A} (csv : CSV) (t : thread) (c : M qstate A)
  (k : A -> pc * bool) :
  preserves tbl c ->
  (forall a, selecting (mkThread (k a).1 "") /\ (k a).2 = false) ->
  (advance csv t c k).1.1 = csv
  /\ selecting (advance csv t c k).1.2
  /\ (advance csv t c k).2 = false.
Proof.
  intros Hc Hk. unfold advance. specialize (Hc (mkQ csv (out t))).
  destruct (c (mkQ csv (out t))) as [[a|e|u] q]; simpl in *;
    [|repeat split; auto..].
  destruct (Hk a) as [Hsel Hflag]. destruct (k a) as [p n]. simpl in *.
  repeat split; auto.
Qed.

Lemma thread_step_selecting (csv : CSV) (t : thread) :
  selecting t ->
  (thread_step E csv t).1.1 = csv
  /\ selecting (thread_step E csv t).1.2
  /\ (thread_step E csv t).2 = false.
Proof.
  intros Hsel. unfold thread_step. unfold selecting in Hsel.
  destruct (at_pc t) as [[]| | |[]|[]| |] eqn:Hpc; try contradiction;
    try (repeat split; unfold selecting; simpl; now rewrite ?Hpc).
  - apply advance_selecting; [apply expandStar_tbl|]. intros; now split.
  - case_decide.
    + apply advance_selecting; [apply selectRow_tbl|]. intros; now split.
    + unfold advance, selectFinish.
      destruct (mustWait && Nat.eqb numRows 0); simpl; repeat split.
Qed.

Lemma wake_selecting (t : thread) : selecting t -> selecting (wake t).
Proof.
  unfold selecting, wake. destruct (at_pc t) as [| | |[]| | |] eqn:Hpc;
    simpl; rewrite ?Hpc; auto.
Qed.

(** Selects never write: when every thread of the system executes a
    select, the shared table is the same after every schedule, whichever
    waiting threads wake by themselves, and every thread is still one that
    executes a select. *)
Theorem selects_keep_table :
  forall (sched : list move) (s : table_sys),
    Forall selecting (threads s) ->
    shared (table_exec E sched s) = shared s
    /\ Forall selecting (threads (table_exec E sched s)).
Proof.
  induction sched as [|m sched IH]; intros s Hall; [now split|].
  change (table_exec E (m :: sched) s)
    with (table_exec E sched (table_move E s m)).
  assert (Hstep : shared (table_move E s m) = shared s
                  /\ Forall selecting (threads (table_move E s m))).
  { destruct m as [k|k]; simpl.
    - destruct (table_step_cases s k)
        as [->|[(t & c' & Hk & Hpc & ->)|(t & ts & m & Hk & -> & Hts)]];
        simpl; [now split | |].
      + split; [reflexivity|]. apply Forall_insert; [exact Hall|].
        assert (Ht : selecting t).
        { rewrite Forall_forall in Hall. apply Hall.
          eapply list_elem_of_lookup_2, Hk. }
        unfold selecting in *. rewrite Hpc in Ht. simpl.
        now destruct c'.
      + assert (Ht : selecting t).
        { rewrite Forall_forall in Hall. apply Hall.
          eapply list_elem_of_lookup_2, Hk. }
        destruct (thread_step_selecting (shared s) t Ht) as (H1 & H2 & H3).
        split; [exact H1|].
        destruct Hts as [->|[[-> _]| ->]].
        * now apply Forall_insert.
        * apply Forall_fmap. apply Forall_insert; [|now apply wake_selecting].
          eapply Forall_impl; [exact Hall|]. apply wake_selecting.
        * now apply Forall_insert.
    - split; [reflexivity|]. unfold spurious_wake. simpl.
      apply Forall_alter; [exact Hall|]. intros t _. apply wake_selecting. }
  destruct Hstep as [Hshared Hsel].
  destruct (IH _ Hsel) as [H1 H2]. split; [congruence|exact H2].
Qed.

End NotifyFacts.

(** * Further properties of the accept loop *)

Section AcceptLoopEdges.

Lemma server_run_app (maxThr : Z) (l1 l2 : list label) (s : server) :
  server_run maxThr (l1 ++ l2) s
  = server_run maxThr l2 (server_run maxThr l1 s).
Proof. apply foldl_app. Qed.

(** With [0 <= maxThr], in every interleaving the counter [numThreads] is
    between -1 and [maxThr]; it is the number of workers handling a
    request, except between the start of a worker's thread and the
    increment, where it is one less. *)
Theorem counter_counts_workers :
  forall (maxThr : Z) (w : world) (sched : list label),
    (0 <= maxThr)%Z ->
    let s := server_run maxThr sched (server_init w) in
    (-1 <= numThreads (sql s) <= maxThr)%Z
    /\ (acceptor s <> ASpawned -> numThreads (sql s) = handling s)
    /\ (acceptor s = ASpawned -> (numThreads (sql s) + 1)%Z = handling s).
Proof.
  intros maxThr w sched Hmax s.
  assert (Hinv : counter_inv maxThr s).
  { apply server_run_inv. split; simpl; [exact Hmax | reflexivity]. }
  destruct Hinv as [Hle Hpc].
  assert (Hnonneg : (0 <= handling s)%Z) by (unfold handling; lia).
  destruct (acceptor s); repeat split; try congruence; try lia;
    intros; try congruence; lia.
Qed.

(** With [maxThr <= 0] the accept loop never accepts: in every
    interleaving no worker exists, the counter is 0 and the loop is at its
    test or in its wait. *)
Theorem no_capacity_never_accepts :
  forall (maxThr : Z) (w : world) (sched : list label),
    (maxThr <= 0)%Z ->
    let s := server_run maxThr sched (server_init w) in
    workers s = [] /\ numThreads (sql s) = 0%Z
    /\ (acceptor s = ALock \/ acceptor s = AEnterWait \/ acceptor s = AWait).
Proof.
  intros maxThr w sched Hmax.
  set (inv := fun s : server =>
    workers s = [] /\ numThreads (sql s) = 0%Z
    /\ (acceptor s = ALock \/ acceptor s = AEnterWait \/ acceptor s = AWait)).
  assert (Hcheck : forall s, inv s -> inv (checkCapacity maxThr s)).
  { intros s (Hw & Hn & _). unfold checkCapacity.
    destruct (Z.ltb_spec (numThreads (sql s)) maxThr); [lia|].
    repeat split; auto. }
  assert (Hstep : forall l s, inv s -> inv (server_step maxThr s l)).
  { intros l s Hs. destruct l as [|k|]; simpl.
    - unfold acceptor_step. destruct Hs as (Hw & Hn & [Ha|[Ha|Ha]]);
        rewrite Ha.
      + apply Hcheck. unfold inv. auto.
      + repeat split; auto.
      + case_decide; [unfold inv; auto|]. apply Hcheck. unfold inv. auto.
    - unfold worker_step. destruct Hs as (Hw & Hn & Ha). rewrite Hw.
      simpl. unfold inv. auto.
    - destruct Hs as (Hw & Hn & Ha). repeat split; auto. }
  assert (Hrun : forall sched s, inv s -> inv (server_run maxThr sched s)).
  { induction sched0 as [|l sched0 IH]; intros s Hs; [exact Hs|].
    simpl. apply IH, Hstep, Hs. }
  apply Hrun. repeat split; auto.
Qed.

Lemma fill_state (n : nat) (maxThr : Z) (w : world) :
  (Z.of_nat n <= maxThr)%Z ->
  server_run maxThr (fill n) (server_init w)
  = mkServer (set_thrCond [] (set_numThreads (Z.of_nat n) w)) ALock
             (replicate n WHandling).
Proof.
  induction n as [|n IH]; intros Hn; [reflexivity|].
  simpl fill. rewrite server_run_app, IH by lia.
  unfold accept_round, server_run. simpl foldl.
  unfold acceptor_step at 4. simpl. unfold checkCapacity. simpl.
  destruct (Z.ltb_spec (Z.of_nat n) maxThr); [|lia].
  unfold acceptor_step. simpl.
  rewrite <- replicate_S_end. unfold set_numThreads, set_thrCond. simpl.
  do 2 f_equal. lia.
Qed.

Lemma drain_state (n : nat) (maxThr : Z) (w : world) (m : nat) :
  m <= n ->
  server_run maxThr (drain m)
    (mkServer (set_thrCond [] (set_numThreads (Z.of_nat n) w)) AEnterWait
              (replicate n WHandling))
  = mkServer (set_thrCond [] (set_numThreads (Z.of_nat (n - m)) w)) AEnterWait
             (replicate m WExited ++ replicate (n - m) WHandling).
Proof.
  induction m as [|m IH]; intros Hm.
  - simpl. now rewrite Nat.sub_0_r.
  - simpl drain. rewrite server_run_app, IH by lia.
    rewrite (replicate_S_end m WExited), <- app_assoc.
    replace (n - m) with (S (n - S m)) by lia.
    unfold server_run. simpl foldl.
    assert (Hlook : forall p : wpc,
      (replicate m WExited ++ p :: replicate (n - S m) WHandling)%list !! m
      = Some p).
    { intros p. apply list_lookup_middle. now rewrite length_replicate. }
    assert (Hins : forall p p' : wpc,
      <[m := p']> (replicate m WExited ++ p :: replicate (n - S m) WHandling)%list
      = (replicate m WExited ++ p' :: replicate (n - S m) WHandling)%list).
    { intros p p'.
      rewrite <- (Nat.add_0_r m) at 1.
      rewrite <- (length_replicate m WExited) at 1.
      now rewrite insert_app_r. }
    unfold worker_step at 2. simpl. rewrite Hlook, Hins.
    unfold worker_step. simpl. rewrite Hlook, Hins.
    unfold notifyThread, decrementThreads, set_numThreads, set_thrCond.
    simpl. do 2 f_equal. lia.
Qed.

(** The accept loop can stop for good with nothing to wait for.  For every
    [maxThr >= 1]: the loop accepts [maxThr] connections and finds the
    counter at [maxThr]; before it has called [wait], every worker ends,
    decrementing the counter and notifying while nobody waits; then the
    loop waits.  No worker is left, the counter is 0, and no step of the
    loop or of a worker changes the state again: only a wakeup without
    notification would let the server accept another connection. *)
Theorem accept_loop_can_hang :
  forall (n : nat) (w : world),
    0 < n ->
    let maxThr := Z.of_nat n in
    let s := server_run maxThr (hang_schedule n) (server_init w) in
    acceptor s = AWait
    /\ thrCond (sql s) = [acceptorId]
    /\ numThreads (sql s) = 0%Z
    /\ handling s = 0%Z
    /\ forall sched,
         Forall (fun l => l <> Spurious) sched ->
         server_run maxThr sched s = s.
Proof.
  intros n w Hn maxThr s.
  assert (Hs : s = mkServer (set_thrCond [acceptorId] (set_numThreads 0 w))
                            AWait (replicate n WExited)).
  { unfold s, hang_schedule.
    rewrite !server_run_app, fill_state by (unfold maxThr; lia).
    assert (Hfull : server_run maxThr [Acceptor]
        (mkServer (set_thrCond [] (set_numThreads (Z.of_nat n) w)) ALock
                  (replicate n WHandling))
      = mkServer (set_thrCond [] (set_numThreads (Z.of_nat n) w)) AEnterWait
                 (replicate n WHandling)).
    { unfold server_run. simpl. unfold acceptor_step, checkCapacity. simpl.
      destruct (Z.ltb_spec (Z.of_nat n) maxThr); [unfold maxThr in *; lia|].
      reflexivity. }
    rewrite Hfull, (drain_state n maxThr w n) by lia.
    rewrite Nat.sub_diag. simpl replicate. rewrite app_nil_r.
    reflexivity. }
  rewrite Hs. simpl. repeat split.
  - unfold handling. simpl. clear. induction n as [|n IH]; [reflexivity|].
    simpl. rewrite filter_cons. simpl. exact IH.
  - induction sched as [|l sched IH]; intros Hsched; [reflexivity|].
    apply Forall_cons in Hsched as [Hl Hsched].
    simpl. destruct l as [|k|]; simpl; [| |contradiction].
    + unfold acceptor_step. cbn [acceptor sql thrCond set_thrCond].
      destruct (decide (acceptorId ∈ [acceptorId])) as [_|Hin];
        [now apply IH|].
      exfalso. apply Hin. now apply list_elem_of_singleton.
    + unfold worker_step. simpl.
      destruct (replicate n WExited !! k) as [p|] eqn:Hk; [|now apply IH].
      apply lookup_replicate_1 in Hk as [-> _]. now apply IH.
Qed.

End AcceptLoopEdges.

(** * Further properties of the table cache *)

Section CacheEdges.

Variable X : server_env.

(** [loadAndGet] never removes or replaces a cached table, and never
    touches the files, the worker counter or the waiting threads, whether
    it returns or throws. *)
Theorem loadAndGet_keeps_cached :
  forall (fileOrURL : string) (w : world),
    let w' := (loadAndGet X fileOrURL w).2 in
    (forall key csv,
        inMemoryCSV w !! key = Some csv -> inMemoryCSV w' !! key = Some csv)
    /\ files w' = files w
    /\ numThreads w' = numThreads w
    /\ thrCond w' = thrCond w.
Proof.
  intros f w. simpl. rewrite loadAndGet_unfold. simpl.
  destruct (inMemoryCSV w !! effective f w) as [c|] eqn:Hkey;
    [repeat split; auto|].
  destruct (loadCSV X (files w) (effective f w)) as [csv|e|u]; simpl;
    repeat split; auto.
  intros key c Hc. rewrite lookup_insert_ne; [exact Hc|].
  intros <-. congruence.
Qed.

(** After a successful [loadAndGet] the returned identifier is the
    most-recently-used one and is in the cache, with the table that was
    there or the table just loaded.  Asking again, with the same
    identifier or with the empty one, returns the same identifier and
    leaves the state as it is: no second load is made. *)
Theorem loadAndGet_then_cached :
  forall (fileOrURL key : string) (w w1 : world),
    loadAndGet X fileOrURL w = (Ok key, w1) ->
    key = effective fileOrURL w
    /\ recentCSV w1 = key
    /\ (exists csv,
          inMemoryCSV w1 !! key = Some csv
          /\ (inMemoryCSV w !! key = Some csv
              \/ (inMemoryCSV w !! key = None
                  /\ loadCSV X (files w) key = Ok csv)))
    /\ loadAndGet X "" w1 = (Ok key, w1)
    /\ loadAndGet X key w1 = (Ok key, w1).
Proof.
  intros f key w w1 H. rewrite loadAndGet_unfold in H. simpl in H.
  assert (Hagain : forall id w2,
    recentCSV w2 = key -> is_Some (inMemoryCSV w2 !! key) ->
    id = "" \/ id = key ->
    loadAndGet X id w2 = (Ok key, w2)).
  { intros id w2 Hrecent [c Hc] Hid. rewrite loadAndGet_unfold. simpl.
    assert (Heff : effective id w2 = key).
    { unfold effective. destruct Hid as [->| ->]; [exact Hrecent|].
      destruct (String.eqb_spec key ""); congruence. }
    rewrite Heff, Hc. now rewrite <- Hrecent, set_recentCSV_same. }
  destruct (inMemoryCSV w !! effective f w) as [c|] eqn:Hkey.
  - injection H as <- <-. simpl.
    refine (conj eq_refl (conj eq_refl (conj _ (conj _ _)))).
    + exists c. split; [exact Hkey|now left].
    + apply Hagain; simpl; eauto.
    + apply Hagain; simpl; eauto.
  - destruct (loadCSV X (files w) (effective f w)) as [csv|e|u] eqn:Hload;
      try discriminate.
    injection H as <- <-. simpl.
    assert (Hin : <[effective f w := csv]> (inMemoryCSV w) !! effective f w
                  = Some csv) by apply lookup_insert_eq.
    refine (conj eq_refl (conj eq_refl (conj _ (conj _ _)))).
    + exists csv. split; [exact Hin|]. right. now split.
    + apply Hagain; simpl; eauto.
    + apply Hagain; simpl; eauto.
Qed.

(** What [saveQuery] has written is what a later [loadAndGet] reads: when
    the file can be opened for writing and the table's text, given to
    [CSV::load], yields the table again, a server that starts with an
    empty cache and the files as [saveQuery] left them gets the saved
    table under the same identifier. *)
Theorem save_then_load :
  forall (w : world) (os : string) (csv : CSV) (text : string),
    recentCSV w <> "" ->
    String.prefix "http://" (recentCSV w) = false ->
    inMemoryCSV w !! recentCSV w = Some csv ->
    can_open X (recentCSV w) = true ->
    csv_save X true csv = Ok text ->
    csv_load X (stream_of text) = Ok csv ->
    let saved := (saveQuery X (w, os)).2.1 in
    let restarted := mkWorld ∅ "" 0 [] (files saved) in
    (saveQuery X (w, os)).1 = Ok tt
    /\ files saved !! recentCSV w = Some text
    /\ (loadAndGet X (recentCSV w) restarted).1 = Ok (recentCSV w)
    /\ inMemoryCSV (loadAndGet X (recentCSV w) restarted).2 !! recentCSV w
       = Some csv.
Proof.
  intros w os csv text Hne Hhttp Hin Hopen Hsave Hload.
  rewrite (saveQuery_saves X w os csv text Hne Hhttp Hin Hopen Hsave). simpl.
  rewrite loadAndGet_unfold. simpl.
  assert (Heff : effective (recentCSV w) (mkWorld ∅ "" 0 []
                   (<[recentCSV w := text]> (files w))) = recentCSV w).
  { unfold effective. apply String.eqb_neq in Hne. now rewrite Hne. }
  rewrite Heff, lookup_empty. unfold loadCSV. rewrite Hhttp.
  unfold ifstream. apply String.eqb_neq in Hne. rewrite Hne.
  rewrite lookup_insert_eq, Hload. simpl.
  repeat split; apply lookup_insert_eq.
Qed.

End CacheEdges.

Lemma loadAndGet_then_cached_witness :
  let w1 := mkWorld {["t.csv" := a_table]} "t.csv" 0 []
                    {["t.csv" := "a" +:+ LF]} in
  "t.csv" = effective "t.csv" world_with_file
  /\ recentCSV w1 = "t.csv"
  /\ (exists csv,
        inMemoryCSV w1 !! "t.csv" = Some csv
        /\ (inMemoryCSV world_with_file !! "t.csv" = Some csv
            \/ (inMemoryCSV world_with_file !! "t.csv" = None
                /\ loadCSV (offline load_strict) (files world_with_file)
                           "t.csv" = Ok csv)))
  /\ loadAndGet (offline load_strict) "" w1 = (Ok "t.csv", w1)
  /\ loadAndGet (offline load_strict) "t.csv" w1 = (Ok "t.csv", w1).
Proof.
  intros w1.
  apply (loadAndGet_then_cached (offline load_strict) "t.csv" "t.csv"
           world_with_file w1).
  reflexivity.
Defined.

Lemma save_then_load_witness :
  let X := offline load_strict in
  let saved := (saveQuery X (world_with_table, "")).2.1 in
  let restarted := mkWorld ∅ "" 0 [] (files saved) in
  (saveQuery X (world_with_table, "")).1 = Ok tt
  /\ files saved !! "t.csv" = Some ("a" +:+ LF)
  /\ (loadAndGet X "t.csv" restarted).1 = Ok "t.csv"
  /\ inMemoryCSV (loadAndGet X "t.csv" restarted).2 !! "t.csv"
     = Some a_table.
Proof.
  intros X.
  apply (save_then_load X world_with_table "" a_table ("a" +:+ LF));
    [discriminate | reflexivity..].
Defined.

(** * Further properties of the streams, [setupDownload] and
    [clientThread] *)

Section DownloadFacts.

Variable X : server_env.

(** The stream a successful download returns. *)
Lemma setupDownload_body (hostName path port : string)
  (server : string -> string) (before after : string)
  (headers : list string) (term body : string) :
  network X hostName port = Some server ->
  server path = before +:+ "200 OK" +:+ after +:+ LF +:+
                header_block headers +:+ term +:+ LF +:+ body ->
  no_char 10 before = true ->
  no_char 10 after = true ->
  Forall header_line headers ->
  term = "" \/ term = CR ->
  setupDownload X hostName path port = Ok (stream_of body).
Proof.
  revert hostName path port server before after headers term body.
  intros host path port server before after hs term body
         Hnet Hreply Hb Ha Hhs Hterm.
  unfold setupDownload. rewrite Hnet, Hreply.
  assert (Hstatus : no_char 10 (before +:+ "200 OK" +:+ after) = true).
  { clear -Hb Ha. induction before as [|c b IH]; [exact Ha|].
    simpl in Hb. apply andb_prop in Hb as [Hc Hb].
    rewrite append_cons. simpl. now rewrite Hc, IH. }
  set (R := header_block hs +:+ term +:+ LF +:+ body).
  assert (Hform : before +:+ "200 OK" +:+ after +:+ LF +:+ R
                  = (before +:+ "200 OK" +:+ after) +:+ LF +:+ R)
    by now rewrite !append_assoc.
  rewrite Hform, (getline_line _ _ _ Hstatus).
  rewrite contains_append. simpl negb. cbv iota.
  f_equal. apply (skipHeaders_block hs term body Hhs Hterm).
  pose proof (header_block_length hs (term +:+ LF +:+ body)).
  unfold stream_of. simpl. fold R in H. lia.
Qed.

(** A download succeeds when the first line of the reply contains
    [200 OK]: the stream handed to [CSV::load] then starts right after the
    first header line that is empty or a lone carriage return. *)
Theorem setupDownload_skips_headers :
  forall (hostName path port : string) (server : string -> string)
         (before after : string) (headers : list string)
         (term body : string),
    network X hostName port = Some server ->
    server path = before +:+ "200 OK" +:+ after +:+ LF +:+
                  header_block headers +:+ term +:+ LF +:+ body ->
    no_char 10 before = true ->
    no_char 10 after = true ->
    Forall header_line headers ->
    term = "" \/ term = CR ->
    setupDownload X hostName path port = Ok (stream_of body).
Proof.
  intros hostName path port server before after headers term body.
  apply setupDownload_body.
Qed.

(** A download fails with the project's exception when no connection can
    be made, and when the first line of the reply, or the whole reply if
    it has one line or none, does not contain [200 OK]. *)
Theorem setupDownload_failures :
  forall (hostName path port : string),
    (network X hostName port = None ->
     setupDownload X hostName path port
     = Throw (Exp ("Unable to connect to " +:+ hostName +:+ " at port " +:+
                   port)))
    /\ (forall server,
          network X hostName port = Some server ->
          contains "200 OK" (spanLine (server path)).1 = false ->
          setupDownload X hostName path port
          = Throw (Exp ("Error (" +:+ trim X (spanLine (server path)).1 +:+
                        ") getting " +:+ path +:+ " from " +:+ hostName +:+
                        " at port " +:+ port))).
Proof.
  intros host path port. split.
  - intros Hnet. unfold setupDownload. now rewrite Hnet.
  - intros server Hnet Hno. unfold setupDownload. rewrite Hnet.
    assert (Hstatus : (getline (stream_of (server path)) "").1.2
                      = (spanLine (server path)).1).
    { destruct (server path) as [|c s]; [reflexivity|].
      rewrite getline_nonempty.
      now destruct (spanLine (String c s)) as [l [r|]]. }
    destruct (getline (stream_of (server path)) "") as [[data status] ok].
    simpl in Hstatus. subst status. now rewrite Hno.
Qed.

End DownloadFacts.

Lemma setupDownload_skips_headers_witness :
  setupDownload
    (online ("HTTP/1.1 200 OK" +:+ CR +:+ LF +:+
             header_block ["Content-Type: text/csv" +:+ CR] +:+ CR +:+ LF +:+
             "a,b"))
    "host" "/t.csv" "80"
  = Ok (stream_of "a,b").
Proof.
  apply (setupDownload_skips_headers _ "host" "/t.csv" "80"
           (fun path => "HTTP/1.1 200 OK" +:+ CR +:+ LF +:+
              header_block ["Content-Type: text/csv" +:+ CR] +:+ CR +:+ LF +:+
              "a,b")
           "HTTP/1.1 " CR
           ["Content-Type: text/csv" +:+ CR] CR "a,b").
  - reflexivity.
  - reflexivity.
  - reflexivity.
  - reflexivity.
  - repeat constructor; discriminate.
  - now right.
Defined.

Lemma setupDownload_failures_witness :
  setupDownload (offline load_strict) "host" "/t.csv" "80"
  = Throw (Exp "Unable to connect to host at port 80")
  /\ setupDownload (online ("HTTP/1.1 404 Not Found" +:+ CR +:+ LF))
                   "host" "/t.csv" "80"
     = Throw (Exp ("Error (HTTP/1.1 404 Not Found" +:+ CR +:+
                   ") getting /t.csv from host at port 80")).
Proof.
  split.
  - apply (proj1 (setupDownload_failures (offline load_strict)
                    "host" "/t.csv" "80")).
    reflexivity.
  - apply (proj2 (setupDownload_failures
                    (online ("HTTP/1.1 404 Not Found" +:+ CR +:+ LF))
                    "host" "/t.csv" "80")
             (fun path => "HTTP/1.1 404 Not Found" +:+ CR +:+ LF));
      reflexivity.
Defined.

Section RequestFacts.

Variable X : server_env.

(** A request line whose second word starts with [/sql-air?query=],
    followed by header lines that an empty line ends, has the rest of that
    word decoded and executed, whatever its first word is.  When the query
    returns, the answer is the fixed header, the length of the query's
    output as [Content-Length], an empty line and the output; the worker
    then gives up its slot. *)
Theorem clientThread_query_answer :
  forall (method q line : string) (headers : list string)
         (term rest out : string) (w w1 : world),
    method <> "" -> no_space method = true -> no_space q = true ->
    no_char 10 line = true ->
    Forall header_line headers ->
    term = "" \/ term = CR ->
    process X (url_decode X q) (w, "") = (Ok tt, (w1, out)) ->
    clientThread X
      (stream_of (method +:+ " " +:+ ("/sql-air?query=" +:+ q) +:+ " " +:+
                  line +:+ LF +:+ header_block headers +:+ term +:+ LF +:+
                  rest))
      w
    = (Ok (HTTPRespHeader +:+ pretty (String.length out) +:+
           CRLF +:+ CRLF +:+ out),
       notifyThread (decrementThreads w1)).
Proof.
  intros method q line headers term rest out w w1
         Hm1 Hm2 Hq Hline Hhs Hterm Hproc.
  assert (Hp1 : "/sql-air?query=" +:+ q <> "") by discriminate.
  assert (Hp2 : no_space ("/sql-air?query=" +:+ q) = true)
    by now apply no_space_append.
  rewrite clientThread_request.
  rewrite (requestOf_line method ("/sql-air?query=" +:+ q) _ Hm1 Hm2 Hp1 Hp2).
  rewrite (afterHeaders_request method _ line headers term rest
             Hm1 Hm2 Hp1 Hp2 Hline Hhs Hterm).
  destruct (query_prefix q) as [-> ->].
  unfold bind at 1. unfold bind at 1.
  unfold runQuery, try_catch. rewrite Hproc. reflexivity.
Qed.

(** Every other request line, followed by header lines that an empty line
    ends, is taken as a request for a file: the answer is what
    [http::file] gives for the second word without its first character;
    no query is executed, and apart from the worker giving up its slot the
    state is unchanged. *)
Theorem clientThread_file_answer :
  forall (method path line : string) (headers : list string)
         (term rest : string) (w : world),
    method <> "" -> no_space method = true ->
    path <> "" -> no_space path = true ->
    String.prefix "/sql-air?query=" path = false ->
    no_char 10 line = true ->
    Forall header_line headers ->
    term = "" \/ term = CR ->
    clientThread X
      (stream_of (method +:+ " " +:+ path +:+ " " +:+ line +:+ LF +:+
                  header_block headers +:+ term +:+ LF +:+ rest))
      w
    = (Ok (http_file X (substr 1 path)), notifyThread (decrementThreads w)).
Proof.
  intros method path line headers term rest w
         Hm1 Hm2 Hp1 Hp2 Hpre Hline Hhs Hterm.
  rewrite clientThread_request, (requestOf_line _ _ _ Hm1 Hm2 Hp1 Hp2).
  rewrite (afterHeaders_request method path line headers term rest
             Hm1 Hm2 Hp1 Hp2 Hline Hhs Hterm).
  rewrite Hpre. apply String.eqb_neq in Hp1. rewrite Hp1. reflexivity.
Qed.

(** A client that sends nothing, white space only, or one word only, and
    then ends the connection, gets no answer at all: the stream is not
    good when the answer is to be written.  The worker gives up its slot
    all the same.  The one word is still taken as the request: when it is
    a query, the query is executed, and its output is lost. *)
Theorem clientThread_short_requests :
  forall (blank : string) (w : world),
    skipws blank = "" ->
    clientThread X (stream_of blank) w
    = (Ok "", notifyThread (decrementThreads w))
    /\ (forall word,
          word <> "" -> no_space word = true ->
          String.prefix "/sql-air?query=" word = false ->
          clientThread X (stream_of (word +:+ blank)) w
          = (Ok "", notifyThread (decrementThreads w)))
    /\ (forall q out w1,
          no_space q = true ->
          process X (url_decode X q) (w, "") = (Ok tt, (w1, out)) ->
          clientThread X (stream_of (("/sql-air?query=" +:+ q) +:+ blank)) w
          = (Ok "", notifyThread (decrementThreads w1))).
Proof.
  intros blank w Hblank. split; [|split].
  - rewrite clientThread_request, (requestOf_blank _ Hblank). unfold send.
    destruct (good (afterHeaders (stream_of blank))); reflexivity.
  - intros word Hw1 Hw2 Hpre.
    rewrite clientThread_request, (requestOf_single_word _ _ Hw1 Hw2 Hblank).
    unfold send. rewrite (afterHeaders_short word blank Hw2 Hblank).
    rewrite Hpre. apply String.eqb_neq in Hw1. rewrite Hw1. reflexivity.
  - intros q out w1 Hq Hproc.
    assert (Hp1 : "/sql-air?query=" +:+ q <> "") by discriminate.
    assert (Hp2 : no_space ("/sql-air?query=" +:+ q) = true)
      by now apply no_space_append.
    rewrite clientThread_request, (requestOf_single_word _ _ Hp1 Hp2 Hblank).
    unfold send. rewrite (afterHeaders_short _ blank Hp2 Hblank).
    destruct (query_prefix q) as [-> ->].
    unfold bind at 1. unfold bind at 1.
    unfold runQuery, try_catch. rewrite Hproc. reflexivity.
Qed.

End RequestFacts.

Lemma clientThread_query_answer_witness :
  clientThread echo_env
    (stream_of ("POST" +:+ " " +:+ ("/sql-air?query=" +:+ "select") +:+ " " +:+
                ("HTTP/1.1" +:+ CR) +:+ LF +:+
                header_block ["Host: localhost" +:+ CR] +:+ CR +:+ LF +:+ ""))
    world0
  = (Ok (HTTPRespHeader +:+ "6" +:+ CRLF +:+ CRLF +:+ "select"),
     notifyThread (decrementThreads world0)).
Proof.
  apply (clientThread_query_answer echo_env "POST" "select"
           ("HTTP/1.1" +:+ CR) ["Host: localhost" +:+ CR] CR ""
           "select" world0 world0).
  - discriminate.
  - reflexivity.
  - reflexivity.
  - reflexivity.
  - repeat constructor; discriminate.
  - now right.
  - reflexivity.
Defined.

Lemma clientThread_file_answer_witness :
  clientThread echo_env
    (stream_of ("GET" +:+ " " +:+ "/index.html" +:+ " " +:+
                ("HTTP/1.1" +:+ CR) +:+ LF +:+
                header_block ["Host: localhost" +:+ CR] +:+ CR +:+ LF +:+ ""))
    world0
  = (Ok "file index.html", notifyThread (decrementThreads world0)).
Proof.
  apply (clientThread_file_answer echo_env "GET" "/index.html"
           ("HTTP/1.1" +:+ CR) ["Host: localhost" +:+ CR] CR "" world0).
  - discriminate.
  - reflexivity.
  - discriminate.
  - reflexivity.
  - reflexivity.
  - reflexivity.
  - repeat constructor; discriminate.
  - now right.
Defined.

Lemma clientThread_short_requests_witness :
  clientThread echo_env (stream_of CRLF) world0
  = (Ok "", notifyThread (decrementThreads world0))
  /\ clientThread echo_env (stream_of ("GET" +:+ CRLF)) world0
     = (Ok "", notifyThread (decrementThreads world0))
  /\ clientThread echo_env
       (stream_of (("/sql-air?query=" +:+ "select") +:+ CRLF)) world0
     = (Ok "", notifyThread (decrementThreads world0)).
Proof.
  destruct (clientThread_short_requests echo_env CRLF world0 eq_refl)
    as (Hnone & Hone & Hquery).
  split; [exact Hnone|]. split.
  - apply (Hone "GET"); [discriminate | reflexivity..].
  - apply (Hquery "select" "select" world0); reflexivity.
Defined.

(** * The further properties at concrete inputs *)

Lemma updateQuery_keeps_shape_witness :
  let q := mkQ abc_table "" in
  shape (tbl (updateQuery eq_engine false ["b"; "zz"] ["v"; "w"] 1 "=" "x" q).2)
  = shape abc_table
  /\ well_formed
       (tbl (updateQuery eq_engine false ["b"; "zz"] ["v"; "w"] 1 "=" "x" q).2).
Proof.
  intros q.
  destruct (updateQuery_keeps_shape eq_engine false ["b"; "zz"] ["v"; "w"]
              1 "=" "x" q) as [Hshape Hwf].
  split; [exact Hshape|]. apply Hwf. exact abc_table_well_formed.
Defined.

Lemma selectQuery_no_row_chosen_witness :
  selectQuery eq_engine false ["zz"] 1 "=" "q" (mkQ abc_table "")
  = (Ok (Returned false), mkQ abc_table ("0 row(s) selected." +:+ LF)).
Proof.
  apply (selectQuery_no_row_chosen eq_engine abc_table false ["zz"] 1 "=" "q" "");
    [discriminate | repeat constructor].
Defined.

Lemma updateQuery_no_row_chosen_witness :
  updateQuery eq_engine false ["zz"; "b"] [] 1 "=" "q" (mkQ abc_table "")
  = (Ok (Returned false), mkQ abc_table ("0 row(s) updated." +:+ LF)).
Proof.
  apply (updateQuery_no_row_chosen eq_engine abc_table false ["zz"; "b"] []
           1 "=" "q" "").
  repeat constructor.
Defined.

Lemma where_index_out_of_range_witness :
  selectQuery eq_engine false ["a"] 2 "=" "x" (mkQ abc_table "")
  = (Throw out_of_range, mkQ abc_table "")
  /\ updateQuery eq_engine false ["a"] ["v"] 2 "=" "x" (mkQ abc_table "")
     = (Throw out_of_range, mkQ abc_table "").
Proof.
  destruct (where_index_out_of_range eq_engine abc_table ["1"; "x"]
              [["2"; "y"]; ["3"; "x"]] false ["a"] ["v"] 2 "=" "x" ""
              eq_refl ltac:(discriminate) ltac:(right; simpl; lia))
    as [Hselect Hupdate].
  split; [apply Hselect; discriminate | exact Hupdate].
Defined.

Lemma updateQuery_unknown_column_witness :
  updateQuery eq_engine false ["a"; "zz"; "b"] ["7"; "8"; "9"] 1 "=" "y"
              (mkQ abc_table "")
  = (Throw (LookupError "zz"),
     mkQ (mkCSV ["a"; "b"] [["1"; "x"]; ["7"; "y"]; ["3"; "x"]]) "").
Proof.
  apply (updateQuery_unknown_column eq_engine abc_table [["1"; "x"]]
           [["3"; "x"]] ["2"; "y"] false ["a"] ["b"] "zz" ["7"; "8"; "9"]
           1 "=" "y" "").
  - reflexivity.
  - repeat constructor.
  - reflexivity.
  - reflexivity.
  - repeat constructor.
  - intros H. apply elem_of_cons in H as [H|H]; [discriminate|].
    apply list_elem_of_singleton in H. discriminate.
  - simpl. lia.
Defined.

Lemma selectQuery_unknown_column_witness :
  selectQuery eq_engine false ["a"; "zz"; "b"] 1 "=" "y" (mkQ abc_table "")
  = (Throw (LookupError "zz"),
     mkQ abc_table ("a" +:+ TAB +:+ "zz" +:+ TAB +:+ "b" +:+ LF +:+
                    "2" +:+ TAB)).
Proof.
  apply (selectQuery_unknown_column eq_engine abc_table [["1"; "x"]]
           [["3"; "x"]] ["2"; "y"] false ["a"] ["b"] "zz" 1 "=" "y" "").
  - reflexivity.
  - repeat constructor.
  - reflexivity.
  - reflexivity.
  - repeat constructor.
  - intros H. apply elem_of_cons in H as [H|H]; [discriminate|].
    apply list_elem_of_singleton in H. discriminate.
  - discriminate.
Defined.

Lemma waiting_until_update_ends_witness :
  threads (table_move eq_engine ready_to_notify (Run 1)) !! 0
  = Some (mkThread (Woken (CSelect true ["status"] 0 "=" "done")) "")
  /\ threads (table_move eq_engine ready_to_notify (WakeUp 0)) !! 0
     = Some (mkThread (Woken (CSelect true ["status"] 0 "=" "done")) "")
  /\ threads (table_move eq_engine ready_to_notify (Run 0)) !! 0
     = Some (mkThread (InWait (CSelect true ["status"] 0 "=" "done")) "").
Proof.
  destruct (waiting_until_update_ends eq_engine ready_to_notify 0
              (CSelect true ["status"] 0 "=" "done") "") as [Hwait _].
  split; [|split].
  - apply (Hwait eq_refl (Run 1)). right. exists 1. split; [reflexivity|].
    exists false, ["status"], ["done"], (-1)%Z, "", "", 1, 1, "".
    split; [reflexivity|]. simpl. lia.
  - apply (Hwait eq_refl (WakeUp 0)). now left.
  - apply (Hwait eq_refl (Run 0)).
    intros [H|(k & H & Hends)]; [discriminate|]. injection H as <-.
    destruct Hends as (mw & cols & vals & w & c & v & i & n & o & Hk & _).
    discriminate Hk.
Defined.

Lemma update_end_wakes_all_witness :
  shared (table_step eq_engine ready_to_notify 1) = shared ready_to_notify
  /\ threads (table_step eq_engine ready_to_notify 1) !! 1
     = Some (mkThread Finished ("1 row(s) updated." +:+ LF))
  /\ (forall j retry o',
        threads ready_to_notify !! j = Some (mkThread (InWait retry) o') ->
        threads (table_step eq_engine ready_to_notify 1) !! j
        = Some (mkThread (Woken retry) o'))
  /\ (forall j t,
        threads (table_step eq_engine ready_to_notify 1) !! j = Some t ->
        forall retry, at_pc t <> InWait retry)
  /\ csvMutex (table_step eq_engine ready_to_notify 1) = None.
Proof.
  apply (update_end_wakes_all eq_engine ready_to_notify 1 false
           ["status"] ["done"] (-1) "" "" 1 1 "");
    [reflexivity | simpl; lia | lia].
Defined.

Lemma table_run_keeps_shape_witness :
  let sched := [Run 1; Run 0; Run 1; WakeUp 0; Run 1; Run 0; Run 1] in
  shape (shared (table_exec eq_engine sched two_threads)) = shape status_table
  /\ length (threads (table_exec eq_engine sched two_threads)) = 2
  /\ well_formed (shared (table_exec eq_engine sched two_threads)).
Proof.
  intros sched.
  destruct (table_run_keeps_shape eq_engine sched two_threads)
    as (Hshape & Hlen & Hwf).
  split; [exact Hshape|]. split; [exact Hlen|].
  apply Hwf. repeat constructor.
Defined.

Lemma selects_keep_table_witness :
  let sched := [Run 0; Run 1; Run 1; Run 0; Run 0; Run 1; Run 0; Run 1;
                WakeUp 1; Run 1; Run 1] in
  shared (table_exec eq_engine sched two_selects) = abc_table
  /\ Forall selecting (threads (table_exec eq_engine sched two_selects)).
Proof.
  intros sched. apply (selects_keep_table eq_engine sched two_selects).
  repeat constructor.
Defined.

Lemma counter_counts_workers_witness :
  let s := server_run 1 [Acceptor; Acceptor; Worker 0] (server_init world0) in
  (-1 <= numThreads (sql s) <= 1)%Z
  /\ (acceptor s <> ASpawned -> numThreads (sql s) = handling s)
  /\ (acceptor s = ASpawned -> (numThreads (sql s) + 1)%Z = handling s).
Proof.
  apply (counter_counts_workers 1 world0 [Acceptor; Acceptor; Worker 0]). lia.
Defined.

Lemma no_capacity_never_accepts_witness :
  let s := server_run 0 [Acceptor; Spurious; Acceptor; Acceptor; Worker 0]
                      (server_init world0) in
  workers s = [] /\ numThreads (sql s) = 0%Z
  /\ (acceptor s = ALock \/ acceptor s = AEnterWait \/ acceptor s = AWait).
Proof.
  apply (no_capacity_never_accepts 0 world0
           [Acceptor; Spurious; Acceptor; Acceptor; Worker 0]).
  lia.
Defined.

Lemma accept_loop_can_hang_witness :
  let s := server_run 2 (hang_schedule 2) (server_init world0) in
  acceptor s = AWait
  /\ thrCond (sql s) = [acceptorId]
  /\ numThreads (sql s) = 0%Z
  /\ handling s = 0%Z
  /\ forall sched,
       Forall (fun l => l <> Spurious) sched ->
       server_run 2 sched s = s.
Proof. apply (accept_loop_can_hang 2 world0). lia. Defined.

Lemma loadAndGet_keeps_cached_witness :
  let w' := (loadAndGet (offline load_strict) "missing.csv"
                        world_with_table).2 in
  inMemoryCSV w' !! "t.csv" = Some a_table
  /\ files w' = files world_with_table.
Proof.
  intros w'.
  destruct (loadAndGet_keeps_cached (offline load_strict) "missing.csv"
              world_with_table) as (Hcache & Hfiles & _).
  split; [apply Hcache; reflexivity | exact Hfiles].
Defined.

(** * A select that has been woken *)

Section Retried.

Variable E : engine_env.

Lemma stopped_in_place (s : table_sys) (j : nat) (t : thread)
  (sched : list nat) :
  threads s !! j = Some t ->
  (forall c, at_pc t <> Enter c) ->
  (forall mw cols w c v i n, at_pc t <> InSelect mw cols w c v i n) ->
  (forall mw cols vals w c v i n, at_pc t <> InUpdate mw cols vals w c v i n) ->
  (forall c, at_pc t <> Woken c) ->
  Forall (fun k => k = j) sched ->
  table_run E sched s = s.
Proof.
  intros Hj H1 H2 H3 H4 Hsched.
  induction Hsched as [|k sched -> Hsched IH]; [reflexivity|].
  rewrite table_run_cons. now rewrite (stopped_step E s j t).
Qed.

Lemma crashed_in_place (csv : CSV) (ts : list thread) (j : nat)
  (r : exn + ub) (o : string) (m : option nat) (sched : list nat) :
  j < length ts ->
  Forall (fun k => k = j) sched ->
  table_run E sched (mkSys csv (<[j := mkThread (Crashed r) o]> ts) m)
  = mkSys csv (<[j := mkThread (Crashed r) o]> ts) m.
Proof.
  intros Hj Hsched.
  apply (stopped_in_place _ j (mkThread (Crashed r) o));
    [now apply list_lookup_insert_eq | discriminate.. | exact Hsched].
Qed.

(** One row of the pass of a select that owns the mutex. *)
Lemma select_step_in (ts : list thread) (j : nat) (mw : bool) (cols : StrVec)
  (w : Z) (c v : string) (i n : nat) (csv : CSV) (o : string) :
  j < length ts ->
  i < length (csvRows csv) ->
  table_step E
    (mkSys csv (<[j := mkThread (InSelect mw cols w c v i n) o]> ts) (Some j))
    j
  = match selectRow E cols w c v i n (mkQ csv o) with
    | (Ok n', q) =>
        mkSys (tbl q)
              (<[j := mkThread (InSelect mw cols w c v (S i) n') (os q)]> ts)
              (Some j)
    | (Throw e, q) =>
        mkSys (tbl q) (<[j := mkThread (Crashed (inl e)) (os q)]> ts) None
    | (Undefined u, q) =>
        mkSys (tbl q) (<[j := mkThread (Crashed (inr u)) (os q)]> ts) (Some j)
    end.
Proof.
  intros Hj Hi. unfold table_step. simpl.
  rewrite list_lookup_insert_eq by exact Hj. simpl.
  unfold thread_step, advance. simpl. case_decide; [|lia].
  destruct (selectRow E cols w c v i n (mkQ csv o)) as [[n'|e|u] q];
    simpl; rewrite list_insert_insert_eq; try reflexivity.
  now destruct (decide (j = j)).
Qed.

Lemma select_loop_in (ts : list thread) (j : nat) (mw : bool) (cols : StrVec)
  (w : Z) (c v : string) (rest : list nat) (todo : nat) :
  j < length ts ->
  Forall (fun k => k = j) rest ->
  forall (i n : nat) (csv : CSV) (o : string),
    i + todo = length (csvRows csv) ->
    table_run E (replicate todo j ++ rest)
      (mkSys csv (<[j := mkThread (InSelect mw cols w c v i n) o]> ts)
             (Some j))
    = match forRows (selectRow E cols w c v) todo i n (mkQ csv o) with
      | (Ok n', q) =>
          table_run E rest
            (mkSys (tbl q)
               (<[j := mkThread (InSelect mw cols w c v (i + todo) n') (os q)]>
                  ts) (Some j))
      | (Throw e, q) =>
          mkSys (tbl q) (<[j := mkThread (Crashed (inl e)) (os q)]> ts) None
      | (Undefined u, q) =>
          mkSys (tbl q) (<[j := mkThread (Crashed (inr u)) (os q)]> ts)
                (Some j)
      end.
Proof.
  intros Hj Hrest. induction todo as [|todo IH]; intros i n csv o Hlen.
  - simpl. unfold ret. now rewrite Nat.add_0_r.
  - simpl replicate. simpl app. rewrite table_run_cons.
    rewrite select_step_in by (auto; lia). simpl forRows. unfold bind.
    pose proof (selectRow_tbl E cols w c v i n (mkQ csv o)) as Htbl.
    simpl in Htbl.
    assert (Hall : Forall (fun k => k = j) (replicate todo j ++ rest)%list).
    { apply Forall_app. split; [|exact Hrest]. now apply Forall_replicate. }
    destruct (selectRow E cols w c v i n (mkQ csv o)) as [[n'|e|u] q];
      simpl in Htbl.
    + rewrite IH by (rewrite Htbl; lia).
      replace (S i + todo) with (i + S todo) by lia.
      destruct q as [csv' o']. reflexivity.
    + now apply crashed_in_place.
    + now apply crashed_in_place.
Qed.

(** The call a woken select makes as the owner of [csvMutex], while no
    other thread moves, ends as [selectQuery] ends, on the table as it
    was; the other threads are as they were. *)
Lemma select_retry_pass (ts : list thread) (j : nat) (csv : CSV)
  (mw : bool) (cols : StrVec) (w : Z) (c v : string) (o : string) :
  j < length ts ->
  table_run E (pass_of j csv)
    (mkSys csv (<[j := mkThread (Enter (CSelect mw cols w c v)) o]> ts)
           (Some j))
  = mkSys csv
      (<[j := thread_retried (selectQuery E mw cols w c v (mkQ csv o))]> ts)
      (mutex_after j (selectQuery E mw cols w c v (mkQ csv o))).
Proof.
  intros Hj. unfold pass_of.
  rewrite table_run_cons.
  assert (Hone : Forall (fun k => k = j) [j]) by (repeat constructor).
  assert (Hall : Forall (fun k => k = j)
                        (replicate (length (csvRows csv)) j ++ [j])%list).
  { apply Forall_app. split; [|exact Hone]. now apply Forall_replicate. }
  set (r := selectQuery E mw cols w c v (mkQ csv o)).
  assert (Hr : r = match expandStar cols (mkQ csv o) with
                   | (Ok cols', q0) =>
                       match forRows (selectRow E cols' w c v)
                                     (length (csvRows (tbl q0))) 0 0 q0 with
                       | (Ok n, q1) => selectFinish mw cols' w c v n q1
                       | (Throw e, q1) => (Throw e, q1)
                       | (Undefined u, q1) => (Undefined u, q1)
                       end
                   | (Throw e, q0) => (Throw e, q0)
                   | (Undefined u, q0) => (Undefined u, q0)
                   end).
  { unfold r, selectQuery, bind, get.
    destruct (expandStar cols (mkQ csv o)) as [[cols'|e|u] q0]; reflexivity. }
  clearbody r.
  unfold table_step. simpl threads.
  rewrite list_lookup_insert_eq by exact Hj. simpl.
  unfold thread_step, advance. simpl.
  destruct (expandStar cols (mkQ csv o)) as [[cols'|e|u] q0] eqn:Hstar.
  2:{ destruct cols as [|c0 cols]; simpl in Hstar; discriminate. }
  2:{ simpl. rewrite list_insert_insert_eq.
      assert (Hq0 : q0 = mkQ csv o).
      { destruct cols as [|c0 cols]; simpl in Hstar; [|discriminate].
        unfold expandStar, bind, lift, get, ret, index in Hstar.
        simpl in Hstar. now injection Hstar as _ <-. }
      subst q0 r. now apply crashed_in_place. }
  assert (Hq0 : q0 = mkQ csv o).
  { destruct cols as [|c0 cols]; simpl in Hstar; [discriminate|].
    unfold expandStar, bind, lift, get, ret, index in Hstar. simpl in Hstar.
    congruence. }
  subst q0. simpl in Hr |- *. rewrite list_insert_insert_eq.
  rewrite (select_loop_in ts j mw cols' w c v [j] _ Hj Hone 0 0 csv o eq_refl).
  pose proof (forRows_preserves tbl _ (selectRow_tbl E cols' w c v)
                (length (csvRows csv)) 0 0 (mkQ csv o)) as Htbl.
  simpl in Htbl.
  destruct (forRows (selectRow E cols' w c v) (length (csvRows csv)) 0 0
                    (mkQ csv o)) as [[n|e|u] [csv1 o1]];
    simpl in Htbl; subst csv1; try (subst r; reflexivity).
  rewrite table_run_cons. simpl tbl. simpl os.
  unfold table_step. simpl threads.
  rewrite list_lookup_insert_eq by exact Hj. simpl.
  unfold thread_step. simpl. case_decide; [lia|].
  unfold advance. unfold selectFinish in Hr |- *.
  destruct (mw && Nat.eqb n 0); subst r; simpl.
  - destruct (decide (j = j)); [|congruence].
    now rewrite list_insert_insert_eq.
  - rewrite list_insert_insert_eq. now destruct (decide (j = j)).
Qed.

(** A select that is waiting when an update that changed at least one row
    comes to its end is woken by that step.  Once it has locked
    [csvMutex] again it makes its call again as the owner of the mutex;
    when it makes its pass before another thread moves, it ends as a new
    call of [selectQuery] on the table as the update left it ends, after
    the output it had, and the mutex is free again, with one exception:
    a pass that again chooses no row ends with the lock of the mutex the
    thread owns, which has no defined behaviour.  On a table with one field
    per column and with column names the table has, the select returns
    when the [where] test chooses a row: it has printed the header, the
    chosen rows and their count. *)
Theorem waiting_select_is_served :
  forall (s : table_sys) (k j : nat) (mw : bool) (cols vals : StrVec) (w : Z)
         (c v : string) (i n : nat) (o : string)
         (smw : bool) (scols : StrVec) (sw : Z) (sc sv : string)
         (so : string),
    threads s !! k = Some (mkThread (InUpdate mw cols vals w c v i n) o) ->
    length (csvRows (shared s)) <= i ->
    0 < n ->
    threads s !! j = Some (mkThread (InWait (CSelect smw scols sw sc sv)) so) ->
    release k (csvMutex s) = None ->
    let r := selectQuery E smw scols sw sc sv (mkQ (shared s) so) in
    let served := table_run E (k :: j :: pass_of j (shared s)) s in
    let ms := List.filter (chosen E sw sc sv) (csvRows (shared s)) in
    shared served = shared s
    /\ threads served !! j = Some (thread_retried r)
    /\ csvMutex served = mutex_after j r
    /\ (scols <> [] ->
        well_formed (shared s) ->
        valid_columns (shared s) (expanded (shared s) scols) ->
        valid_where (shared s) sw ->
        (ms <> [] ->
         threads served !! j
         = Some (mkThread Finished
                   (so +:+ selectedText E (shared s)
                             (expanded (shared s) scols) 0 ms +:+
                    pretty (length ms) +:+ " row(s) selected." +:+ LF))
         /\ csvMutex served = None)
        /\ (ms = [] -> smw = true ->
            threads served !! j
            = Some (mkThread (Crashed (inr MutexRelock)) so))).
Proof.
  intros s k j mw cols vals w c v i n o smw scols sw sc sv so
         Hk Hi Hn Hj Hfree r served ms.
  assert (Hkj : k <> j) by (intros ->; congruence).
  pose proof (update_end_step E s k mw cols vals w c v i n o Hk Hi Hn)
    as Hstep.
  rewrite Hfree in Hstep.
  set (fin := mkThread Finished (o +:+ pretty n +:+ " row(s) updated." +:+ LF))
    in Hstep.
  set (ts := wake <$> <[k := fin]> (threads s)) in Hstep.
  assert (Hwoken : ts !! j
                   = Some (mkThread (Woken (CSelect smw scols sw sc sv)) so)).
  { subst ts. rewrite list_lookup_fmap, list_lookup_insert_ne by exact Hkj.
    now rewrite Hj. }
  assert (Hlen : j < length ts) by (eapply lookup_lt_Some, Hwoken).
  assert (Hserved : served
          = mkSys (shared s) (<[j := thread_retried r]> ts)
                  (mutex_after j r)).
  { subst served. rewrite !table_run_cons, Hstep.
    replace (table_step E (mkSys (shared s) ts None) j)
      with (mkSys (shared s)
              (<[j := mkThread (Enter (CSelect smw scols sw sc sv)) so]> ts)
              (Some j)).
    - now apply select_retry_pass.
    - unfold table_step. simpl. now rewrite Hwoken. }
  rewrite Hserved. simpl.
  rewrite list_lookup_insert_eq by exact Hlen.
  split; [reflexivity|]. split; [reflexivity|]. split; [reflexivity|].
  intros Hne Hwf Hcols Hwhere.
  pose proof (selectQuery_ok E _ smw scols sw sc sv so Hne Hwf Hcols Hwhere)
    as Hok.
  fold ms in Hok. fold r in Hok. simpl in Hok. split.
  - intros Hms. destruct ms as [|m0 ms'] eqn:Hmsv; [congruence|].
    simpl length in Hok. simpl Nat.eqb in Hok. rewrite andb_false_r in Hok.
    unfold thread_retried, mutex_after, thread_end. rewrite Hok. simpl.
    split; reflexivity.
  - intros Hms ->. rewrite Hms in Hok. simpl in Hok.
    unfold thread_retried. rewrite Hok. simpl. now rewrite append_nil_r.
Qed.

End Retried.

(** The waiting select of [ready_to_notify] is served; the one of
    [stale_notify] is woken for nothing and locks the mutex it owns. *)
Lemma waiting_select_is_served_witness :
  let served :=
    table_run eq_engine (1 :: 0 :: pass_of 0 (shared ready_to_notify))
              ready_to_notify in
  let stale :=
    table_run eq_engine (1 :: 0 :: pass_of 0 (shared stale_notify))
              stale_notify in
  shared served = shared ready_to_notify
  /\ threads served !! 0
     = Some (mkThread Finished ("status" +:+ LF +:+ "done" +:+ LF +:+
                                "1 row(s) selected." +:+ LF))
  /\ csvMutex served = None
  /\ threads stale !! 0 = Some (mkThread (Crashed (inr MutexRelock)) "").
Proof.
  pose proof (waiting_select_is_served eq_engine ready_to_notify 1 0
                false ["status"] ["done"] (-1) "" "" 1 1 ""
                true ["status"] 0 "=" "done" ""
                eq_refl (le_n 1) (le_n 1) eq_refl eq_refl)
    as (Hshared & _ & _ & Hret).
  pose proof (waiting_select_is_served eq_engine stale_notify 1 0
                false ["status"] ["other"] (-1) "" "" 1 1 ""
                true ["status"] 0 "=" "done" ""
                eq_refl (le_n 1) (le_n 1) eq_refl eq_refl)
    as (_ & _ & _ & Hstale).
  split; [exact Hshared|].
  destruct Hret as [Hserved _];
    [discriminate | repeat constructor | vm_compute; repeat constructor
    | right; simpl; lia |].
  destruct Hstale as [_ Hrelock];
    [discriminate | repeat constructor | vm_compute; repeat constructor
    | right; simpl; lia |].
  split; [apply Hserved; discriminate|].
  split; [apply Hserved; discriminate|].
  apply Hrelock; reflexivity.
Defined.

(** * An update followed by a select *)

Section UpdateThenSelect.

Variable E : engine_env.

Lemma filter_chosen_all (c v : string) (rows : list CSVRow) :
  List.filter (chosen E (-1) c v) rows = rows.
Proof.
  induction rows as [|row rows IH]; [reflexivity|].
  simpl. now rewrite IH.
Qed.

Lemma selectedText_lines (csv : CSV) (cols : StrVec) (rows : list CSVRow) :
  selectedText E csv cols 0 rows
  = match rows with [] => "" | _ => showStrVec E cols +:+ LF end +:+
    cat (rowText csv cols <$> rows).
Proof.
  destruct rows as [|row rows]; [reflexivity|].
  simpl selectedText. rewrite selectedText_later.
  now rewrite !append_assoc.
Qed.

Lemma project_written (columns : StrVec) (rows : list CSVRow)
  (colNames values : StrVec) (row : CSVRow) :
  length row = length columns ->
  Forall (fun c => c ∈ columns) colNames ->
  NoDup colNames ->
  length colNames <= length values ->
  project (mkCSV columns rows) (written columns colNames values row) colNames
  = take (length colNames) values.
Proof.
  intros Hrow Hcols Hnd Hlen. apply list_eq. intros k.
  unfold project. rewrite list_lookup_fmap, lookup_take. simpl.
  destruct (colNames !! k) as [cname|] eqn:Hk; simpl.
  - apply lookup_lt_Some in Hk as Hlt.
    destruct (decide (k < length colNames)) as [_|]; [|lia].
    destruct (lookup_lt_is_Some_2 values k) as [val Hv]; [lia|].
    destruct (find_index_elem cname columns) as [idx Hidx].
    { exact (Forall_lookup_1 (fun c => c ∈ columns) colNames k cname
               Hcols Hk). }
    rewrite Hidx, Hv.
    rewrite (written_lookup columns colNames values row k cname val idx);
      auto.
    + intros Hin. apply list_elem_of_lookup_1 in Hin as [j Hj].
      rewrite lookup_drop in Hj.
      pose proof (NoDup_lookup _ _ _ _ Hnd Hk Hj). lia.
    + rewrite Hrow. eapply find_index_lt, Hidx.
  - apply lookup_ge_None in Hk.
    destruct (decide (k < length colNames)); [lia|reflexivity].
Qed.

(** An update followed by a select of the columns it assigned, without a
    [where] clause, on a table with one field per column: the select
    prints one line for every row of the table, in order; for a row the
    update chose, the line holds the values the update was given, for
    every other row what the row held before.  The column names are
    distinct and are names of the table, the first is not [*], and there
    is a value for each. *)
Theorem update_then_select :
  forall (csv : CSV) (mustWait : bool) (colNames values : StrVec) (w : Z)
         (c v : string) (o : string) (c' v' : string) (o' : string),
    well_formed csv ->
    valid_columns csv colNames ->
    valid_where csv w ->
    NoDup colNames ->
    colNames <> [] ->
    hd "" colNames <> "*" ->
    length colNames <= length values ->
    let csv' := tbl (updateQuery E mustWait colNames values w c v
                                 (mkQ csv o)).2 in
    selectQuery E false colNames (-1) c' v' (mkQ csv' o')
    = (Ok (Returned false),
       mkQ csv'
           (o' +:+
            match csvRows csv with
            | [] => ""
            | _ => showStrVec E colNames +:+ LF
            end +:+
            cat (linesAfterUpdate E csv colNames values w c v) +:+
            pretty (length (csvRows csv)) +:+ " row(s) selected." +:+ LF)).
Proof.
  intros csv mw colNames values w c v o c' v' o'
         Hwf Hcols Hw Hnd Hne Hstar Hlen csv'.
  set (rows' := updated E (getColumnNames csv) colNames values w c v <$>
                csvRows csv).
  assert (Hcsv' : csv' = mkCSV (getColumnNames csv) rows').
  { subst csv'.
    rewrite (updateQuery_ok E csv mw colNames values w c v o Hlen Hwf Hcols Hw).
    simpl. now destruct (mw && _). }
  rewrite Hcsv'.
  assert (Hexp : expanded (mkCSV (getColumnNames csv) rows') colNames
                 = colNames).
  { destruct colNames as [|c0 cols]; [congruence|]. simpl in *.
    destruct (String.eqb_spec c0 "*"); [contradiction|reflexivity]. }
  assert (Hwf' : well_formed (mkCSV (getColumnNames csv) rows')).
  { unfold well_formed. simpl. subst rows'.
    apply Forall_fmap. unfold well_formed in Hwf.
    eapply Forall_impl; [exact Hwf|]. intros row Hrow. simpl.
    unfold updated. destruct (chosen E w c v row); [|exact Hrow].
    now rewrite written_length. }
  rewrite (selectQuery_ok E (mkCSV (getColumnNames csv) rows') false colNames
             (-1) c' v' o' Hne Hwf').
  2:{ now rewrite Hexp. }
  2:{ now left. }
  rewrite Hexp, filter_chosen_all. simpl csvRows. simpl andb. cbv iota.
  rewrite selectedText_lines.
  assert (Hlines : rowText (mkCSV (getColumnNames csv) rows') colNames <$> rows'
                   = linesAfterUpdate E csv colNames values w c v).
  { unfold linesAfterUpdate. subst rows'. rewrite <- list_fmap_compose.
    apply Forall_fmap_ext_1. unfold well_formed in Hwf.
    eapply Forall_impl; [exact Hwf|]. intros row Hrow. simpl.
    unfold updated, rowText. destruct (chosen E w c v row); [|reflexivity].
    now rewrite project_written. }
  rewrite Hlines. subst rows'. rewrite length_fmap.
  destruct (csvRows csv) as [|r rs]; simpl fmap; cbv iota;
    now rewrite !append_assoc.
Qed.

End UpdateThenSelect.

(** On the table with the columns [a] and [b]: after [b] is set to [z] in
    the rows where [b] is [x], the select of [b] prints [z], [y], [z]. *)
Lemma update_then_select_witness :
  let csv' := tbl (updateQuery eq_engine false ["b"] ["z"] 1 "=" "x"
                               (mkQ abc_table "")).2 in
  selectQuery eq_engine false ["b"] (-1) "" "" (mkQ csv' "")
  = (Ok (Returned false),
     mkQ csv' ("b" +:+ LF +:+ "z" +:+ LF +:+ "y" +:+ LF +:+ "z" +:+ LF +:+
               "3 row(s) selected." +:+ LF)).
Proof.
  apply (update_then_select eq_engine abc_table false ["b"] ["z"] 1 "=" "x" ""
                            "" "" "").
  - repeat constructor.
  - vm_compute. repeat constructor.
  - right. simpl. lia.
  - apply NoDup_singleton.
  - discriminate.
  - discriminate.
  - simpl. lia.
Defined.

(** * Every request gives up its slot *)

Section AlwaysReleases.

Variable X : server_env.

(** Whatever the client sends, also nothing or a malformed request line,
    and whether the query returns or throws, [clientThread] itself does
    not throw: it ends with an answer, the counter one lower and one
    notification made.  [process] is taken to have no undefined behaviour
    and to leave the counter and the waiting threads alone. *)
Theorem clientThread_always_releases :
  forall (client : istream) (w : world),
    (forall request s u, (process X request s).1 <> Undefined u) ->
    (forall request s,
        numThreads (process X request s).2.1 = numThreads s.1
        /\ thrCond (process X request s).2.1 = thrCond s.1) ->
    exists out : string,
      (clientThread X client w).1 = Ok out
      /\ numThreads (clientThread X client w).2 = (numThreads w - 1)%Z
      /\ thrCond (clientThread X client w).2 = notify_one (thrCond w).
Proof.
  intros client w Hdefined Hframe.
  assert (Hends : exists (out : string) (w1 : world),
             clientThread X client w
             = (Ok out, notifyThread (decrementThreads w1))
             /\ numThreads w1 = numThreads w /\ thrCond w1 = thrCond w).
  { unfold clientThread.
    destruct (extract client "") as [client1 request1].
    destruct (extract client1 request1) as [client2 request].
    destruct (String.prefix "/sql-air?query=" request).
    - unfold bind at 1. unfold bind at 1. unfold runQuery, try_catch.
      pose proof (Hdefined (url_decode X (substr 15 request)) (w, "")) as Hdef.
      pose proof (Hframe (url_decode X (substr 15 request)) (w, "")) as Hfr.
      destruct (process X (url_decode X (substr 15 request)) (w, ""))
        as [[[]|e|u] [w1 os]]; simpl in Hfr; destruct Hfr as [Hnum Hcond].
      + eexists _, w1. split; [reflexivity|]. now split.
      + eexists _, w1. split; [reflexivity|]. now split.
      + now destruct (Hdef u).
    - destruct (negb (String.eqb request "")); eexists _, w;
        (split; [reflexivity|]); now split. }
  destruct Hends as (out & w1 & -> & Hnum & Hcond).
  exists out. simpl. now rewrite Hnum, Hcond.
Qed.

End AlwaysReleases.

(** A request line of one word with surroundings whose [process] prints
    its query. *)
Lemma clientThread_always_releases_witness :
  exists out : string,
    (clientThread echo_env (stream_of "/sql-air?query=x") world0).1 = Ok out
    /\ numThreads (clientThread echo_env (stream_of "/sql-air?query=x")
                                world0).2
       = (numThreads world0 - 1)%Z
    /\ thrCond (clientThread echo_env (stream_of "/sql-air?query=x") world0).2
       = notify_one (thrCond world0).
Proof.
  apply (clientThread_always_releases echo_env).
  - intros request [w os] u. discriminate.
  - intros request [w os]. split; reflexivity.
Defined.

(** * Loading a table from a web server *)

Section LoadFromURL.

Variable X : server_env.

(** A first [loadAndGet] of an identifier that starts with [http://]
    goes to the web server the identifier names, whatever the local files
    are: when the reply starts with a line containing [200 OK],
    [CSV::load] is given exactly the text after the headers; the table it
    builds is cached under the identifier, which becomes the
    most-recently-used one.  When [CSV::load] throws on that text, the
    exception leaves [loadAndGet] and no table is cached. *)
Theorem loadAndGet_from_url :
  forall (url hostName port path : string) (server : string -> string)
         (before after : string) (headers : list string)
         (term body : string) (w : world),
    String.prefix "http://" url = true ->
    inMemoryCSV w !! url = None ->
    breakDownURL X url = (hostName, port, path) ->
    network X hostName port = Some server ->
    server path = before +:+ "200 OK" +:+ after +:+ LF +:+
                  header_block headers +:+ term +:+ LF +:+ body ->
    no_char 10 before = true ->
    no_char 10 after = true ->
    Forall header_line headers ->
    term = "" \/ term = CR ->
    loadAndGet X url w
    = match csv_load X (stream_of body) with
      | Ok csv =>
          (Ok url,
           set_inMemoryCSV (<[url := csv]> (inMemoryCSV w))
                           (set_recentCSV url w))
      | Throw e => (Throw e, set_recentCSV url w)
      | Undefined u => (Undefined u, set_recentCSV url w)
      end.
Proof.
  intros url host port path server before after hs term body w
         Hurl Hnew Hparts Hnet Hreply Hb Ha Hhs Hterm.
  assert (Hne : String.eqb url "" = false).
  { destruct url; [discriminate|reflexivity]. }
  rewrite loadAndGet_unfold. unfold effective. rewrite Hne. cbv zeta.
  rewrite Hnew. unfold loadCSV. rewrite Hurl, Hparts.
  rewrite (setupDownload_body X host path port server before after hs term
             body Hnet Hreply Hb Ha Hhs Hterm).
  destruct (csv_load X (stream_of body)) as [csv|e|u]; reflexivity.
Qed.

End LoadFromURL.

(** The table behind [http://host/t.csv] is loaded from the body of the
    reply. *)
Lemma loadAndGet_from_url_witness :
  loadAndGet
    (online ("HTTP/1.1 200 OK" +:+ CR +:+ LF +:+
             header_block ["Content-Type: text/csv" +:+ CR] +:+ CR +:+ LF +:+
             "a,b"))
    "http://host/t.csv" world0
  = (Ok "http://host/t.csv",
     mkWorld {["http://host/t.csv" := mkCSV ["a,b"] []]} "http://host/t.csv"
             0 [] ∅).
Proof.
  rewrite (loadAndGet_from_url _ "http://host/t.csv" "host" "80" "/t.csv"
             (fun path => "HTTP/1.1 200 OK" +:+ CR +:+ LF +:+
                header_block ["Content-Type: text/csv" +:+ CR] +:+ CR +:+
                LF +:+ "a,b")
             "HTTP/1.1 " CR
             ["Content-Type: text/csv" +:+ CR] CR "a,b" world0).
  - reflexivity.
  - reflexivity.
  - reflexivity.
  - reflexivity.
  - reflexivity.
  - reflexivity.
  - reflexivity.
  - reflexivity.
  - repeat constructor; discriminate.
  - now right.
Defined.
